(** * NSE dashboard backend: registry, result cache, batched fetcher,
      market summary and industry aggregation (server.js)

    A shallow embedding of the request pipeline of [server.js]:
    [preloadExcelData], [fetchEquityDetailsInBatches] and the two handlers
    [GET /api/market-data] and [GET /api/industry-data], and of the
    market-hours check [isMarketOpen].

    Modelling conventions.
    - The numbers of a quote, its price and its percentage change, are kept
      by their exact value, a rational ([Qc]): JSON has neither NaN nor the
      infinities, and comparing two doubles or taking the sign of their
      difference is exact.  The sums and the quotients of the aggregation
      are computed on binary64 doubles, with the operations of the standard
      library's specification of IEEE-754 arithmetic ([SpecFloat]), rounding
      to nearest, ties to even, overflowing to the infinities;
      [JsNumber.of_Qc] gives the double of a value.  [parseFloat] reads a
      decimal numeral exactly: rounding two readings of [toFixed(2)] texts
      to doubles keeps the sign of their difference.  Epoch milliseconds are
      [Z].
    - JavaScript strings are [string]; [toUpperCase] and [trim] act on the
      ASCII range.
    - The module-level variables of the server are the record [Registry];
      the result cache, the clock, the number of provider calls issued and
      the console/timer trace are the record [World], threaded explicitly.
    - The market-data provider and the spreadsheet reader are external: the
      provider is an oracle indexed by the number of calls issued so far,
      the reader's outcome is an input of [preloadExcelData].
    - The exceptions of the model are the ones the source can meet on
      well-typed data: a failing spreadsheet read, an inherited member hit
      while the industry index is filled, and a provider call that throws
      instead of returning a promise.  [cache.set] does not throw.
    - Objects used as maps keep their keys in insertion order; no industry
      label is a canonical array index, which the engine would list first.
      Symbols are upper-cased on load and [load_rows] stops at an industry
      label that names an inherited member, so the objects the handlers
      build ([symbolToIndustries], [industryMetrics]) are plain maps.
    - The clock stands still during synchronous code and moves while a
      handler awaits a timer or the provider.
    - The local-time getters of [Date] are those of a host whose time zone
      keeps a fixed offset from UTC. *)

From Stdlib Require Import Ascii QArith Qcanon DecimalString Lqa.
From Stdlib Require DecimalPos DecimalN SpecFloat.
From stdpp Require Import gmap strings list sorting.

Local Open Scope string_scope.
Local Open Scope list_scope.
Local Open Scope Z_scope.

(** ** JavaScript string primitives used by the server *)

Module JsString.

Definition is_lower (c : ascii) : bool :=
  let n := N_of_ascii c in ((97 <=? n) && (n <=? 122))%N.

Definition upper_char (c : ascii) : ascii :=
  if is_lower c then ascii_of_N (N_of_ascii c - 32) else c.

(** [String.prototype.toUpperCase]. *)
Fixpoint toUpperCase (s : string) : string :=
  match s with
  | EmptyString => EmptyString
  | String c r => String (upper_char c) (toUpperCase r)
  end.

(** White space and line terminators: TAB, LF, VT, FF, CR and SPACE. *)
Definition is_white (c : ascii) : bool :=
  let n := N_of_ascii c in ((n =? 32) || ((9 <=? n) && (n <=? 13)))%N.

Fixpoint trimStart (s : string) : string :=
  match s with
  | EmptyString => EmptyString
  | String c r => if is_white c then trimStart r else s
  end.

Definition reverse (s : string) : string :=
  String.string_of_list_ascii (rev (String.list_ascii_of_string s)).

(** [String.prototype.trim]. *)
Definition trim (s : string) : string :=
  reverse (trimStart (reverse (trimStart s))).

(** [s.replace(/\.NS$/, '')]: one trailing [.NS] is removed. *)
Definition strip_NS (s : string) : string :=
  match reverse s with
  | String "S" (String "N" (String "." r)) => reverse r
  | _ => s
  end.

(** Truthiness of a string: only the empty string is falsy. *)
Definition truthy (s : string) : bool :=
  match s with EmptyString => false | _ => true end.

End JsString.

(** ** Numbers: [toFixed(2)] and [parseFloat] *)

(** The value stored in [avgPChange].  [Fixed s] is the string [s];
    [Exponential x] stands for the string [String(x)] that [toFixed] returns
    in exponent notation for a magnitude of at least 10^21 (its digits are
    not spelled out); [Number x] is a number, not a text. *)
Inductive NumText : Type :=
  | Fixed (s : string)
  | Exponential (x : Qc)
  | Number (x : Qc).

Module JsNumber.

Definition Qc_of_Z (z : Z) : Qc := Q2Qc (inject_Z z).

Definition magnitude (x : Qc) : Qc := if decide (x < 0)%Qc then (- x)%Qc else x.

(** The integer [n] for which [n / 100 - x] is as close to zero as
    possible, the larger one on a tie; [x] is not negative. *)
Definition hundredths (x : Qc) : Z :=
  (200 * Qnum (this x) + Zpos (Qden (this x))) / (2 * Zpos (Qden (this x))).

Definition digits (n : Z) : string :=
  NilZero.string_of_uint (N.to_uint (Z.to_N n)).

(** Left padding with zeros up to three characters, so that two of them
    follow the point. *)
Definition pad3 (s : string) : string :=
  match String.length s with
  | 0%nat => "000" +:+ s
  | 1%nat => "00" +:+ s
  | 2%nat => "0" +:+ s
  | _ => s
  end.

Definition point2 (s : string) : string :=
  let k := (String.length s - 2)%nat in
  String.substring 0 k s +:+ "." +:+ String.substring k 2 s.

(** [Number.prototype.toFixed] with two fraction digits. *)
Definition toFixed2 (x : Qc) : NumText :=
  let sign := if decide (x < 0)%Qc then "-" else "" in
  let m := magnitude x in
  if decide (Qc_of_Z (10 ^ 21) <= m)%Qc then Exponential x
  else Fixed (sign +:+ point2 (pad3 (digits (hundredths m)))).

Definition split_point (s : string) : string * string :=
  match String.index 0 "." s with
  | Some k => (String.substring 0 k s, String.substring (S k) (String.length s - S k) s)
  | None => (s, "")
  end.

Definition nat_digits (s : string) : option Z :=
  match s with
  | EmptyString => Some 0
  | _ => (λ u, Z.of_N (N.of_uint u)) <$> NilEmpty.uint_of_string s
  end.

(** The value of an unsigned numeral [ddd.ddd]. *)
Definition unsigned_value (s : string) : option Qc :=
  let '(ip, fp) := split_point s in
  match ip, fp with
  | EmptyString, EmptyString => None
  | _, _ =>
      i ← nat_digits ip;
      f ← nat_digits fp;
      Some (Qc_of_Z i + Qc_of_Z f / Qc_of_Z (10 ^ Z.of_nat (String.length fp)))%Qc
  end.

(** What [parseFloat] returns. *)
Inductive Parsed : Type :=
  | Finite (x : Qc)
  | Infinite (negative : bool)
  | NotANumber.

(** [parseFloat] on the texts [toFixed] produces: [Infinity] with an
    optional minus sign, or an optional minus sign and a plain decimal
    numeral; anything else, as the text [NaN], is NaN. *)
Definition parseFloat (t : NumText) : Parsed :=
  match t with
  | Exponential x | Number x => Finite x
  | Fixed s =>
      if String.eqb s "Infinity" then Infinite false
      else if String.eqb s "-Infinity" then Infinite true
      else
        match s with
        | String "-" r => from_option (λ x, Finite (- x)) NotANumber (unsigned_value r)
        | _ => from_option Finite NotANumber (unsigned_value s)
        end
  end.

(** *** Doubles *)

(** IEEE-754 binary64: 53 bits of precision, exponents below 1024. *)
Definition double : Type := SpecFloat.spec_float.

Definition zero : double := SpecFloat.S754_zero false.

(** [x + y] and [x / y] on doubles. *)
Definition add : double → double → double := SpecFloat.SFadd 53 1024.
Definition div : double → double → double := SpecFloat.SFdiv 53 1024.

(** The double of an integer and of a rational: the nearest one, the value
    itself when it is the value of a double. *)
Definition of_Z (z : Z) : double := SpecFloat.binary_normalize 53 1024 z 0 false.

Definition of_Qc (x : Qc) : double :=
  match Qnum (this x) with
  | 0 => zero
  | Zpos n =>
      div (SpecFloat.S754_finite false n 0) (SpecFloat.S754_finite false (Qden (this x)) 0)
  | Zneg n =>
      div (SpecFloat.S754_finite true n 0) (SpecFloat.S754_finite false (Qden (this x)) 0)
  end.

Definition finite (x : double) : bool :=
  match x with
  | SpecFloat.S754_zero _ | SpecFloat.S754_finite _ _ _ => true
  | _ => false
  end.

(** The exact value of a finite double. *)
Definition value (x : double) : Qc :=
  match x with
  | SpecFloat.S754_finite s m e =>
      Q2Qc (inject_Z (SpecFloat.cond_Zopp s (Zpos m)) * Qpower (2 # 1) e)
  | _ => 0%Qc
  end.

(** [x.toFixed(2)] on a double: the name of a value that is not finite, and
    the two decimals of the exact value otherwise (minus zero is not below
    zero and prints without a sign). *)
Definition double_toFixed2 (x : double) : NumText :=
  match x with
  | SpecFloat.S754_nan => Fixed "NaN"
  | SpecFloat.S754_infinity false => Fixed "Infinity"
  | SpecFloat.S754_infinity true => Fixed "-Infinity"
  | _ => toFixed2 (value x)
  end.

End JsNumber.

(** A decimal literal [n / 10^2], for examples. *)
Definition cents (n : Z) : Qc := Q2Qc (n # 100).

(** ** Data model *)

Record PriceInfo : Type := { pChange : Qc; lastPrice : Qc }.

Record Info : Type := { companyName : string }.

(** The quote objects the fetcher returns and the handlers serialise. *)
Record Quote : Type := { symbol : string; priceInfo : PriceInfo; info : Info }.

(** The value stored per symbol in the result cache. *)
Record CacheEntry : Type :=
  { ce_pChange : Qc; ce_lastPrice : Qc; ce_companyName : string; timestamp : Z }.

(** A spreadsheet row: the [Symbol] and [Industry] cells after [toString],
    [None] for a missing cell. *)
Record Row : Type := { row_Symbol : option string; row_Industry : option string }.

(** The module-level variables [nifty500Data], [industryData] and
    [allSymbolsSet].  [industryData] is an object used as a map whose key
    order is observable ([Object.entries]): an association list in insertion
    order. *)
Record Registry : Type :=
  { nifty500Data : list Row;
    industryData : list (string * list string);
    allSymbolsSet : gset string }.

Definition initial_registry : Registry :=
  {| nifty500Data := []; industryData := []; allSymbolsSet := ∅ |}.

Definition SKIP_NIFTY500_VALIDATION : bool := false.
Definition MAX_SYMBOLS_PER_INDUSTRY : nat := 0.
Definition BATCH_SIZE : positive := 50.
Definition BATCH_DELAY_MS : Z := 1000.
Definition MAX_RETRIES : nat := 5.

Definition DEFAULT_INDUSTRY_DATA : list (string * list string) :=
  [ ("Industrial", ["TIMKEN"]);
    ("Financial Services", ["PAYTM"; "POLICYBZR"; "PNBHOUSING"; "POONAWALLA"]);
    ("Energy", ["RELIANCE"]);
    ("Technology", ["TCS"]);
    ("Infrastructure", ["PFC"]);
    ("Consumer Services", ["PEL"]) ].

(** ** Symbol registry: [preloadExcelData] *)

(** What [readExcelFile] did: it returned rows or it threw. *)
Inductive ReadOutcome : Type :=
  | ReadRows (rows : list Row)
  | ReadError.

Fixpoint assoc {V : Type} (k : string) (m : list (string * V)) : option V :=
  match m with
  | [] => None
  | (k', v) :: rest => if decide (k = k') then Some v else assoc k rest
  end.

(** Assignment to a key of an object: an existing key keeps its place, a new
    key goes last. *)
Fixpoint assoc_set {V : Type} (k : string) (v : V) (m : list (string * V))
  : list (string * V) :=
  match m with
  | [] => [(k, v)]
  | (k', v') :: rest =>
      if decide (k = k') then (k, v) :: rest else (k', v') :: assoc_set k v rest
  end.

(** The property names every object literal inherits.  Reading one of them
    from [industryData] yields a truthy value that is no array. *)
Definition object_prototype_keys : list string :=
  [ "constructor"; "__proto__"; "hasOwnProperty"; "isPrototypeOf";
    "propertyIsEnumerable"; "toLocaleString"; "toString"; "valueOf";
    "__defineGetter__"; "__defineSetter__"; "__lookupGetter__";
    "__lookupSetter__" ].

(** [row['Symbol']?.toString().toUpperCase().replace(/\.NS$/, '')];
    [None] is [undefined]. *)
Definition normalize_symbol (row : Row) : option string :=
  (λ s, JsString.strip_NS (JsString.toUpperCase s)) <$> row_Symbol row.

(** [row['Industry']?.toString().trim() || 'Other']. *)
Definition normalize_industry (row : Row) : string :=
  match JsString.trim <$> row_Industry row with
  | Some s => if JsString.truthy s then s else "Other"
  | None => "Other"
  end.

(** The body of the [forEach] over the rows (lines 90-104).  The first
    component is [None] when the body threw: [industryData[industry]] was an
    inherited member, on which [includes] is not a function.  The symbol set
    keeps what was added before the throw. *)
Fixpoint load_rows (rows : list Row) (ind : list (string * list string))
    (syms : gset string) : option (list (string * list string)) * gset string :=
  match rows with
  | [] => (Some ind, syms)
  | row :: rest =>
      let symbol := default "" (normalize_symbol row) in
      let industry := normalize_industry row in
      if JsString.truthy symbol then
        let syms' := {[ symbol ]} ∪ syms in
        match assoc industry ind with
        | Some members =>
            if decide (symbol ∈ members) then load_rows rest ind syms'
            else load_rows rest (assoc_set industry (members ++ [symbol]) ind) syms'
        | None =>
            if decide (industry ∈ object_prototype_keys) then (None, syms')
            else load_rows rest (assoc_set industry [symbol] ind) syms'
        end
      else load_rows rest ind syms
  end.

(** [Object.values(DEFAULT_INDUSTRY_DATA).flat()]. *)
Definition default_symbols : list string := concat (snd <$> DEFAULT_INDUSTRY_DATA).

Definition preloadExcelData (src : ReadOutcome) (r : Registry) : Registry :=
  match src with
  | ReadRows rows =>
      match load_rows rows [] (allSymbolsSet r) with
      | (Some ind, syms) =>
          if (length ind =? 0)%nat then
            {| nifty500Data := rows;
               industryData := DEFAULT_INDUSTRY_DATA;
               allSymbolsSet := list_to_set default_symbols ∪ syms |}
          else {| nifty500Data := rows; industryData := ind; allSymbolsSet := syms |}
      | (None, syms) =>
          {| nifty500Data := [];
             industryData := DEFAULT_INDUSTRY_DATA;
             allSymbolsSet := list_to_set default_symbols ∪ syms |}
      end
  | ReadError =>
      {| nifty500Data := [];
         industryData := DEFAULT_INDUSTRY_DATA;
         allSymbolsSet := list_to_set default_symbols ∪ allSymbolsSet r |}
  end.

(** ** The world outside the registry: cache, clock, provider traffic *)

(** Observable effects, oldest first: a call of [getEquityDetails], a timer
    wait, and the two console messages of the retry loop (with the 1-based
    batch and attempt numbers they print). *)
Inductive Event : Type :=
  | EvRequest (symbol : string)
  | EvSleep (ms : Z)
  | EvBatchError (batch attempt : nat)
  | EvBatchSkipped (batch : nat).

(** [cache] is the store of the [NodeCache] instance: each key holds its
    value and the epoch millisecond at which the library lets it expire. *)
Record World : Type :=
  { cache : gmap string (CacheEntry * Z);
    now : Z;
    requests : nat;
    trace : list Event }.

Definition with_cache (c : gmap string (CacheEntry * Z)) (w : World) : World :=
  {| cache := c; now := now w; requests := requests w; trace := trace w |}.

Definition emit (e : Event) (w : World) : World :=
  {| cache := cache w; now := now w; requests := requests w; trace := trace w ++ [e] |}.

(** Time passing while the handler is suspended. *)
Definition elapse (ms : Z) (w : World) : World :=
  {| cache := cache w; now := now w + ms; requests := requests w; trace := trace w |}.

(** [await new Promise(resolve => setTimeout(resolve, ms))]. *)
Definition sleep (ms : Z) (w : World) : World := elapse ms (emit (EvSleep ms) w).

Definition count_request (symbol : string) (w : World) : World :=
  {| cache := cache w; now := now w; requests := S (requests w);
     trace := trace w ++ [EvRequest symbol] |}.

(** *** The NodeCache instance, [new NodeCache({ stdTTL: 300 })] *)

Definition stdTTL : Z := 300.

(** [cache.get(key)]: a key whose expiry lies in the past is deleted and
    reported as [undefined]. *)
Definition cache_get (key : string) (w : World) : option CacheEntry * World :=
  match cache w !! key with
  | Some (v, t) =>
      if t <? now w then (None, with_cache (delete key (cache w)) w) else (Some v, w)
  | None => (None, w)
  end.

(** [cache.set(key, value)] with the standard time to live. *)
Definition cache_set (key : string) (v : CacheEntry) (w : World) : World :=
  with_cache (<[ key := (v, now w + stdTTL * 1000) ]> (cache w)) w.

(** *** The market-data provider *)

(** A JavaScript value as far as [typeof] tells values apart. *)
Inductive JsVal : Type :=
  | JUndefined
  | JNull
  | JBool (b : bool)
  | JNum (x : Qc)
  | JStr (s : string)
  | JObject.

Record RawPriceInfo : Type := { raw_pChange : JsVal; raw_lastPrice : JsVal }.

Record RawInfo : Type := { raw_companyName : option string }.

(** The payload of a resolved [getEquityDetails]; a field is [None] when it
    is missing or falsy. *)
Record EquityDetails : Type :=
  { raw_priceInfo : option RawPriceInfo; raw_info : option RawInfo }.

(** One call of [nseIndia.getEquityDetails(symbol)]: the call itself throws,
    or it returns a promise that rejects, or one that resolves ([None] for a
    falsy payload). *)
Inductive ProviderOutcome : Type :=
  | Throws
  | Rejects
  | Resolves (result : option EquityDetails).

(** The provider: the outcome of the call issued when [n] calls have been
    issued before it, and the time [Promise.all] takes to settle. *)
Record Provider : Type :=
  { getEquityDetails : nat → string → ProviderOutcome;
    latency : nat → N }.

(** ** Batched fetcher: [fetchEquityDetailsInBatches] *)

Definition quote_of_entry (symbol : string) (e : CacheEntry) : Quote :=
  {| symbol := symbol;
     priceInfo := {| pChange := ce_pChange e; lastPrice := ce_lastPrice e |};
     info := {| companyName := ce_companyName e |} |}.

(** [cached.timestamp > Date.now() - 300 * 1000]. *)
Definition fresh (e : CacheEntry) (w : World) : bool :=
  now w - 300 * 1000 <? timestamp e.

(** The loop of lines 137-149: cache hits become quotes, the other symbols
    are left to fetch. *)
Fixpoint cache_phase (validSymbols : list string) (w : World)
  : list Quote * list string * World :=
  match validSymbols with
  | [] => ([], [], w)
  | symbol :: rest =>
      let '(cached, w1) := cache_get symbol w in
      let '(results, uncachedSymbols, w2) := cache_phase rest w1 in
      match cached with
      | Some e =>
          if fresh e w1 then (quote_of_entry symbol e :: results, uncachedSymbols, w2)
          else (results, symbol :: uncachedSymbols, w2)
      | None => (results, symbol :: uncachedSymbols, w2)
      end
  end.

(** The [for] loop of lines 155-157 cutting the symbols into batches.  A
    batch size of zero would keep that loop running for ever; both callers
    pass [BATCH_SIZE], and the size is typed [positive]. *)
Fixpoint slices {A : Type} (fuel : nat) (n : nat) (l : list A) : list (list A) :=
  match fuel with
  | O => []
  | S fuel' =>
      match l with
      | [] => []
      | _ => take n l :: slices fuel' n (drop n l)
      end
  end.

Definition make_batches {A : Type} (batchSize : positive) (l : list A) : list (list A) :=
  slices (length l) (Pos.to_nat batchSize) l.

(** The [filter] and [map] of lines 173-186 in one pass: a result passes the
    filter exactly when it yields a quote. *)
Definition quote_of_result (symbol : string) (result : option EquityDetails)
  : option Quote :=
  match result with
  | Some {| raw_priceInfo := Some {| raw_pChange := JNum p; raw_lastPrice := JNum l |};
            raw_info := i |} =>
      Some {| symbol := symbol;
              priceInfo := {| pChange := p; lastPrice := l |};
              info := {| companyName :=
                match i with
                | Some {| raw_companyName := Some n |} =>
                    if JsString.truthy n then n else "Unknown"
                | _ => "Unknown"
                end |} |}
  | _ => None
  end.

(** [cache.set(symbol, { pChange, lastPrice, companyName, timestamp: Date.now() })]. *)
Definition cache_quote (w : World) (q : Quote) : World :=
  cache_set (symbol q)
    {| ce_pChange := pChange (priceInfo q);
       ce_lastPrice := lastPrice (priceInfo q);
       ce_companyName := companyName (info q);
       timestamp := now w |} w.

Section Fetcher.

Variable FORCE_CACHE_BYPASS : bool.
Variable nseIndia : Provider.

(** [batch.map(symbol => nseIndia.getEquityDetails(symbol).then(..).catch(..))]:
    the calls are issued in order; a call that throws ends the [map] with
    an exception ([None]); a rejection becomes [{ symbol, result: null }]. *)
Fixpoint issue_requests (batch : list string) (w : World)
  : option (list (string * option EquityDetails)) * World :=
  match batch with
  | [] => (Some [], w)
  | symbol :: rest =>
      let outcome := getEquityDetails nseIndia (requests w) symbol in
      let w1 := count_request symbol w in
      match outcome with
      | Throws => (None, w1)
      | Rejects =>
          let '(r, w2) := issue_requests rest w1 in
          (cons (symbol, None) <$> r, w2)
      | Resolves result =>
          let '(r, w2) := issue_requests rest w1 in
          (cons (symbol, result) <$> r, w2)
      end
  end.

(** The body of the [try] (lines 164-197); [None] when it threw.  After
    [Promise.all] has settled, the valid results are mapped to quotes, each
    is written to the cache with the current time, and all are returned. *)
Definition try_batch (batch : list string) (w : World) : option (list Quote) * World :=
  let '(r, w1) := issue_requests batch w in
  match r with
  | None => (None, w1)
  | Some batchResults =>
      let w2 := elapse (Z.of_N (latency nseIndia (requests w1))) w1 in
      let validResults := omap (λ sr, quote_of_result sr.1 sr.2) batchResults in
      (Some validResults, foldl cache_quote w2 validResults)
  end.

(** The [while (attempts > 0)] loop of lines 162-208 for the batch with
    0-based position [index]. *)
Fixpoint retry_batch (index : nat) (batch : list string) (attempts : nat) (w : World)
  : list Quote * World :=
  match attempts with
  | O => ([], w)
  | S attempts' =>
      match try_batch batch w with
      | (Some validResults, w1) => (validResults, w1)
      | (None, w1) =>
          let w2 := emit (EvBatchError (index + 1) (MAX_RETRIES + 1 - attempts)) w1 in
          if (attempts' =? 0)%nat
          then retry_batch index batch attempts' (emit (EvBatchSkipped (index + 1)) w2)
          else retry_batch index batch attempts' (sleep 1000 w2)
      end
  end.

(** Lines 209-211: the wait after a batch that is not the last one. *)
Definition between_batches (rest : list (list string)) (w : World) : World :=
  match rest with [] => w | _ => sleep BATCH_DELAY_MS w end.

(** The [for] loop over the batches (lines 159-212). *)
Fixpoint fetch_batches (index : nat) (batches : list (list string)) (w : World)
  : list Quote * World :=
  match batches with
  | [] => ([], w)
  | batch :: rest =>
      let '(fetched, w1) := retry_batch index batch MAX_RETRIES w in
      let '(later, w2) := fetch_batches (S index) rest (between_batches rest w1) in
      (fetched ++ later, w2)
  end.

(** [allSymbolsSet.has(sym) && typeof sym === 'string' && sym.trim() !== ''];
    every [sym] of the model is a string. *)
Definition valid_symbol (reg : Registry) (sym : string) : bool :=
  bool_decide (sym ∈ allSymbolsSet reg) && JsString.truthy (JsString.trim sym).

Definition fetchEquityDetailsInBatches (reg : Registry) (symbols : list string)
    (batchSize : positive) (forceRefresh : bool) (w : World)
  : (list Quote * bool) * World :=
  let validSymbols := filter (λ sym, valid_symbol reg sym = true) symbols in
  let '(hits, uncachedSymbols, w1) :=
    if negb forceRefresh && negb FORCE_CACHE_BYPASS
    then cache_phase validSymbols w
    else ([], validSymbols, w) in
  let cacheHits := length hits in
  let batches := make_batches batchSize uncachedSymbols in
  let '(fetched, w2) := fetch_batches 0 batches w1 in
  ((hits ++ fetched,
    bool_decide (0 < cacheHits)%nat && negb forceRefresh && negb FORCE_CACHE_BYPASS),
   w2).

End Fetcher.

(** ** [Array.prototype.sort] with a comparator *)

(** The sort is stable; it is modelled by a stable insertion sort.  [cmp a b]
    is the number the comparator returns: [a] goes before [b] when it is
    negative, after [b] when it is positive, and the two keep their order
    when it is zero. *)
Section Sort.

Context {A : Type}.
Variable cmp : A → A → Qc.

Fixpoint sort_insert (x : A) (l : list A) : list A :=
  match l with
  | [] => [x]
  | y :: rest =>
      if decide (0 < cmp x y)%Qc then y :: sort_insert x rest else x :: y :: rest
  end.

Definition js_sort (l : list A) : list A := foldr sort_insert [] l.

End Sort.

(** ** HTTP responses *)

Record IndustryAggregate : Type :=
  { industry : string;
    avgPChange : NumText;
    stockCount : nat;
    stocks : list Quote;
    topStock : option Quote }.

Inductive Body : Type :=
  | MarketBody (gainers losers : list Quote) (cached : bool) (timestamp : Z)
  | IndustryBody (industries : list IndustryAggregate) (cached : bool)
      (timestamp : Z) (warning : option string)
  | ErrorBody (error : string).

Record Response : Type := { status : nat; body : Body }.

(** ** Market-wide summary: [GET /api/market-data] *)

Definition change (q : Quote) : Qc := pChange (priceInfo q).

(** [(a, b) => b.priceInfo.pChange - a.priceInfo.pChange]. *)
Definition descending (a b : Quote) : Qc := (change b - change a)%Qc.

(** [(a, b) => a.priceInfo.pChange - b.priceInfo.pChange]. *)
Definition ascending (a b : Quote) : Qc := (change a - change b)%Qc.

(** Lines 233-238.  [validResults.sort] sorts in place, so the filter for
    the losers runs over the array already sorted for the gainers. *)
Definition market_summary (validResults : list Quote) : list Quote * list Quote :=
  let sortedResults := js_sort descending validResults in
  let gainers := take 10 sortedResults in
  let losers :=
    take 10 (js_sort ascending (filter (λ stock, (change stock < 0)%Qc) sortedResults)) in
  (gainers, losers).

(** [nifty500Data.map(row => ...).filter(Boolean)]. *)
Definition market_symbols (reg : Registry) : list string :=
  filter (λ s, JsString.truthy s = true) (omap normalize_symbol (nifty500Data reg)).

Definition market_data (FORCE_CACHE_BYPASS : bool) (nseIndia : Provider)
    (reg : Registry) (forceRefresh : bool) (w : World) : Response * World :=
  let symbols := market_symbols reg in
  if bool_decide (length symbols = 0%nat) && negb SKIP_NIFTY500_VALIDATION then
    ({| status := 500; body := ErrorBody "No symbols loaded from NIFTY500.xlsx" |}, w)
  else
    let '((validResults, cached), w1) :=
      fetchEquityDetailsInBatches FORCE_CACHE_BYPASS nseIndia reg symbols BATCH_SIZE
        forceRefresh w in
    if bool_decide (length validResults = 0%nat) then
      ({| status := 500; body := ErrorBody "No valid market data retrieved" |}, w1)
    else
      let '(gainers, losers) := market_summary validResults in
      ({| status := 200; body := MarketBody gainers losers cached (now w1) |}, w1).

(** ** Industry aggregation: [GET /api/industry-data] *)

(** The per-industry accumulator of [industryMetrics]; [bucket] is its
    [stocks] array. *)
Record Metrics : Type :=
  { totalPChange : JsNumber.double; count : nat; bucket : list Quote }.

(** Lines 260-273: the de-duplicated list of all symbols and, per symbol,
    the industries listing it. *)
Definition limited (symbols : list string) : list string :=
  if (0 <? MAX_SYMBOLS_PER_INDUSTRY)%nat then take MAX_SYMBOLS_PER_INDUSTRY symbols
  else symbols.

Definition index_symbol (industry : string)
    (acc : list string * gmap string (list string)) (symbol : string)
  : list string * gmap string (list string) :=
  let '(allSymbols, symbolToIndustries) := acc in
  (if decide (symbol ∈ allSymbols) then allSymbols else allSymbols ++ [symbol],
   <[ symbol := default [] (symbolToIndustries !! symbol) ++ [industry] ]>
     symbolToIndustries).

Definition index_industries (data : list (string * list string))
  : list string * gmap string (list string) :=
  foldl (λ acc entry, foldl (index_symbol entry.1) acc (limited entry.2)) ([], ∅) data.

(** The second, cache-only pass of lines 278-288. *)
Fixpoint cached_pass (allSymbols : list string) (w : World) : list Quote * World :=
  match allSymbols with
  | [] => ([], w)
  | symbol :: rest =>
      let '(cached, w1) := cache_get symbol w in
      let '(cachedResults, w2) := cached_pass rest w1 in
      match cached with
      | Some e =>
          if fresh e w1 then (quote_of_entry symbol e :: cachedResults, w2)
          else (cachedResults, w2)
      | None => (cachedResults, w2)
      end
  end.

(** [{ totalPChange: 0, count: 0, stocks: [] }]. *)
Definition no_metrics : Metrics :=
  {| totalPChange := JsNumber.zero; count := 0; bucket := [] |}.

(** One step of the inner [forEach] of lines 306-321; the sum is a sum of
    doubles. *)
Definition add_stock (stock : Quote) (metrics : list (string * Metrics))
    (industry : string) : list (string * Metrics) :=
  let m := default no_metrics (assoc industry metrics) in
  assoc_set industry
    {| totalPChange := JsNumber.add (totalPChange m) (JsNumber.of_Qc (change stock));
       count := count m + 1;
       bucket := bucket m ++ [stock] |}
    metrics.

Definition collect_metrics (symbolToIndustries : gmap string (list string))
    (validResults : list Quote) : list (string * Metrics) :=
  foldl (λ metrics stock,
           foldl (add_stock stock) metrics
             (default ["N/A"] (symbolToIndustries !! symbol stock)))
        [] validResults.

(** The [map] callback of lines 325-339. *)
Definition summarize (entry : string * Metrics) : IndustryAggregate :=
  let '(name, m) := entry in
  let sortedStocks := js_sort descending (bucket m) in
  {| industry := name;
     avgPChange :=
       if (0 <? count m)%nat
       then JsNumber.double_toFixed2
              (JsNumber.div (totalPChange m) (JsNumber.of_Z (Z.of_nat (count m))))
       else Number 0%Qc;
     stockCount := count m;
     stocks := sortedStocks;
     topStock := head sortedStocks |}.

(** [(a, b) => parseFloat(b.avgPChange) - parseFloat(a.avgPChange)], up to
    a positive factor: the sort looks at the sign only.  An infinite
    difference is written 1 or -1; a NaN result (a NaN operand, or two
    infinities of the same sign) counts as zero for the sort. *)
Definition by_average (a b : IndustryAggregate) : Qc :=
  match JsNumber.parseFloat (avgPChange b), JsNumber.parseFloat (avgPChange a) with
  | JsNumber.Finite y, JsNumber.Finite x => (y - x)%Qc
  | JsNumber.Infinite false, JsNumber.Finite _
  | JsNumber.Infinite false, JsNumber.Infinite true
  | JsNumber.Finite _, JsNumber.Infinite true => 1%Qc
  | JsNumber.Infinite true, JsNumber.Finite _
  | JsNumber.Infinite true, JsNumber.Infinite false
  | JsNumber.Finite _, JsNumber.Infinite false => (-1)%Qc
  | _, _ => 0%Qc
  end.

(** Lines 302-342. *)
Definition aggregate (symbolToIndustries : gmap string (list string))
    (validResults : list Quote) : list IndustryAggregate :=
  let industryMetrics := collect_metrics symbolToIndustries validResults in
  let industries :=
    filter (λ ind, (0 < stockCount ind)%nat) (summarize <$> industryMetrics) in
  js_sort by_average industries.

(** Lines 260-291: the quotes the handler works with and its [cached] flag,
    after the fetch and, when that returned nothing, the cache-only pass. *)
Definition industry_quotes (FORCE_CACHE_BYPASS : bool) (nseIndia : Provider)
    (reg : Registry) (forceRefresh : bool) (w : World)
  : (list Quote * bool) * World :=
  let '(allSymbols, _) := index_industries (industryData reg) in
  let '((validResults, cached), w1) :=
    fetchEquityDetailsInBatches FORCE_CACHE_BYPASS nseIndia reg allSymbols BATCH_SIZE
      forceRefresh w in
  if bool_decide (length validResults = 0%nat) then
    let '(cachedResults, w2) := cached_pass allSymbols w1 in
    ((cachedResults, bool_decide (0 < length cachedResults)%nat), w2)
  else ((validResults, cached), w1).

Definition industry_data (FORCE_CACHE_BYPASS : bool) (nseIndia : Provider)
    (reg : Registry) (forceRefresh : bool) (w : World) : Response * World :=
  if bool_decide (length (industryData reg) = 0%nat) then
    ({| status := 200;
        body := IndustryBody [] false (now w) (Some "No industry data available") |}, w)
  else
    let '((validResults, cached), w1) :=
      industry_quotes FORCE_CACHE_BYPASS nseIndia reg forceRefresh w in
    if bool_decide (length validResults = 0%nat) then
      ({| status := 200;
          body := IndustryBody [] cached (now w1)
                    (Some "No valid industry data retrieved") |}, w1)
    else
      let symbolToIndustries := (index_industries (industryData reg)).2 in
      ({| status := 200;
          body := IndustryBody (aggregate symbolToIndustries validResults) cached
                    (now w1) None |}, w1).

(** ** Vocabulary of the statements *)

(** [a] is listed no later than [b] in a descending (ascending) ranking. *)
Definition not_below (a b : Quote) : Prop := (change b <= change a)%Qc.
Definition not_above (a b : Quote) : Prop := (change a <= change b)%Qc.

Definition negative (q : Quote) : Prop := (change q < 0)%Qc.

(** The freshness window in milliseconds and the age of a cache entry. *)
Definition TTL_ms : Z := 300 * 1000.
Definition age (e : CacheEntry) (w : World) : Z := now w - timestamp e.

(** What a settled call contributes to [batchResults]: the payload of a
    resolved promise, [null] for a rejected one. *)
Definition settled (o : ProviderOutcome) : option EquityDetails :=
  match o with Resolves result => result | _ => None end.

(** The call resolved with a payload whose [priceInfo] carries the numbers
    [p] and [l] as [pChange] and [lastPrice]. *)
Definition numeric_payload (o : ProviderOutcome) (p l : Qc) : Prop :=
  ∃ d pi, o = Resolves (Some d) ∧ raw_priceInfo d = Some pi
          ∧ raw_pChange pi = JNum p ∧ raw_lastPrice pi = JNum l.

(** The world after the calls for [batch] have been issued. *)
Definition after_requests (batch : list string) (w : World) : World :=
  foldl (λ w symbol, count_request symbol w) w batch.

Definition is_request (e : Event) : bool :=
  match e with EvRequest _ => true | _ => false end.

(** The console messages and timer waits of a trace, provider calls left
    out. *)
Definition console_and_timers (t : list Event) : list Event :=
  filter (λ e, is_request e = false) t.

Definition is_batch_error (e : Event) : bool :=
  match e with EvBatchError _ _ => true | _ => false end.

(** The number of failed attempts a trace reports. *)
Definition failed_attempts (t : list Event) : nat :=
  length (filter (λ e, is_batch_error e = true) t).

(** What the retry loop prints and waits for when each of [attempts]
    remaining attempts on the batch at position [index] throws. *)
Fixpoint exhaustion_log (index attempts : nat) : list Event :=
  match attempts with
  | O => []
  | S attempts' =>
      EvBatchError (index + 1) (MAX_RETRIES + 1 - attempts)
      :: (if (attempts' =? 0)%nat then [EvBatchSkipped (index + 1)]
          else EvSleep 1000 :: exhaustion_log index attempts')
  end.

(** The whole trace of these [attempts] failed attempts, the calls each of
    them issued before it threw ([calls]) included. *)
Fixpoint exhaustion_trace (index attempts : nat) (calls : list (list string))
  : list Event :=
  match attempts, calls with
  | S attempts', issued :: calls' =>
      (EvRequest <$> issued)
      ++ EvBatchError (index + 1) (MAX_RETRIES + 1 - attempts)
      :: (if (attempts' =? 0)%nat then [EvBatchSkipped (index + 1)]
          else EvSleep 1000 :: exhaustion_trace index attempts' calls')
  | _, _ => []
  end.

(** The trace of [rounds] attempts that throw at their first call, the one
    for [first], each followed by its console message and the wait of one
    second; [attempt] is the number the first of them prints. *)
Fixpoint failed_rounds (index : nat) (first : string) (attempt rounds : nat)
  : list Event :=
  match rounds with
  | O => []
  | S rounds' =>
      EvRequest first :: EvBatchError (index + 1) attempt :: EvSleep 1000
      :: failed_rounds index first (S attempt) rounds'
  end.

(** A quote with a given symbol and percentage change (in hundredths of a
    percent), for examples. *)
Definition sample_quote (sym : string) (hundredths_of_percent : Z) : Quote :=
  {| symbol := sym;
     priceInfo := {| pChange := cents hundredths_of_percent; lastPrice := cents 10000 |};
     info := {| companyName := sym |} |}.

(** The sum of the changes of a list of quotes, added up as doubles from
    the first to the last, and their mean: that sum divided, as a double, by
    their number. *)
Definition double_total (l : list Quote) : JsNumber.double :=
  foldl (λ acc q, JsNumber.add acc (JsNumber.of_Qc (change q))) JsNumber.zero l.

Definition double_mean (l : list Quote) : JsNumber.double :=
  JsNumber.div (double_total l) (JsNumber.of_Z (Z.of_nat (length l))).

(** The industries a quote is attributed to. *)
Definition industries_of (symbolToIndustries : gmap string (list string)) (q : Quote)
  : list string :=
  default ["N/A"] (symbolToIndustries !! symbol q).

(** The quotes attributed to the industry [name], in the order of the
    quotes, each as often as its symbol is listed under [name]. *)
Definition attributed (symbolToIndustries : gmap string (list string)) (name : string)
    (quotes : list Quote) : list Quote :=
  q ← quotes;
  (λ _, q) <$> filter (λ n, n = name) (industries_of symbolToIndustries q).

(** [n] is the integer nearest to [100 * x], the larger one on a tie. *)
Definition half : Qc := Q2Qc (1 # 2).

Definition nearest_hundredth (x : Qc) (n : Z) : Prop :=
  (JsNumber.Qc_of_Z n - half <= JsNumber.Qc_of_Z 100 * x)%Qc
  ∧ (JsNumber.Qc_of_Z 100 * x < JsNumber.Qc_of_Z n + half)%Qc.

(** The text [toFixed(2)] writes for the sign of [x] and [n] hundredths. *)
Definition two_decimals (x : Qc) (n : Z) : NumText :=
  Fixed ((if decide (x < 0)%Qc then "-" else "")
         +:+ JsNumber.point2 (JsNumber.pad3 (JsNumber.digits n))).

(** [t] is the decimal numeral of [n] hundredths with its sign: an optional
    minus sign, the digits of the integer part without a leading zero (the
    single digit 0 when that part is zero), a point and two digits. *)
Definition canonical_text (negative : bool) (n : Z) (t : NumText) : Prop :=
  ∃ ip fp i f,
    t = Fixed ((if negative then "-" else "") +:+ ip +:+ "." +:+ fp)
    ∧ String.length fp = 2%nat
    ∧ (ip = "0" ∨ ∀ r, ip ≠ String "0" r)
    ∧ NilZero.uint_of_string ip = Some i
    ∧ NilEmpty.uint_of_string fp = Some f
    ∧ Z.of_N (N.of_uint i) * 100 + Z.of_N (N.of_uint f) = n.

(** The accumulators built from the quotes [done] agree with them. *)
Definition metrics_sound (symbolToIndustries : gmap string (list string))
    (done : list Quote) (metrics : list (string * Metrics)) : Prop :=
  NoDup metrics.*1
  ∧ ∀ name m, (name, m) ∈ metrics →
      count m = length (bucket m)
      ∧ totalPChange m = double_total (bucket m)
      ∧ bucket m ≠ []
      ∧ ∀ q, q ∈ bucket m → q ∈ done ∧ name ∈ industries_of symbolToIndustries q.

(** Every bucket of [metrics] is still there, and no smaller, in [metrics']. *)
Definition metrics_grow (metrics metrics' : list (string * Metrics)) : Prop :=
  ∀ name m, assoc name metrics = Some m →
    ∃ m', assoc name metrics' = Some m' ∧ bucket m ⊆ bucket m'.

(** [stock] sits in the bucket of each of [names]. *)
Definition metrics_cover (stock : Quote) (names : list string)
    (metrics : list (string * Metrics)) : Prop :=
  ∀ name, name ∈ names → ∃ m, assoc name metrics = Some m ∧ stock ∈ bucket m.

(** The two responses that report missing data. *)
Definition registry_empty_error : Response :=
  {| status := 500; body := ErrorBody "No symbols loaded from NIFTY500.xlsx" |}.

Definition is_error (r : Response) : Prop := ∃ msg, body r = ErrorBody msg.

Definition is_empty_with_warning (r : Response) : Prop :=
  ∃ cached t msg, body r = IndustryBody [] cached t (Some msg).


(** *** Sample inputs *)

(** A payload with the given change (in hundredths of a percent). *)
Definition sample_payload (hundredths_of_percent : Z) : ProviderOutcome :=
  Resolves (Some {| raw_priceInfo :=
                      Some {| raw_pChange := JNum (cents hundredths_of_percent);
                              raw_lastPrice := JNum (cents 10000) |};
                    raw_info := Some {| raw_companyName := Some "Sample Ltd" |} |}).

(** A provider that answers every call. *)
Definition healthy_provider : Provider :=
  {| getEquityDetails := λ _ _, sample_payload 125; latency := λ _, 20%N |}.

(** A provider whose call for [PEL] throws, whose promise for [TCS] rejects
    and whose payload for [PFC] has a text where the change should be. *)
Definition flaky_provider : Provider :=
  {| getEquityDetails := λ _ s,
       if decide (s = "PEL") then Throws
       else if decide (s = "TCS") then Rejects
       else if decide (s = "PFC") then
         Resolves (Some {| raw_priceInfo :=
                             Some {| raw_pChange := JStr "1.25";
                                     raw_lastPrice := JNum (cents 10000) |};
                           raw_info := None |})
       else sample_payload 125;
     latency := λ _, 20%N |}.

(** A provider none of whose promises resolves. *)
Definition dead_provider : Provider :=
  {| getEquityDetails := λ _ _, Rejects; latency := λ _, 20%N |}.

(** A provider whose first two calls throw and which answers from then
    on. *)
Definition recovering_provider : Provider :=
  {| getEquityDetails := λ n _, if (n <? 2)%nat then Throws else sample_payload 125;
     latency := λ _, 20%N |}.

Definition fallback_registry : Registry := preloadExcelData ReadError initial_registry.

Definition sample_entry (hundredths_of_percent : Z) (at_ms : Z) : CacheEntry :=
  {| ce_pChange := cents hundredths_of_percent; ce_lastPrice := cents 10000;
     ce_companyName := "Sample Ltd"; timestamp := at_ms |}.

Definition empty_world : World :=
  {| cache := ∅; now := 1000000; requests := 0; trace := [] |}.

(** At time 1000000 the entry of [TCS] is 100 s old, that of [PFC] 400 s;
    the store has purged neither. *)
Definition warm_world : World :=
  {| cache := {[ "TCS" := (sample_entry 200 900000, 1200000);
                 "PFC" := (sample_entry (-300) 600000, 1500000) ]};
     now := 1000000; requests := 0; trace := [] |}.

(** The quotes and the symbol index of the aggregation example. *)
Definition tech_index : gmap string (list string) :=
  {[ "A" := ["Tech"]; "B" := ["Tech"] ]}.

Definition tech_quotes : list Quote := [sample_quote "A" 200; sample_quote "B" 400].

(** The quote [healthy_provider] and [flaky_provider] yield for a symbol
    they answer. *)
Definition sample_fetched (sym : string) : Quote :=
  {| symbol := sym;
     priceInfo := {| pChange := cents 125; lastPrice := cents 10000 |};
     info := {| companyName := "Sample Ltd" |} |}.

(** The aggregate the example produces. *)
Definition tech_aggregate : IndustryAggregate :=
  {| industry := "Tech";
     avgPChange := Fixed "3.00";
     stockCount := 2;
     stocks := [sample_quote "B" 400; sample_quote "A" 200];
     topStock := Some (sample_quote "B" 400) |}.

(** A registry loaded from three spreadsheet rows. *)
Definition sample_rows : list Row :=
  [ {| row_Symbol := Some "tcs.ns"; row_Industry := Some " IT " |};
    {| row_Symbol := Some "INFY"; row_Industry := Some "IT" |};
    {| row_Symbol := Some "RELIANCE"; row_Industry := None |} ].

Definition sample_registry : Registry :=
  preloadExcelData (ReadRows sample_rows) initial_registry.

(** ** Market hours: [isMarketOpen] *)

(** The local-time getters of [Date] for the epoch millisecond [t], on a
    host whose time zone keeps the fixed offset [tz] (milliseconds east of
    UTC); 1 January 1970 was a Thursday. *)
Definition getHours (tz t : Z) : Z := ((t + tz) / 3600000) mod 24.
Definition getMinutes (tz t : Z) : Z := ((t + tz) / 60000) mod 60.
Definition getDay (tz t : Z) : Z := ((t + tz) / 86400000 + 4) mod 7.

(** [5.5 * 60 * 60 * 1000]. *)
Definition istOffset : Z := 19800000.

(** Lines 39-53, at the time [t = Date.now()]; the console message is left
    out. *)
Definition isMarketOpen (tz t : Z) : bool :=
  let istTime := t + istOffset in
  let hours := getHours tz istTime in
  let minutes := getMinutes tz istTime in
  let day := getDay tz istTime in
  let isWeekday := (1 <=? day) && (day <=? 5) in
  isWeekday
  && (((9 <? hours) || ((hours =? 9) && (15 <=? minutes)))
      && ((hours <? 15) || ((hours =? 15) && (minutes <=? 30)))).

(** ** Vocabulary of the further statements *)

(** An industry index with distinct labels, each with a non-empty list of
    distinct symbols. *)
Definition index_wf (ind : list (string * list string)) : Prop :=
  NoDup ind.*1 ∧ ∀ name members, (name, members) ∈ ind → members ≠ [] ∧ NoDup members.

(** [symbol] is listed under [name] in the index. *)
Definition listed (ind : list (string * list string)) (name symbol : string) : Prop :=
  ∃ members, (name, members) ∈ ind ∧ symbol ∈ members.

(** The row contributes to the index: its normalised symbol is not empty. *)
Definition row_symbol (row : Row) : string := default "" (normalize_symbol row).

Definition usable (row : Row) : Prop := JsString.truthy (row_symbol row) = true.

(** The row carries a symbol under a label that names an inherited member. *)
Definition poisoned (row : Row) : Prop :=
  usable row ∧ normalize_industry row ∈ object_prototype_keys.

(** A sheet whose only usable row sits under the label [constructor]. *)
Definition poisoned_rows : list Row :=
  [ {| row_Symbol := Some "TCS"; row_Industry := Some "IT" |};
    {| row_Symbol := Some "INFY"; row_Industry := Some " constructor " |};
    {| row_Symbol := Some "WIPRO"; row_Industry := Some "IT" |} ].

(** The symbol list and the symbol index agree with the pairs [S] of a
    label and a symbol met so far. *)
Definition indexed (S : string → string → Prop)
    (acc : list string * gmap string (list string)) : Prop :=
  NoDup acc.1
  ∧ (∀ s, s ∈ acc.1 ↔ ∃ name, S name s)
  ∧ (∀ s, acc.2 !! s = None ↔ s ∉ acc.1)
  ∧ (∀ s inds, acc.2 !! s = Some inds → inds ≠ [] ∧ ∀ name, name ∈ inds ↔ S name s).

(** The industries of a response. *)
Definition response_industries (r : Response) : list IndustryAggregate :=
  match body r with
  | IndustryBody industries _ _ _ => industries
  | _ => []
  end.

(** The valid symbols of a call and, among them, those it must fetch: all of
    them when the cache is bypassed, the cache misses otherwise
    (lines 123-152). *)
Definition valid_symbols (reg : Registry) (symbols : list string) : list string :=
  filter (λ sym, valid_symbol reg sym = true) symbols.

Definition symbols_to_fetch (FORCE_CACHE_BYPASS : bool) (reg : Registry)
    (symbols : list string) (forceRefresh : bool) (w : World) : list string :=
  if negb forceRefresh && negb FORCE_CACHE_BYPASS
  then (cache_phase (valid_symbols reg symbols) w).1.2
  else valid_symbols reg symbols.

(** The trace of a run over the batches in which no attempt fails: the calls
    of each batch in order, and one wait between two batches. *)
Fixpoint batches_trace (batches : list (list string)) : list Event :=
  match batches with
  | [] => []
  | batch :: rest =>
      (EvRequest <$> batch)
      ++ match rest with
         | [] => []
         | _ => EvSleep BATCH_DELAY_MS :: batches_trace rest
         end
  end.

(** The cache entry a quote is stored as at time [t]. *)
Definition entry_of (q : Quote) (t : Z) : CacheEntry :=
  {| ce_pChange := pChange (priceInfo q);
     ce_lastPrice := lastPrice (priceInfo q);
     ce_companyName := companyName (info q);
     timestamp := t |}.

(** The store holds for [key] an entry stamped between [since] and now,
    kept for 300 seconds from its stamp. *)
Definition stamped_since (since : Z) (key : string) (w : World) : Prop :=
  ∃ e, cache w !! key = Some (e, timestamp e + TTL_ms)
       ∧ since ≤ timestamp e ≤ now w.

(** The number [parseFloat] reads back from [toFixed(2)] of [x]: [x] itself
    from the exponent notation of a magnitude of at least 10^21, and
    otherwise the hundredths nearest to the magnitude, with the sign of
    [x]. *)
Definition rounded (x : Qc) : Qc :=
  let m := JsNumber.magnitude x in
  if decide (JsNumber.Qc_of_Z (10 ^ 21) <= m)%Qc then x
  else
    let v := (JsNumber.Qc_of_Z (JsNumber.hundredths m) / JsNumber.Qc_of_Z 100)%Qc in
    if decide (x < 0)%Qc then (- v)%Qc else v.



(** * Properties *)

(** ** The primitives on sample values *)

Example normalize_symbol_samples :
  normalize_symbol <$> sample_rows = [Some "TCS"; Some "INFY"; Some "RELIANCE"]
  ∧ JsString.strip_NS (JsString.toUpperCase "x.ns.ns") = "X.NS"
  ∧ normalize_industry <$> sample_rows = ["IT"; "IT"; "Other"].
Proof. by vm_compute. Qed.

Example toFixed2_samples :
  JsNumber.toFixed2 (cents 300) = Fixed "3.00"
  ∧ JsNumber.toFixed2 (Q2Qc (1 # 3)) = Fixed "0.33"
  ∧ JsNumber.toFixed2 (Q2Qc (5 # 1000)) = Fixed "0.01"
  ∧ JsNumber.toFixed2 (Q2Qc (-1 # 1000)) = Fixed "-0.00"
  ∧ JsNumber.toFixed2 (Q2Qc (-12345678 # 1000)) = Fixed "-12345.68".
Proof. by vm_compute. Qed.

(** The doubles of 0.01, of 1/3 and of -1.25; the value of a double gives
    the double back, down to the least one and up to the greatest; 0.1 + 0.2
    is the double above 0.3, 0.01 + 0.02 the double below 0.03; the
    greatest double added to itself overflows. *)
Example double_samples :
  JsNumber.of_Qc (cents 1) = SpecFloat.S754_finite false 5764607523034235 (-59)
  ∧ JsNumber.of_Qc (Q2Qc (1 # 3)) = SpecFloat.S754_finite false 6004799503160661 (-54)
  ∧ JsNumber.of_Qc (cents (-125)) = SpecFloat.S754_finite true 5629499534213120 (-52)
  ∧ Forall (λ d, JsNumber.of_Qc (JsNumber.value d) = d)
      [ SpecFloat.S754_finite false 5764607523034235 (-59);
        SpecFloat.S754_finite false 1 (-1074);
        SpecFloat.S754_finite true 9007199254740991 971;
        SpecFloat.S754_finite false 4503599627370496 (-52) ]
  ∧ JsNumber.add (JsNumber.of_Qc (Q2Qc (1 # 10))) (JsNumber.of_Qc (Q2Qc (2 # 10)))
    = SpecFloat.S754_finite false 5404319552844596 (-54)
  ∧ JsNumber.add (JsNumber.of_Qc (cents 1)) (JsNumber.of_Qc (cents 2))
    = SpecFloat.S754_finite false 8646911284551352 (-58)
  ∧ (JsNumber.value (SpecFloat.S754_finite false 8646911284551352 (-58)) < cents 3)%Qc
  ∧ JsNumber.double_toFixed2
      (JsNumber.add (SpecFloat.S754_finite false 9007199254740991 971)
         (SpecFloat.S754_finite false 9007199254740991 971))
    = Fixed "Infinity"
  ∧ JsNumber.double_toFixed2 (SpecFloat.S754_zero true) = Fixed "0.00".
Proof. split_and!; try (by vm_compute). repeat constructor; by vm_compute. Qed.

Example sample_registry_loaded :
  industryData sample_registry = [("IT", ["TCS"; "INFY"]); ("Other", ["RELIANCE"])]
  ∧ market_symbols sample_registry = ["TCS"; "INFY"; "RELIANCE"]
  ∧ industryData fallback_registry = DEFAULT_INDUSTRY_DATA
  ∧ market_symbols fallback_registry = [].
Proof. by vm_compute. Qed.

(** An industry label that names an inherited member makes the loader fall
    back, keeping the symbols met so far. *)
Example inherited_label_falls_back :
  let r := preloadExcelData
             (ReadRows [ {| row_Symbol := Some "TCS"; row_Industry := Some "toString" |} ])
             initial_registry in
  industryData r = DEFAULT_INDUSTRY_DATA ∧ nifty500Data r = [] ∧ "TCS" ∈ allSymbolsSet r.
Proof.
  split_and!; [done..|]. vm_compute. reflexivity.
Qed.

(** ** The sort *)

Section SortFacts.

Context {A : Type}.
Variable cmp : A → A → Qc.

Lemma sort_insert_Permutation (x : A) (l : list A) :
  sort_insert cmp x l ≡ₚ x :: l.
Proof.
  induction l as [|y l IH]; simpl; [done|].
  case_decide; [|done].
  rewrite IH. apply Permutation_swap.
Qed.

Lemma js_sort_Permutation (l : list A) : js_sort cmp l ≡ₚ l.
Proof.
  induction l as [|x l IH]; simpl; [done|].
  by rewrite sort_insert_Permutation, IH.
Qed.

Lemma js_sort_elem_of (x : A) (l : list A) : x ∈ js_sort cmp l ↔ x ∈ l.
Proof. by rewrite js_sort_Permutation. Qed.

Lemma js_sort_length (l : list A) : length (js_sort cmp l) = length l.
Proof. by rewrite js_sort_Permutation. Qed.

(** When the comparator decides a transitive relation [R], the result is
    sorted for [R]. *)
Variable R : relation A.
Hypothesis R_trans : Transitive R.
Hypothesis cmp_le : ∀ x y, ¬ (0 < cmp x y)%Qc → R x y.
Hypothesis cmp_gt : ∀ x y, (0 < cmp x y)%Qc → R y x.

Lemma sort_insert_sorted (x : A) (l : list A) :
  StronglySorted R l → StronglySorted R (sort_insert cmp x l).
Proof.
  induction 1 as [|y l Hl IH Hy]; simpl.
  - repeat constructor.
  - case_decide as Hc.
    + constructor; [done|].
      rewrite sort_insert_Permutation. constructor; [by apply cmp_gt | done].
    + constructor; [by constructor|].
      constructor; [by apply cmp_le|].
      eapply Forall_impl; [exact Hy|].
      intros z Hz. etrans; [by apply cmp_le | done].
Qed.

Lemma js_sort_sorted (l : list A) : StronglySorted R (js_sort cmp l).
Proof.
  induction l as [|x l IH]; simpl; [constructor | by apply sort_insert_sorted].
Qed.

End SortFacts.

Lemma Qc_pos_sub (x y : Qc) : (0 < x - y)%Qc ↔ (y < x)%Qc.
Proof.
  unfold Qclt, Qcminus, Qcplus, Qcopp. simpl.
  rewrite !Qred_correct, (Qlt_minus_iff (this y) (this x)). reflexivity.
Qed.

Lemma js_sort_descending (l : list Quote) :
  StronglySorted not_below (js_sort descending l).
Proof.
  apply js_sort_sorted; unfold not_below, descending.
  - intros x y z Hxy Hyz. by etrans.
  - intros x y H. apply Qcnot_lt_le. by rewrite <- Qc_pos_sub.
  - intros x y H. apply Qclt_le_weak. by apply Qc_pos_sub.
Qed.

Lemma js_sort_ascending (l : list Quote) :
  StronglySorted not_above (js_sort ascending l).
Proof.
  apply js_sort_sorted; unfold not_above, ascending.
  - intros x y z Hxy Hyz. by etrans.
  - intros x y H. apply Qcnot_lt_le. by rewrite <- Qc_pos_sub.
  - intros x y H. apply Qclt_le_weak. by apply Qc_pos_sub.
Qed.

(** ** Market-wide summary *)

(** C4. The losers of the market-wide summary are quotes with a strictly
    negative change, in ascending order (most negative first), at most ten,
    and no negative quote left out lies below a listed one; the gainers are
    the first ten quotes of the descending ranking.  For the changes
    -5, -1, -8, +2 the first two losers are -8 and -5, and the positive quote
    is no loser. *)
Theorem market_summary_losers_gainers (validResults : list Quote) :
  let gainers := (market_summary validResults).1 in
  let losers := (market_summary validResults).2 in
  let example :=
    [sample_quote "P" (-500); sample_quote "Q" (-100);
     sample_quote "R" (-800); sample_quote "S" 200] in
  Forall negative losers
  ∧ StronglySorted not_above losers
  ∧ (length losers ≤ 10)%nat
  ∧ losers ⊆ validResults
  ∧ (∀ q l, q ∈ validResults → negative q → q ∉ losers → l ∈ losers →
       (change l <= change q)%Qc)
  ∧ gainers = take 10 (js_sort descending validResults)
  ∧ StronglySorted not_below (js_sort descending validResults)
  ∧ js_sort descending validResults ≡ₚ validResults
  ∧ (change <$> take 2 (market_summary example).2 = [cents (-800); cents (-500)]
     ∧ sample_quote "S" 200 ∉ (market_summary example).2).
Proof.
  intros gainers losers example. subst gainers losers. unfold market_summary; simpl.
  set (sorted := js_sort descending validResults).
  set (neg := filter (λ stock, (change stock < 0)%Qc) sorted).
  assert (Hsub : ∀ q, q ∈ js_sort ascending neg ↔ q ∈ validResults ∧ negative q).
  { intros q. rewrite js_sort_elem_of. subst neg sorted.
    rewrite list_elem_of_filter, js_sort_elem_of. unfold negative. tauto. }
  split_and!.
  - apply list.Forall_forall. intros q Hq.
    apply elem_of_take in Hq as (i & Hq & _).
    apply list_elem_of_lookup_2, Hsub in Hq. tauto.
  - eapply StronglySorted_app_1_l. rewrite take_drop. apply js_sort_ascending.
  - rewrite length_take. lia.
  - intros q Hq. apply elem_of_take in Hq as (i & Hq & _).
    apply list_elem_of_lookup_2, Hsub in Hq. tauto.
  - intros q l Hq Hneg Hout Hl.
    assert (Hin : q ∈ take 10 (js_sort ascending neg) ++ drop 10 (js_sort ascending neg)).
    { rewrite take_drop. by apply Hsub. }
    apply elem_of_app in Hin as [Hin|Hin]; [done|].
    apply (StronglySorted_app_1_elem_of not_above
             (take 10 (js_sort ascending neg)) (drop 10 (js_sort ascending neg))); [|done..].
    rewrite take_drop. apply js_sort_ascending.
  - done.
  - apply js_sort_descending.
  - apply js_sort_Permutation.
  - by vm_compute.
  - subst example. vm_compute. intros H.
    repeat (apply elem_of_cons in H as [H|H]; [discriminate H|]).
    by apply elem_of_nil in H.
Qed.

(** ** The fetcher: where the symbols of the quotes come from *)

Lemma cache_get_now (key : string) (w : World) : now (cache_get key w).2 = now w.
Proof. unfold cache_get. destruct (cache w !! key) as [[v t]|]; [case_match|]; done. Qed.

Lemma cache_phase_symbols (l : list string) (w : World) :
  (∀ q, q ∈ (cache_phase l w).1.1 → symbol q ∈ l)
  ∧ (cache_phase l w).1.2 ⊆ l.
Proof.
  revert w. induction l as [|s l IH]; intros w; simpl.
  - split; [intros q Hq; by apply elem_of_nil in Hq | done].
  - destruct (cache_get s w) as [cached w1].
    specialize (IH w1). destruct (cache_phase l w1) as [[hits un] w2]; simpl in IH.
    destruct IH as [IH1 IH2].
    destruct cached as [e|]; [destruct (fresh e w1)|]; simpl; split.
    all: try (intros q [->|Hq]%elem_of_cons; [by left | right; by apply IH1]).
    all: try (intros q Hq; right; by apply IH1).
    all: try (intros x [->|Hx]%elem_of_cons; [by left | right; by apply IH2]).
    all: intros x Hx; right; by apply IH2.
Qed.

Lemma slices_subseteq {A : Type} (fuel n : nat) (l : list A) :
  concat (slices fuel n l) ⊆ l.
Proof.
  revert l. induction fuel as [|fuel IH]; intros l; simpl; [set_solver|].
  destruct l as [|x l]; [set_solver|].
  simpl. intros y Hy. apply elem_of_app in Hy as [Hy|Hy].
  - by eapply subseteq_take.
  - apply IH in Hy. by eapply subseteq_drop.
Qed.

Section FetcherFacts.

Variable FORCE_CACHE_BYPASS : bool.
Variable nseIndia : Provider.

Lemma issue_requests_symbols (batch : list string) (w : World) r :
  (issue_requests nseIndia batch w).1 = Some r → r.*1 = batch.
Proof.
  revert w r. induction batch as [|s batch IH]; intros w r; simpl.
  - intros [= <-]. done.
  - destruct (getEquityDetails nseIndia (requests w) s); [done|..];
      destruct (issue_requests nseIndia batch (count_request s w)) as [r' w2] eqn:E;
      specialize (IH (count_request s w)); rewrite E in IH; simpl in *;
      (destruct r' as [r'|]; [|done]); intros [= <-]; simpl; f_equal; by apply IH.
Qed.

Lemma quote_of_result_symbol (s : string) (res : option EquityDetails) (q : Quote) :
  quote_of_result s res = Some q → symbol q = s.
Proof.
  unfold quote_of_result. repeat case_match; try done; by intros [= <-].
Qed.

Lemma try_batch_symbols (batch : list string) (w : World) (quotes : list Quote) :
  (try_batch nseIndia batch w).1 = Some quotes → ∀ q, q ∈ quotes → symbol q ∈ batch.
Proof.
  unfold try_batch.
  destruct (issue_requests nseIndia batch w) as [r w1] eqn:E.
  destruct r as [r|]; [|done]. simpl. intros [= <-] q Hq.
  apply list_elem_of_omap in Hq as ([s res] & Hin & Hq). simpl in Hq.
  apply quote_of_result_symbol in Hq. subst s.
  assert (Hr : r.*1 = batch) by (by eapply issue_requests_symbols; rewrite E).
  rewrite <- Hr. apply list_elem_of_fmap. by exists (symbol q, res).
Qed.

Lemma retry_batch_symbols (index : nat) (batch : list string) (attempts : nat)
    (w : World) :
  ∀ q, q ∈ (retry_batch nseIndia index batch attempts w).1 → symbol q ∈ batch.
Proof.
  revert w. induction attempts as [|n IH]; intros w q; simpl.
  - intros Hq. by apply elem_of_nil in Hq.
  - destruct (try_batch nseIndia batch w) as [[quotes|] w1] eqn:E.
    + simpl. intros Hq. eapply try_batch_symbols; [by rewrite E | done].
    + case_match; apply IH.
Qed.

Lemma fetch_batches_cons (index : nat) (b : list string) (rest : list (list string))
    (w : World) :
  fetch_batches nseIndia index (b :: rest) w =
    let r := retry_batch nseIndia index b MAX_RETRIES w in
    let r' := fetch_batches nseIndia (S index) rest (between_batches rest r.2) in
    (r.1 ++ r'.1, r'.2).
Proof.
  cbn [fetch_batches].
  destruct (retry_batch nseIndia index b MAX_RETRIES w) as [fetched w1].
  cbn [fst snd between_batches].
  by destruct (fetch_batches nseIndia (S index) rest (between_batches rest w1)).
Qed.

Lemma fetch_batches_symbols (index : nat) (batches : list (list string)) (w : World) :
  ∀ q, q ∈ (fetch_batches nseIndia index batches w).1 → symbol q ∈ concat batches.
Proof.
  revert index w. induction batches as [|b rest IH]; intros index w q.
  - intros Hq. by apply elem_of_nil in Hq.
  - rewrite fetch_batches_cons. cbn [fst snd concat].
    intros Hq. apply elem_of_app in Hq as [Hq|Hq]; apply elem_of_app.
    + left. by eapply retry_batch_symbols.
    + right. by eapply IH.
Qed.

(** C1. Every quote [fetchEquityDetailsInBatches] returns, whether served
    from the cache or freshly fetched, carries a symbol of the registry's
    [allSymbolsSet] (and one of the symbols asked for). *)
Theorem fetched_quotes_are_registered (reg : Registry) (symbols : list string)
    (batchSize : positive) (forceRefresh : bool) (w : World) (q : Quote) :
  q ∈ (fetchEquityDetailsInBatches FORCE_CACHE_BYPASS nseIndia reg symbols batchSize
         forceRefresh w).1.1 →
  symbol q ∈ allSymbolsSet reg ∧ symbol q ∈ symbols.
Proof.
  unfold fetchEquityDetailsInBatches.
  set (valid := filter (λ sym, valid_symbol reg sym = true) symbols).
  assert (Hvalid : ∀ s, s ∈ valid → s ∈ allSymbolsSet reg ∧ s ∈ symbols).
  { intros s Hs. apply list_elem_of_filter in Hs as [Hs ?]. split; [|done].
    unfold valid_symbol in Hs. apply andb_true_iff in Hs as [Hs _].
    by apply bool_decide_eq_true in Hs. }
  assert (Hphase :
    ∀ hits un w1,
      (if negb forceRefresh && negb FORCE_CACHE_BYPASS
       then cache_phase valid w else ([], valid, w)) = (hits, un, w1) →
      (∀ q, q ∈ hits → symbol q ∈ valid) ∧ un ⊆ valid).
  { intros hits un w1. case_match.
    - intros E. pose proof (cache_phase_symbols valid w) as Hcp. by rewrite E in Hcp.
    - intros [= <- <- <-]. split; [intros ? Hq; by apply elem_of_nil in Hq | done]. }
  destruct (if negb forceRefresh && negb FORCE_CACHE_BYPASS
            then cache_phase valid w else ([], valid, w)) as [[hits un] w1] eqn:E.
  destruct (Hphase _ _ _ eq_refl) as [Hhits Hun].
  destruct (fetch_batches nseIndia 0 (make_batches batchSize un) w1)
    as [fetched w2] eqn:E2.
  simpl. intros Hq. apply Hvalid.
  apply elem_of_app in Hq as [Hq|Hq]; [by apply Hhits|].
  apply Hun. unfold make_batches in E2.
  eapply slices_subseteq, fetch_batches_symbols. by rewrite E2.
Qed.

End FetcherFacts.

(** ** The result cache *)

Lemma cache_get_other (key k : string) (w : World) :
  k ≠ key → cache (cache_get key w).2 !! k = cache w !! k.
Proof.
  intros Hk. unfold cache_get.
  destruct (cache w !! key) as [[v t]|]; [case_match|]; simpl; try done.
  by rewrite lookup_delete_ne.
Qed.

Lemma cache_get_submap (key : string) (w : World) :
  cache (cache_get key w).2 ⊆ cache w.
Proof.
  unfold cache_get.
  destruct (cache w !! key) as [[v t]|]; [case_match|]; simpl; try done.
  apply delete_subseteq.
Qed.

Lemma cache_get_Some (key : string) (w : World) (e : CacheEntry) :
  (cache_get key w).1 = Some e →
  (cache_get key w).2 = w ∧ ∃ t, cache w !! key = Some (e, t) ∧ now w ≤ t.
Proof.
  unfold cache_get.
  destruct (cache w !! key) as [[v t]|]; [|done].
  case_match eqn:Ht; [done|]. simpl. intros [= ->]. split; [done|].
  exists t. split; [done|]. by apply Z.ltb_ge.
Qed.

Lemma fresh_age (e : CacheEntry) (w : World) : fresh e w = true ↔ age e w < TTL_ms.
Proof. unfold fresh, age, TTL_ms. rewrite Z.ltb_lt. lia. Qed.

Lemma cache_phase_now (l : list string) (w : World) : now (cache_phase l w).2 = now w.
Proof.
  revert w. induction l as [|s l IH]; intros w; simpl; [done|].
  destruct (cache_get s w) as [cached w1] eqn:E.
  specialize (IH w1). destruct (cache_phase l w1) as [[hits un] w2]. simpl in IH.
  assert (now w1 = now w) as <- by (by rewrite <- (cache_get_now s w), E).
  by destruct cached as [e|]; [destruct (fresh e w1)|].
Qed.

Lemma cache_phase_hits (l : list string) (w : World) (q : Quote) :
  q ∈ (cache_phase l w).1.1 →
  ∃ e t, cache w !! symbol q = Some (e, t)
         ∧ q = quote_of_entry (symbol q) e ∧ age e w < TTL_ms.
Proof.
  revert w. induction l as [|s l IH]; intros w; simpl.
  - intros Hq. by apply elem_of_nil in Hq.
  - destruct (cache_get s w) as [cached w1] eqn:E.
    specialize (IH w1). destruct (cache_phase l w1) as [[hits un] w2]. simpl in IH.
    assert (Hnow : now w1 = now w) by (by rewrite <- (cache_get_now s w), E).
    assert (Hsub : cache w1 ⊆ cache w).
    { pose proof (cache_get_submap s w) as Hs. by rewrite E in Hs. }
    assert (Htail : q ∈ hits →
      ∃ e t, cache w !! symbol q = Some (e, t)
             ∧ q = quote_of_entry (symbol q) e ∧ age e w < TTL_ms).
    { intros Hq. destruct (IH Hq) as (e & t & Hl & Hqe & Hage).
      exists e, t. split_and!; [|done|].
      - eapply lookup_weaken; done.
      - unfold age in *. by rewrite <- Hnow. }
    destruct cached as [e|]; [destruct (fresh e w1) eqn:Hf|]; simpl; try done.
    intros [->|Hq]%elem_of_cons; [|by apply Htail].
    pose proof (cache_get_Some s w e) as Hg. rewrite E in Hg. simpl in Hg.
    destruct (Hg eq_refl) as [-> (t & Hl & _)].
    exists e, t. split_and!; [done..|]. by apply fresh_age.
Qed.

Lemma cache_phase_stale (l : list string) (w : World) (s : string) (e : CacheEntry) t :
  s ∈ l → cache w !! s = Some (e, t) → TTL_ms ≤ age e w → s ∈ (cache_phase l w).1.2.
Proof.
  revert w. induction l as [|s' l IH]; intros w Hs Hl Hage; simpl.
  - by apply elem_of_nil in Hs.
  - destruct (cache_get s' w) as [cached w1] eqn:E.
    specialize (IH w1). destruct (cache_phase l w1) as [[hits un] w2]. simpl in IH.
    assert (Hnow : now w1 = now w) by (by rewrite <- (cache_get_now s' w), E).
    destruct (decide (s = s')) as [->|Hne].
    + destruct cached as [e'|]; [|simpl; by left].
      pose proof (cache_get_Some s' w e') as Hg. rewrite E in Hg. simpl in Hg.
      destruct (Hg eq_refl) as [-> (t' & Hl' & _)].
      rewrite Hl in Hl'. injection Hl' as <- <-.
      destruct (fresh e w) eqn:Hf; [|simpl; by left].
      apply fresh_age in Hf. lia.
    + apply elem_of_cons in Hs as [?|Hs]; [done|].
      assert (Hin : s ∈ un).
      { apply IH; [done| |by unfold age in *; rewrite Hnow].
        pose proof (cache_get_other s' s w Hne) as Ho. rewrite E in Ho.
        simpl in Ho. by rewrite Ho. }
      destruct cached as [e'|]; [destruct (fresh e' w1)|]; simpl; [done|by right..].
Qed.

Lemma slices_concat {A : Type} (fuel n : nat) (l : list A) :
  (0 < n)%nat → (length l ≤ fuel)%nat → concat (slices fuel n l) = l.
Proof.
  intros Hn. revert l. induction fuel as [|fuel IH]; intros l Hl.
  - destruct l; [done | simpl in Hl; lia].
  - destruct l as [|x l]; [done|].
    cbn [slices concat]. rewrite IH; [apply take_drop|].
    rewrite length_drop. simpl in *. lia.
Qed.

Lemma make_batches_concat {A : Type} (batchSize : positive) (l : list A) :
  concat (make_batches batchSize l) = l.
Proof. apply slices_concat; lia. Qed.

(** C5. In a call that consults the cache, the quotes served from it come
    first in the result, and each of them was built from a stored entry
    whose age [now - timestamp] is below the 300 second window.  A valid
    symbol whose stored entry has reached that age is served by no cached
    quote and is handed to the fetch path, although the store still holds
    the entry. *)
Theorem cache_served_quotes_are_fresh (nseIndia : Provider) (reg : Registry)
    (symbols : list string) (batchSize : positive) (w : World) :
  let validSymbols := filter (λ sym, valid_symbol reg sym = true) symbols in
  let served := (cache_phase validSymbols w).1.1 in
  let to_fetch := (cache_phase validSymbols w).1.2 in
  (fetchEquityDetailsInBatches false nseIndia reg symbols batchSize false w).1.1
    = served ++ (fetch_batches nseIndia 0 (make_batches batchSize to_fetch)
                   (cache_phase validSymbols w).2).1
  ∧ (∀ q, q ∈ served →
       ∃ e t, cache w !! symbol q = Some (e, t)
              ∧ q = quote_of_entry (symbol q) e
              ∧ now w - timestamp e < 300 * 1000)
  ∧ (∀ s e t, s ∈ validSymbols → cache w !! s = Some (e, t) →
       300 * 1000 ≤ now w - timestamp e →
       s ∈ concat (make_batches batchSize to_fetch)
       ∧ ∀ q, q ∈ served → symbol q ≠ s).
Proof.
  intros validSymbols served to_fetch. split_and!.
  - unfold fetchEquityDetailsInBatches. fold validSymbols. cbn [negb andb].
    subst served to_fetch.
    destruct (cache_phase validSymbols w) as [[hits un] w1]. cbn [fst snd].
    by destruct (fetch_batches nseIndia 0 (make_batches batchSize un) w1).
  - intros q Hq. by apply (cache_phase_hits validSymbols).
  - intros s e t Hs Hl Hage. split.
    + rewrite make_batches_concat. by eapply cache_phase_stale.
    + intros q Hq <-.
      apply cache_phase_hits in Hq as (e' & t' & Hl' & _ & Hage').
      rewrite Hl in Hl'. injection Hl' as <- <-. unfold age, TTL_ms in Hage'. lia.
Qed.

(** ** One attempt on a batch *)

Lemma after_requests_cache (batch : list string) (w : World) :
  cache (after_requests batch w) = cache w ∧ now (after_requests batch w) = now w
  ∧ requests (after_requests batch w) = (requests w + length batch)%nat
  ∧ trace (after_requests batch w) = trace w ++ (EvRequest <$> batch).
Proof.
  revert w. induction batch as [|s batch IH]; intros w; simpl.
  - by rewrite Nat.add_0_r, app_nil_r.
  - destruct (IH (count_request s w)) as (-> & -> & -> & ->). simpl.
    split_and!; [done..|lia|by rewrite <- app_assoc].
Qed.

Lemma quote_of_result_numeric (s : string) (o : ProviderOutcome) (q : Quote) :
  quote_of_result s (settled o) = Some q →
  symbol q = s ∧ numeric_payload o (pChange (priceInfo q)) (lastPrice (priceInfo q)).
Proof.
  destruct o as [| |[[[[[] []]|] i]|]]; simpl; try done.
  intros [= <-]. simpl. split; [done|]. by eexists _, _.
Qed.

Lemma numeric_payload_quote (s : string) (o : ProviderOutcome) (p l : Qc) :
  numeric_payload o p l →
  ∃ q, quote_of_result s (settled o) = Some q ∧ symbol q = s
       ∧ pChange (priceInfo q) = p ∧ lastPrice (priceInfo q) = l.
Proof.
  intros (d & pi & -> & Hpi & Hp & Hl). destruct d as [rp ri], pi as [vp vl].
  simpl in *. subst. simpl. by eexists.
Qed.

Lemma foldl_cache_quote_quiet (quotes : list Quote) (w : World) :
  now (foldl cache_quote w quotes) = now w
  ∧ requests (foldl cache_quote w quotes) = requests w
  ∧ trace (foldl cache_quote w quotes) = trace w.
Proof.
  revert w. induction quotes as [|q quotes IH]; intros w; [done|].
  simpl. by destruct (IH (cache_quote w q)) as (-> & -> & ->).
Qed.

Section AttemptFacts.

Variable nseIndia : Provider.

(** When no call throws, the call for the symbol at position [i] of the
    batch is the one issued after [requests w + i] earlier calls, and a
    rejected promise leaves [null] in its place. *)
Lemma issue_requests_settle (batch : list string) (w : World) :
  (∀ i s, batch !! i = Some s →
     getEquityDetails nseIndia (requests w + i) s ≠ Throws) →
  issue_requests nseIndia batch w =
    (Some (imap (λ i s, (s, settled (getEquityDetails nseIndia (requests w + i) s)))
             batch),
     after_requests batch w).
Proof.
  revert w. induction batch as [|s batch IH]; intros w Hok; [done|].
  cbn [issue_requests imap after_requests foldl].
  assert (Htail : ∀ i s', batch !! i = Some s' →
            getEquityDetails nseIndia (requests (count_request s w) + i) s' ≠ Throws).
  { intros i s' Hi. specialize (Hok (S i) s' Hi). simpl.
    by rewrite Nat.add_succ_r in Hok. }
  assert (Hhead : getEquityDetails nseIndia (requests w + 0) s ≠ Throws)
    by (by apply Hok).
  assert (Himap :
    imap ((λ i s', (s', settled (getEquityDetails nseIndia (requests w + i) s'))) ∘ S)
      batch
    = imap (λ i s', (s', settled (getEquityDetails nseIndia
                                    (requests (count_request s w) + i) s'))) batch).
  { apply imap_ext. intros i s' _. simpl. by rewrite Nat.add_succ_r. }
  rewrite (IH _ Htail), Himap. rewrite Nat.add_0_r in *.
  by destruct (getEquityDetails nseIndia (requests w) s).
Qed.

Lemma issue_requests_throw (batch : list string) (w : World) (s0 : string) :
  s0 ∈ batch → (∀ n, getEquityDetails nseIndia n s0 = Throws) →
  ∃ w', issue_requests nseIndia batch w = (None, w')
        ∧ cache w' = cache w ∧ now w' = now w
        ∧ console_and_timers (trace w') = console_and_timers (trace w).
Proof.
  intros Hin Hthrow. revert w.
  induction batch as [|s batch IH]; intros w; [by apply elem_of_nil in Hin|].
  cbn [issue_requests].
  assert (Hstep : console_and_timers (trace (count_request s w))
                  = console_and_timers (trace w)).
  { unfold console_and_timers. simpl. rewrite filter_app.
    rewrite filter_cons_False by done. by rewrite filter_nil, app_nil_r. }
  destruct (decide (s = s0)) as [->|Hne].
  - rewrite Hthrow. by eexists.
  - apply elem_of_cons in Hin as [?|Hin]; [done|].
    destruct (IH Hin (count_request s w)) as (w' & -> & Hc & Hn & Ht).
    destruct (getEquityDetails nseIndia (requests w) s); simpl;
      eexists; (split; [done|]); by rewrite ?Hc, ?Hn, ?Ht.
Qed.

Lemma try_batch_throw (batch : list string) (w : World) (s0 : string) :
  s0 ∈ batch → (∀ n, getEquityDetails nseIndia n s0 = Throws) →
  ∃ w', try_batch nseIndia batch w = (None, w')
        ∧ cache w' = cache w ∧ now w' = now w
        ∧ console_and_timers (trace w') = console_and_timers (trace w).
Proof.
  intros Hin Hthrow.
  destruct (issue_requests_throw batch w s0 Hin Hthrow) as (w' & E & H).
  exists w'. unfold try_batch. by rewrite E.
Qed.

(** An attempt that throws has issued the calls of the batch up to the one
    that threw, and at least that one. *)
Lemma issue_requests_throw_calls (batch : list string) (w : World) (s0 : string) :
  s0 ∈ batch → (∀ n, getEquityDetails nseIndia n s0 = Throws) →
  ∃ issued,
    issued ≠ [] ∧ issued `prefix_of` batch
    ∧ trace (issue_requests nseIndia batch w).2 = trace w ++ (EvRequest <$> issued)
    ∧ requests (issue_requests nseIndia batch w).2 = (requests w + length issued)%nat.
Proof.
  intros Hin Hthrow. revert w.
  induction batch as [|s batch IH]; intros w; [by apply elem_of_nil in Hin|].
  cbn [issue_requests].
  destruct (getEquityDetails nseIndia (requests w) s) eqn:Hcall.
  - exists [s]. split_and!; [done | by exists batch | done | simpl; lia].
  - assert (Hrest : s0 ∈ batch).
    { apply elem_of_cons in Hin as [->|?]; [|done]. by rewrite Hthrow in Hcall. }
    destruct (IH Hrest (count_request s w)) as (issued & Hne & [k ->] & Ht & Hr).
    exists (s :: issued).
    destruct (issue_requests nseIndia (issued ++ k) (count_request s w)) as [r' w'].
    cbn [snd] in *. split_and!; [done | by exists k | | ].
    + rewrite Ht. simpl. by rewrite <- app_assoc.
    + rewrite Hr. simpl. lia.
  - assert (Hrest : s0 ∈ batch).
    { apply elem_of_cons in Hin as [->|?]; [|done]. by rewrite Hthrow in Hcall. }
    destruct (IH Hrest (count_request s w)) as (issued & Hne & [k ->] & Ht & Hr).
    exists (s :: issued).
    destruct (issue_requests nseIndia (issued ++ k) (count_request s w)) as [r' w'].
    cbn [snd] in *. split_and!; [done | by exists k | | ].
    + rewrite Ht. simpl. by rewrite <- app_assoc.
    + rewrite Hr. simpl. lia.
Qed.

Lemma try_batch_throw_calls (batch : list string) (w : World) (s0 : string) :
  s0 ∈ batch → (∀ n, getEquityDetails nseIndia n s0 = Throws) →
  ∃ issued,
    issued ≠ [] ∧ issued `prefix_of` batch
    ∧ trace (try_batch nseIndia batch w).2 = trace w ++ (EvRequest <$> issued)
    ∧ requests (try_batch nseIndia batch w).2 = (requests w + length issued)%nat.
Proof.
  intros Hin Hthrow.
  destruct (issue_requests_throw batch w s0 Hin Hthrow) as (w' & E & _).
  destruct (issue_requests_throw_calls batch w s0 Hin Hthrow) as (issued & H).
  exists issued. unfold try_batch. by rewrite E in *.
Qed.

(** An attempt whose first call throws has issued that call only. *)
Lemma try_batch_first_throws (first : string) (batch : list string) (w : World) :
  getEquityDetails nseIndia (requests w) first = Throws →
  try_batch nseIndia (first :: batch) w = (None, count_request first w).
Proof. intros Hcall. unfold try_batch. cbn [issue_requests]. by rewrite Hcall. Qed.

(** An attempt none of whose calls throws. *)
Lemma try_batch_settle (batch : list string) (w : World) :
  (∀ i s, batch !! i = Some s →
     getEquityDetails nseIndia (requests w + i) s ≠ Throws) →
  let quotes :=
    omap (λ sr, quote_of_result sr.1 sr.2)
      (imap (λ i s, (s, settled (getEquityDetails nseIndia (requests w + i) s))) batch) in
  (try_batch nseIndia batch w).1 = Some quotes
  ∧ trace (try_batch nseIndia batch w).2 = trace w ++ (EvRequest <$> batch)
  ∧ requests (try_batch nseIndia batch w).2 = (requests w + length batch)%nat
  ∧ now (try_batch nseIndia batch w).2
    = now w + Z.of_N (latency nseIndia (requests w + length batch)).
Proof.
  intros Hok quotes. unfold try_batch. rewrite (issue_requests_settle batch w Hok).
  fold quotes. cbn [fst snd].
  destruct (foldl_cache_quote_quiet quotes
              (elapse (Z.of_N (latency nseIndia (requests (after_requests batch w))))
                 (after_requests batch w))) as (-> & -> & ->).
  destruct (after_requests_cache batch w) as (_ & Hn & Hr & Ht).
  simpl. by rewrite Hn, Hr, Ht.
Qed.

End AttemptFacts.

(** ** Partial failures inside a batch *)

(** C6. When no call of a batch throws, the attempt succeeds at once, however
    many of its promises reject or resolve with a malformed payload: every
    position of the batch whose call resolves with numeric [pChange] and
    [lastPrice] yields a quote carrying those numbers, and every quote of the
    batch stems from such a position; so a failing symbol costs no other
    symbol its quote. *)
Theorem batch_partial_failure_isolated (nseIndia : Provider) (index : nat)
    (batch : list string) (w : World) :
  (∀ i s, batch !! i = Some s →
     getEquityDetails nseIndia (requests w + i) s ≠ Throws) →
  ∃ quotes,
    (try_batch nseIndia batch w).1 = Some quotes
    ∧ retry_batch nseIndia index batch MAX_RETRIES w
      = (quotes, (try_batch nseIndia batch w).2)
    ∧ (∀ i s p l, batch !! i = Some s →
         numeric_payload (getEquityDetails nseIndia (requests w + i) s) p l →
         ∃ q, q ∈ quotes ∧ symbol q = s
              ∧ pChange (priceInfo q) = p ∧ lastPrice (priceInfo q) = l)
    ∧ (∀ q, q ∈ quotes →
         ∃ i, batch !! i = Some (symbol q)
              ∧ numeric_payload (getEquityDetails nseIndia (requests w + i) (symbol q))
                  (pChange (priceInfo q)) (lastPrice (priceInfo q))).
Proof.
  intros Hok.
  pose proof (issue_requests_settle nseIndia batch w Hok) as Hissue.
  set (answers := imap (λ i s,
         (s, settled (getEquityDetails nseIndia (requests w + i) s))) batch) in *.
  set (quotes := omap (λ sr, quote_of_result sr.1 sr.2) answers).
  assert (Htry : try_batch nseIndia batch w
                 = (Some quotes,
                    foldl cache_quote
                      (elapse (Z.of_N (latency nseIndia
                                 (requests (after_requests batch w))))
                         (after_requests batch w)) quotes)).
  { unfold try_batch. by rewrite Hissue. }
  exists quotes. split_and!.
  - by rewrite Htry.
  - unfold MAX_RETRIES. cbn [retry_batch]. by rewrite Htry.
  - intros i s p l Hi Hnum.
    destruct (numeric_payload_quote s _ p l Hnum) as (q & Hq & Hs & Hp & Hl).
    exists q. split; [|done].
    apply list_elem_of_omap.
    exists (s, settled (getEquityDetails nseIndia (requests w + i) s)).
    split; [|done]. subst answers.
    by apply (elem_of_lookup_imap_2 (λ i s,
      (s, settled (getEquityDetails nseIndia (requests w + i) s)))).
  - intros q Hq. apply list_elem_of_omap in Hq as ([s r] & Hin & Hq).
    subst answers. apply elem_of_lookup_imap_1 in Hin as (i & s' & [= -> ->] & Hi).
    simpl in Hq. apply quote_of_result_numeric in Hq as [<- Hnum].
    by exists i.
Qed.

(** ** A batch whose fetch step throws *)

Section RetryFacts.

Variable nseIndia : Provider.

Lemma retry_batch_exhausted (index : nat) (batch : list string) (s0 : string)
    (attempts : nat) (w : World) :
  s0 ∈ batch → (∀ n, getEquityDetails nseIndia n s0 = Throws) →
  let r := retry_batch nseIndia index batch attempts w in
  r.1 = [] ∧ cache r.2 = cache w
  ∧ now r.2 = now w + 1000 * Z.of_nat (attempts - 1)
  ∧ console_and_timers (trace r.2)
    = console_and_timers (trace w) ++ exhaustion_log index attempts.
Proof.
  intros Hin Hthrow. revert w. induction attempts as [|n IH]; intros w.
  - simpl. split_and!; [done..|lia|by rewrite app_nil_r].
  - cbn [retry_batch exhaustion_log].
    destruct (try_batch_throw nseIndia batch w s0 Hin Hthrow)
      as (w1 & -> & Hc & Hn & Ht).
    destruct n as [|n].
    + simpl. split_and!; [done..|lia|].
      unfold console_and_timers in *. rewrite !filter_app, Ht.
      by rewrite <- app_assoc.
    + cbn [Nat.eqb].
      match goal with
      | |- context [retry_batch _ _ _ _ ?w'] => destruct (IH w') as (H1 & H2 & H3 & H4)
      end.
      cbn zeta. rewrite H1, H2, H3, H4. simpl cache. simpl now.
      split_and!; [done..|lia|].
      unfold console_and_timers in *. simpl trace. rewrite !filter_app, Ht.
      by rewrite <- !app_assoc.
Qed.

(** Whatever the provider does, the loop reports at most [MAX_RETRIES]
    failed attempts on a batch. *)
Lemma failed_attempts_snoc (e : Event) (t : list Event) :
  failed_attempts (t ++ [e])
  = (failed_attempts t + if is_batch_error e then 1 else 0)%nat.
Proof.
  unfold failed_attempts. rewrite filter_app, length_app. f_equal.
  destruct (is_batch_error e) eqn:He.
  - by rewrite filter_cons_True.
  - rewrite filter_cons_False; [done|]. by rewrite He.
Qed.

Lemma issue_requests_failed (batch : list string) (w : World) :
  failed_attempts (trace (issue_requests nseIndia batch w).2)
  = failed_attempts (trace w).
Proof.
  revert w. induction batch as [|s b IH]; intros w; [done|]. cbn [issue_requests].
  assert (Hs : failed_attempts (trace (count_request s w)) = failed_attempts (trace w)).
  { simpl. rewrite failed_attempts_snoc. simpl. lia. }
  destruct (getEquityDetails nseIndia (requests w) s); [done|..];
    specialize (IH (count_request s w));
    destruct (issue_requests nseIndia b (count_request s w)); simpl in *; lia.
Qed.

Lemma try_batch_failed (batch : list string) (w : World) :
  failed_attempts (trace (try_batch nseIndia batch w).2) = failed_attempts (trace w).
Proof.
  assert (Hcache : ∀ qs w0, trace (foldl cache_quote w0 qs) = trace w0).
  { induction qs as [|q qs IHq]; intros w0; [done|]. simpl. by rewrite IHq. }
  unfold try_batch. pose proof (issue_requests_failed batch w) as Hissue.
  destruct (issue_requests nseIndia batch w) as [[r|] w1]; simpl in *; [|done].
  by rewrite Hcache.
Qed.

Lemma retry_batch_attempts_bounded (index : nat) (batch : list string)
    (attempts : nat) (w : World) :
  (failed_attempts (trace (retry_batch nseIndia index batch attempts w).2)
   ≤ failed_attempts (trace w) + attempts)%nat.
Proof.
  revert w. induction attempts as [|n IH]; intros w; [simpl; lia|].
  cbn [retry_batch]. pose proof (try_batch_failed batch w) as Htry.
  destruct (try_batch nseIndia batch w) as [[quotes|] w1]; simpl in *; [lia|].
  case_match; (etrans; [apply IH|]); simpl; rewrite !failed_attempts_snoc; simpl; lia.
Qed.

(** With a symbol whose call always throws, the loop over the batches
    returns quotes only from batches that do not hold it. *)
Lemma fetch_batches_skip (s0 : string) (index : nat) (batches : list (list string))
    (w : World) (q : Quote) :
  (∀ n, getEquityDetails nseIndia n s0 = Throws) →
  q ∈ (fetch_batches nseIndia index batches w).1 →
  ∃ b, b ∈ batches ∧ symbol q ∈ b ∧ s0 ∉ b.
Proof.
  intros Hthrow. revert index w.
  induction batches as [|b rest IH]; intros index w.
  - intros Hq. by apply elem_of_nil in Hq.
  - rewrite fetch_batches_cons. cbn [fst snd].
    intros [Hq|Hq]%elem_of_app.
    + exists b. split; [by left|]. split; [by eapply retry_batch_symbols|].
      intros Hin.
      destruct (retry_batch_exhausted index b s0 MAX_RETRIES w Hin Hthrow) as [Hnil _].
      rewrite Hnil in Hq. by apply elem_of_nil in Hq.
    + destruct (IH _ _ Hq) as (b' & Hb' & Hsym & Hs0). exists b'.
      split; [by right | done].
Qed.

(** Each attempt on a batch whose fetch step always throws calls the
    provider. *)
Lemma retry_batch_exhausted_calls (index : nat) (batch : list string) (s0 : string)
    (attempts : nat) (w : World) :
  s0 ∈ batch → (∀ n, getEquityDetails nseIndia n s0 = Throws) →
  ∃ calls,
    length calls = attempts
    ∧ Forall (λ issued, issued ≠ [] ∧ issued `prefix_of` batch) calls
    ∧ trace (retry_batch nseIndia index batch attempts w).2
      = trace w ++ exhaustion_trace index attempts calls
    ∧ requests (retry_batch nseIndia index batch attempts w).2
      = (requests w + length (concat calls))%nat.
Proof.
  intros Hin Hthrow. revert w. induction attempts as [|n IH]; intros w.
  - exists []. simpl. split_and!; [done | done | by rewrite app_nil_r | lia].
  - cbn [retry_batch].
    destruct (try_batch_throw nseIndia batch w s0 Hin Hthrow) as (w1 & E & _).
    destruct (try_batch_throw_calls nseIndia batch w s0 Hin Hthrow)
      as (issued & Hne & Hpre & Ht & Hr).
    rewrite E in *. cbn [snd] in *.
    assert (Hnext : ∀ w2 log,
              trace w2 = trace w1 ++ EvBatchError (index + 1) (MAX_RETRIES + 1 - S n) :: log →
              requests w2 = requests w1 →
              (if (n =? 0)%nat then log = [EvBatchSkipped (index + 1)]
               else log = [EvSleep 1000]) →
              ∃ calls,
                length calls = S n
                ∧ Forall (λ issued, issued ≠ [] ∧ issued `prefix_of` batch) calls
                ∧ trace (retry_batch nseIndia index batch n w2).2
                  = trace w ++ exhaustion_trace index (S n) calls
                ∧ requests (retry_batch nseIndia index batch n w2).2
                  = (requests w + length (concat calls))%nat).
    { intros w2 log Hw2 Hrq Hlog.
      destruct (IH w2) as (calls & Hlen & Hall & Htr & Hreq).
      exists (issued :: calls). split_and!.
      - simpl. by rewrite Hlen.
      - by constructor.
      - rewrite Htr, Hw2, Ht. cbn [exhaustion_trace]. rewrite <- !app_assoc.
        f_equal. f_equal. simpl. f_equal.
        destruct n as [|n']; simpl in Hlog; subst log; [by destruct calls | reflexivity].
      - rewrite Hreq, Hrq, Hr. simpl. rewrite length_app. lia. }
    destruct n as [|n']; cbn [Nat.eqb].
    + apply (Hnext _ [EvBatchSkipped (index + 1)]); [|done..].
      simpl. by rewrite <- app_assoc.
    + apply (Hnext _ [EvSleep 1000]); [|done..].
      simpl. by rewrite <- app_assoc.
Qed.

(** A batch whose fetch step throws at first and no more after [k] failed
    attempts is fetched by the attempt that follows them. *)
Lemma retry_batch_recovers (recovering : Provider) (index : nat) (first : string)
    (batch : list string) (k attempts : nat) (w : World) :
  (k < attempts ≤ MAX_RETRIES)%nat → head batch = Some first →
  (∀ n s, (n < requests w + k)%nat → getEquityDetails recovering n s = Throws) →
  (∀ n s, (requests w + k ≤ n)%nat → getEquityDetails recovering n s ≠ Throws) →
  let r := retry_batch recovering index batch attempts w in
  r.1 = omap (λ sr, quote_of_result sr.1 sr.2)
          (imap (λ i s, (s, settled (getEquityDetails recovering (requests w + k + i) s)))
             batch)
  ∧ trace r.2
    = trace w ++ failed_rounds index first (MAX_RETRIES + 1 - attempts) k
      ++ (EvRequest <$> batch)
  ∧ requests r.2 = (requests w + k + length batch)%nat
  ∧ now r.2
    = now w + 1000 * Z.of_nat k
      + Z.of_N (latency recovering (requests w + k + length batch)).
Proof.
  intros Hk Hfirst. destruct batch as [|s b]; [done|]. injection Hfirst as ->.
  revert attempts w Hk. induction k as [|k IH]; intros attempts w Hk Hthrows Hanswers.
  - destruct attempts as [|n]; [lia|]. cbn [retry_batch].
    destruct (try_batch_settle recovering (first :: b) w) as (H1 & H2 & H3 & H4).
    { intros i s _. apply Hanswers. lia. }
    destruct (try_batch recovering (first :: b) w) as [o w1].
    cbn [fst snd] in *. subst o. cbv zeta. cbn [fst snd]. rewrite !Nat.add_0_r.
    split_and!; [done | done | done | rewrite H4; lia].
  - destruct attempts as [|n]; [lia|]. cbn [retry_batch].
    rewrite (try_batch_first_throws recovering first b w) by (apply Hthrows; lia).
    destruct n as [|n]; [lia|]. cbn [Nat.eqb].
    set (w' := sleep 1000
                 (emit (EvBatchError (index + 1) (MAX_RETRIES + 1 - S (S n)))
                    (count_request first w))).
    assert (Hr' : requests w' = S (requests w)) by done.
    assert (Hn' : now w' = now w + 1000) by done.
    assert (Ht' : trace w'
                  = trace w ++ [EvRequest first;
                                EvBatchError (index + 1) (MAX_RETRIES + 1 - S (S n));
                                EvSleep 1000])
      by (simpl; by rewrite <- !app_assoc).
    destruct (IH (S n) w') as (H1 & H2 & H3 & H4).
    + lia.
    + intros m s Hm. apply Hthrows. rewrite Hr' in Hm. lia.
    + intros m s Hm. apply Hanswers. rewrite Hr' in Hm. lia.
    + clearbody w'. cbv zeta. rewrite H1, H2, H3, H4, Hr', Hn', Ht'.
      replace (S (requests w) + k)%nat with (requests w + S k)%nat by lia.
      split_and!; [done | | done | lia].
      cbn [failed_rounds]. rewrite <- !app_assoc. simpl.
      replace (5 - n)%nat with (S (4 - n))%nat by (unfold MAX_RETRIES in *; lia).
      done.
Qed.

(** C2. When the fetch step of a batch throws on every attempt, the batch
    is attempted [MAX_RETRIES] = 5 times in all, with a wait of one second
    before each new attempt, and each attempt calls the provider afresh, for
    the symbols of the batch up to the one whose call throws; it is then
    given up: it yields no quote, the cache is left as it was, the loop
    neither throws nor stops, and the call goes on with the batches that
    follow, whose quotes are all it returns.  When the fetch step stops
    throwing after [k] failed attempts, fewer than 5, the attempt that
    follows them fetches the batch: its quotes are returned after [k] waits
    of one second, and the batch is not given up. *)
Theorem failing_batch_retried_then_abandoned (index : nat) (batch : list string)
    (rest : list (list string)) (s0 : string) (w : World) :
  s0 ∈ batch → (∀ n, getEquityDetails nseIndia n s0 = Throws) →
  let r := retry_batch nseIndia index batch MAX_RETRIES w in
  r.1 = []
  ∧ cache r.2 = cache w
  ∧ now r.2 = now w + 4 * 1000
  ∧ console_and_timers (trace r.2)
    = console_and_timers (trace w)
      ++ [ EvBatchError (index + 1) 1; EvSleep 1000;
           EvBatchError (index + 1) 2; EvSleep 1000;
           EvBatchError (index + 1) 3; EvSleep 1000;
           EvBatchError (index + 1) 4; EvSleep 1000;
           EvBatchError (index + 1) 5; EvBatchSkipped (index + 1) ]
  ∧ fetch_batches nseIndia index (batch :: rest) w
    = fetch_batches nseIndia (S index) rest (between_batches rest r.2)
  ∧ (∀ q, q ∈ (fetch_batches nseIndia index (batch :: rest) w).1 →
       ∃ b, b ∈ rest ∧ symbol q ∈ b ∧ s0 ∉ b)
  ∧ (∃ calls,
       length calls = MAX_RETRIES
       ∧ Forall (λ issued, issued ≠ [] ∧ issued `prefix_of` batch) calls
       ∧ trace r.2 = trace w ++ exhaustion_trace index MAX_RETRIES calls
       ∧ requests r.2 = (requests w + length (concat calls))%nat)
  ∧ (∀ (recovering : Provider) (k : nat) (first : string),
       (k < MAX_RETRIES)%nat → head batch = Some first →
       (∀ n s, (n < requests w + k)%nat → getEquityDetails recovering n s = Throws) →
       (∀ n s, (requests w + k ≤ n)%nat → getEquityDetails recovering n s ≠ Throws) →
       let r' := retry_batch recovering index batch MAX_RETRIES w in
       r'.1 = omap (λ sr, quote_of_result sr.1 sr.2)
                (imap (λ i s, (s, settled (getEquityDetails recovering
                                             (requests w + k + i) s))) batch)
       ∧ trace r'.2
         = trace w ++ failed_rounds index first 1 k ++ (EvRequest <$> batch)
       ∧ requests r'.2 = (requests w + k + length batch)%nat
       ∧ now r'.2
         = now w + 1000 * Z.of_nat k
           + Z.of_N (latency recovering (requests w + k + length batch))).
Proof.
  intros Hin Hthrow r.
  destruct (retry_batch_exhausted index batch s0 MAX_RETRIES w Hin Hthrow)
    as (H1 & H2 & H3 & H4).
  fold r in H1, H2, H3, H4.
  assert (Hnext : fetch_batches nseIndia index (batch :: rest) w
                  = fetch_batches nseIndia (S index) rest (between_batches rest r.2)).
  { rewrite fetch_batches_cons. fold r. cbn zeta. rewrite H1.
    by destruct (fetch_batches nseIndia (S index) rest (between_batches rest r.2)). }
  split_and!; [done..|exact H4|exact Hnext| | |].
  - intros q. rewrite Hnext. by apply fetch_batches_skip.
  - apply (retry_batch_exhausted_calls index batch s0 MAX_RETRIES w Hin Hthrow).
  - intros recovering k first Hk Hfirst Hthrows Hanswers.
    apply (retry_batch_recovers recovering index first batch k MAX_RETRIES w);
      [lia | done..].
Qed.

End RetryFacts.

(** ** Registry fallback *)

Lemma default_symbols_nonempty : "TIMKEN" ∈ default_symbols.
Proof. vm_compute. apply list_elem_of_here. Qed.

Lemma preload_without_rows (src : ReadOutcome) (r : Registry) :
  src = ReadError ∨ src = ReadRows [] →
  preloadExcelData src r =
    {| nifty500Data := []; industryData := DEFAULT_INDUSTRY_DATA;
       allSymbolsSet := list_to_set default_symbols ∪ allSymbolsSet r |}.
Proof. by intros [-> | ->]. Qed.

Lemma fallback_symbols (syms : gset string) (s : string) :
  s ∈ default_symbols → s ∈ (list_to_set default_symbols ∪ syms : gset string).
Proof. intros Hs. apply elem_of_union_l. by apply elem_of_list_to_set. Qed.

Lemma fallback_symbols_nonempty (syms : gset string) :
  (list_to_set default_symbols ∪ syms : gset string) ≠ ∅.
Proof.
  intros Hempty. pose proof (fallback_symbols syms _ default_symbols_nonempty) as Hin.
  rewrite Hempty in Hin. by apply not_elem_of_empty in Hin.
Qed.

(** C8. When the spreadsheet yields no row, or reading it fails, the loaded
    industry index is the built-in default mapping, which is not empty, and
    [allSymbolsSet] holds every symbol of that mapping, hence is not empty;
    the loader returns a registry in either case. *)
Theorem registry_falls_back_to_default (src : ReadOutcome) (r : Registry) :
  src = ReadError ∨ src = ReadRows [] →
  industryData (preloadExcelData src r) = DEFAULT_INDUSTRY_DATA
  ∧ industryData (preloadExcelData src r) ≠ []
  ∧ (∀ s, s ∈ default_symbols → s ∈ allSymbolsSet (preloadExcelData src r))
  ∧ allSymbolsSet (preloadExcelData src r) ≠ ∅.
Proof.
  intros Hsrc. rewrite (preload_without_rows src r Hsrc).
  cbn [industryData allSymbolsSet]. split_and!; [done..| |].
  - apply fallback_symbols.
  - apply fallback_symbols_nonempty.
Qed.

Lemma index_default_symbols :
  (index_industries DEFAULT_INDUSTRY_DATA).1 = default_symbols.
Proof. by vm_compute. Qed.

Lemma default_symbols_not_blank :
  Forall (λ s, JsString.truthy (JsString.trim s) = true) default_symbols.
Proof. vm_compute. repeat constructor. Qed.

Lemma filter_all {A : Type} (P : A → Prop) `{!∀ x, Decision (P x)} (l : list A) :
  Forall P l → filter P l = l.
Proof.
  induction 1 as [|x l Hx Hl IH]; [done|].
  rewrite filter_cons_True by done. by rewrite IH.
Qed.

(** C9, amended.  After a read failure the fallback leaves a non-empty
    industry index and symbol set, and the industry endpoint asks the
    fetcher for the fallback symbols, all of which pass its registry filter;
    the market-wide endpoint takes its symbols from the spreadsheet rows,
    which the failure leaves empty, and answers with the registry-empty 500
    error without touching the provider or the cache. *)
Theorem market_data_ignores_fallback (FORCE_CACHE_BYPASS : bool) (nseIndia : Provider)
    (r : Registry) (forceRefresh : bool) (w : World) :
  let reg := preloadExcelData ReadError r in
  industryData reg ≠ []
  ∧ allSymbolsSet reg ≠ ∅
  ∧ (index_industries (industryData reg)).1 = default_symbols
  ∧ filter (λ sym, valid_symbol reg sym = true) default_symbols = default_symbols
  ∧ market_data FORCE_CACHE_BYPASS nseIndia reg forceRefresh w
    = (registry_empty_error, w).
Proof.
  intros reg. subst reg.
  rewrite (preload_without_rows ReadError r (or_introl eq_refl)).
  cbn [industryData allSymbolsSet]. split_and!.
  - done.
  - apply fallback_symbols_nonempty.
  - apply index_default_symbols.
  - apply filter_all. apply list.Forall_forall. intros s Hs.
    unfold valid_symbol. apply andb_true_iff. split.
    + apply bool_decide_eq_true. by apply fallback_symbols.
    + pose proof default_symbols_not_blank as Hnb.
      rewrite list.Forall_forall in Hnb. by apply Hnb.
  - done.
Qed.

(** The claim of C9 as it was stated fails: with a provider that answers
    every call, the registry recovered from a read failure still makes the
    market-wide endpoint answer with the registry-empty 500 error. *)
Lemma market_data_after_fallback_is_registry_error :
  (market_data false healthy_provider fallback_registry false empty_world).1
  = registry_empty_error
  ∧ allSymbolsSet fallback_registry ≠ ∅.
Proof.
  split; [done|]. apply fallback_symbols_nonempty.
Qed.

(** ** Empty results at the two endpoints *)

(** C7. When the fetcher returns no quote for the spreadsheet symbols, the
    market-wide endpoint answers 500 with an error body; when the industry
    endpoint is left without a quote after its fetch and its cache-only
    pass, it answers 200 with an empty industry list and a warning. *)
Theorem empty_results_500_versus_200 (FORCE_CACHE_BYPASS : bool) (nseIndia : Provider)
    (reg : Registry) (forceRefresh : bool) (w : World) :
  ((fetchEquityDetailsInBatches FORCE_CACHE_BYPASS nseIndia reg (market_symbols reg)
      BATCH_SIZE forceRefresh w).1.1 = [] →
   let response := (market_data FORCE_CACHE_BYPASS nseIndia reg forceRefresh w).1 in
   status response = 500%nat ∧ is_error response)
  ∧ ((industry_quotes FORCE_CACHE_BYPASS nseIndia reg forceRefresh w).1.1 = [] →
     let response := (industry_data FORCE_CACHE_BYPASS nseIndia reg forceRefresh w).1 in
     status response = 200%nat ∧ is_empty_with_warning response).
Proof.
  split.
  - intros Hempty. unfold market_data.
    case_match; [by split; [|eexists]|].
    destruct (fetchEquityDetailsInBatches _ _ _ _ _ _ _) as [[validResults cached] w1].
    simpl in Hempty. subst validResults. simpl. by split; [|eexists].
  - intros Hempty. unfold industry_data.
    case_match; [by split; [|eexists _, _, _]|].
    destruct (industry_quotes _ _ _ _ _) as [[validResults cached] w1].
    simpl in Hempty. subst validResults. simpl. by split; [|eexists _, _, _].
Qed.

(** ** The cache-only pass of the industry endpoint *)

Lemma cached_pass_cache_phase (l : list string) (w : World) :
  cached_pass l w = ((cache_phase l w).1.1, (cache_phase l w).2).
Proof.
  revert w. induction l as [|s l IH]; intros w; [done|]. simpl.
  destruct (cache_get s w) as [cached w1]. rewrite IH.
  destruct (cache_phase l w1) as [[hits un] w2]. simpl.
  by destruct cached as [e|]; [destruct (fresh e w1)|].
Qed.


(** *** The store never drops a fresh entry *)





Section CoherenceFacts.

Variable FORCE_CACHE_BYPASS : bool.
Variable nseIndia : Provider.

Lemma issue_requests_cache (batch : list string) (w : World) :
  cache (issue_requests nseIndia batch w).2 = cache w.
Proof.
  revert w. induction batch as [|s batch IH]; intros w; [done|]. cbn [issue_requests].
  destruct (getEquityDetails nseIndia (requests w) s); [done|..];
    specialize (IH (count_request s w));
    by destruct (issue_requests nseIndia batch (count_request s w)).
Qed.





End CoherenceFacts.


(** ** Industry aggregation *)

Lemma hundredths_nearest (x : Qc) : nearest_hundredth x (JsNumber.hundredths x).
Proof.
  unfold nearest_hundredth, JsNumber.hundredths, half, JsNumber.Qc_of_Z.
  destruct x as [[num den] Hc]. cbn [this Qnum Qden].
  set (n := (200 * num + Z.pos den) / (2 * Z.pos den)).
  assert (Hlo : 2 * Z.pos den * n <= 200 * num + Z.pos den)
    by (apply Z.mul_div_le; lia).
  assert (Hhi : 200 * num + Z.pos den < 2 * Z.pos den * n + 2 * Z.pos den).
  { pose proof (Z.mul_succ_div_gt (200 * num + Z.pos den) (2 * Z.pos den)) as H. lia. }
  unfold Qcle, Qclt, Qcminus, Qcplus, Qcopp, Qcmult, Q2Qc. cbn [this].
  rewrite !Qred_correct.
  unfold Qle, Qlt, Qplus, Qopp, Qmult, inject_Z. cbn [Qnum Qden].
  split; lia.
Qed.

(** Below 10^21 [toFixed(2)] writes the hundredths nearest to the magnitude. *)
Lemma toFixed2_rounds (x : Qc) :
  (JsNumber.magnitude x < JsNumber.Qc_of_Z (10 ^ 21))%Qc →
  ∃ n, JsNumber.toFixed2 x = two_decimals x n
       ∧ nearest_hundredth (JsNumber.magnitude x) n.
Proof.
  intros Hsmall. exists (JsNumber.hundredths (JsNumber.magnitude x)).
  split; [|apply hundredths_nearest].
  unfold JsNumber.toFixed2, two_decimals.
  destruct (decide (JsNumber.Qc_of_Z (10 ^ 21) <= JsNumber.magnitude x)%Qc) as [Hbig|];
    [|done].
  by apply Qcle_not_lt in Hbig.
Qed.

Lemma double_total_snoc (l : list Quote) (q : Quote) :
  double_total (l ++ [q])
  = JsNumber.add (double_total l) (JsNumber.of_Qc (change q)).
Proof. unfold double_total. by rewrite foldl_snoc. Qed.

(** *** Decimal numerals *)

Lemma string_length_app (a b : string) :
  String.length (a +:+ b) = (String.length a + String.length b)%nat.
Proof. induction a as [|c a IH]; simpl; [done | by rewrite IH]. Qed.

Lemma substring_app_l (a b : string) : String.substring 0 (String.length a) (a +:+ b) = a.
Proof.
  induction a as [|c a IH]; simpl; [by destruct b | by rewrite IH].
Qed.

Lemma substring_app_r (a b : string) (k m : nat) :
  String.substring (String.length a + k) m (a +:+ b) = String.substring k m b.
Proof. induction a as [|c a IH]; simpl; [done | by rewrite IH]. Qed.

Lemma substring_all (b : string) : String.substring 0 (String.length b) b = b.
Proof. induction b as [|c b IH]; simpl; [done | by rewrite IH]. Qed.

Lemma string_of_uint_length (u : Decimal.uint) :
  String.length (NilEmpty.string_of_uint u) = Decimal.nb_digits u.
Proof. induction u; simpl; by f_equal. Qed.

Lemma nat_digits_string_of_uint (u : Decimal.uint) :
  JsNumber.nat_digits (NilEmpty.string_of_uint u) = Some (Z.of_N (N.of_uint u)).
Proof.
  unfold JsNumber.nat_digits.
  destruct (NilEmpty.string_of_uint u) as [|c s] eqn:E.
  - by destruct u.
  - by rewrite <- E, NilEmpty.usu.
Qed.

Lemma of_uint_head (u : Decimal.uint) :
  N.of_uint u
  = (DecimalPos.Unsigned.hd u * 10 ^ N.of_nat (Decimal.nb_digits (DecimalPos.Unsigned.tl u))
     + N.of_uint (DecimalPos.Unsigned.tl u))%N.
Proof.
  assert (Hsize : ∀ v, DecimalPos.Unsigned.usize v = N.of_nat (Decimal.nb_digits v)).
  { induction v; simpl; rewrite ?IHv; lia. }
  unfold N.of_uint. rewrite !DecimalPos.Unsigned.of_uint_alt.
  destruct u; [done|..]; unfold Decimal.rev at 1; simpl Decimal.revapp;
    rewrite DecimalPos.Unsigned.of_lu_revapp, Hsize; simpl; lia.
Qed.

(** A numeral of at least two digits splits into its last two digits and
    the digits before them. *)
Local Ltac split_last2 D u IH :=
  let H1 := fresh "H1" in
  intros Hlen; simpl in Hlen;
  destruct (decide (Decimal.nb_digits u = 1%nat)) as [H1|H1];
  [ exists Decimal.Nil, (D u); split_and!; [reflexivity | simpl; lia | simpl; lia | done]
  | let hi := fresh "hi" in
    let lo := fresh "lo" in
    let Hs := fresh "Hs" in
    let Hlo := fresh "Hlo" in
    let Hn := fresh "Hn" in
    let Hv := fresh "Hv" in
    destruct IH as (hi & lo & Hs & Hlo & Hn & Hv); [lia|];
    exists (D hi), lo; split_and!;
    [ simpl; by rewrite Hs | done | simpl; lia
    | rewrite (of_uint_head (D u)), (of_uint_head (D hi)); simpl DecimalPos.Unsigned.hd;
      simpl DecimalPos.Unsigned.tl; rewrite Hv, Hn, Nat2N.inj_add, N.pow_add_r;
      change (10 ^ N.of_nat 2)%N with 100%N; lia ] ].

Lemma uint_split_last2 (u : Decimal.uint) :
  (2 ≤ Decimal.nb_digits u)%nat →
  ∃ hi lo,
    NilEmpty.string_of_uint u = NilEmpty.string_of_uint hi +:+ NilEmpty.string_of_uint lo
    ∧ Decimal.nb_digits lo = 2%nat
    ∧ Decimal.nb_digits u = (Decimal.nb_digits hi + 2)%nat
    ∧ N.of_uint u = (N.of_uint hi * 100 + N.of_uint lo)%N.
Proof.
  induction u as [|u IH|u IH|u IH|u IH|u IH|u IH|u IH|u IH|u IH|u IH].
  - simpl. lia.
  - split_last2 Decimal.D0 u IH.
  - split_last2 Decimal.D1 u IH.
  - split_last2 Decimal.D2 u IH.
  - split_last2 Decimal.D3 u IH.
  - split_last2 Decimal.D4 u IH.
  - split_last2 Decimal.D5 u IH.
  - split_last2 Decimal.D6 u IH.
  - split_last2 Decimal.D7 u IH.
  - split_last2 Decimal.D8 u IH.
  - split_last2 Decimal.D9 u IH.
Qed.

Lemma index_point_after_digits (u : Decimal.uint) (b : string) :
  String.index 0 "." (NilEmpty.string_of_uint u +:+ String "." b)
  = Some (Decimal.nb_digits u).
Proof.
  induction u; simpl; rewrite ?IHu; [by destruct b | done..].
Qed.

Lemma split_point_numeral (hi : Decimal.uint) (b : string) :
  JsNumber.split_point (NilEmpty.string_of_uint hi +:+ "." +:+ b)
  = (NilEmpty.string_of_uint hi, b).
Proof.
  unfold JsNumber.split_point. change ("." +:+ b) with (String "." b).
  rewrite index_point_after_digits, <- string_of_uint_length.
  rewrite substring_app_l. f_equal.
  rewrite string_length_app. cbn [String.length].
  replace (S (String.length (NilEmpty.string_of_uint hi)))
    with (String.length (NilEmpty.string_of_uint hi) + 1)%nat by lia.
  rewrite substring_app_r. cbn [String.substring].
  replace (String.length (NilEmpty.string_of_uint hi) + S (String.length b)
           - (String.length (NilEmpty.string_of_uint hi) + 1))%nat
    with (String.length b) by lia.
  apply substring_all.
Qed.

Lemma point2_numeral (a b : string) :
  String.length b = 2%nat → JsNumber.point2 (a +:+ b) = a +:+ "." +:+ b.
Proof.
  intros Hb. unfold JsNumber.point2. rewrite string_length_app, Hb.
  replace (String.length a + 2 - 2)%nat with (String.length a) by lia.
  rewrite substring_app_l. do 2 f_equal.
  rewrite <- (Nat.add_0_r (String.length a)), substring_app_r, <- Hb.
  apply substring_all.
Qed.

Lemma Qc_of_Z_hundreds (a b : Z) :
  (JsNumber.Qc_of_Z a + JsNumber.Qc_of_Z b / JsNumber.Qc_of_Z (10 ^ Z.of_nat 2))%Qc
  = (JsNumber.Qc_of_Z (a * 100 + b) / JsNumber.Qc_of_Z 100)%Qc.
Proof.
  change (10 ^ Z.of_nat 2) with 100.
  assert (H100 : JsNumber.Qc_of_Z 100 ≠ 0%Qc) by (by vm_compute).
  assert (Hsum : JsNumber.Qc_of_Z (a * 100 + b)
                 = (JsNumber.Qc_of_Z a * JsNumber.Qc_of_Z 100 + JsNumber.Qc_of_Z b)%Qc).
  { unfold JsNumber.Qc_of_Z. apply Qc_is_canon. unfold Qcplus, Qcmult, Q2Qc. cbn [this].
    rewrite !Qred_correct. unfold Qeq, Qplus, Qmult, inject_Z. cbn [Qnum Qden]. lia. }
  rewrite Hsum. by field.
Qed.

(** The value of the numeral [hi.lo] with two fraction digits. *)
Lemma unsigned_value_numeral (hi lo : Decimal.uint) :
  Decimal.nb_digits lo = 2%nat →
  JsNumber.unsigned_value
    (NilEmpty.string_of_uint hi +:+ "." +:+ NilEmpty.string_of_uint lo)
  = Some (JsNumber.Qc_of_Z (Z.of_N (N.of_uint hi * 100 + N.of_uint lo))
          / JsNumber.Qc_of_Z 100)%Qc.
Proof.
  intros Hlo. unfold JsNumber.unsigned_value. rewrite split_point_numeral.
  pose proof (string_of_uint_length lo) as Hlen. rewrite Hlo in Hlen.
  pose proof (nat_digits_string_of_uint hi) as Hhi.
  pose proof (nat_digits_string_of_uint lo) as Hl.
  destruct (NilEmpty.string_of_uint lo) as [|c b] eqn:Eb; [done|].
  assert (Hval : (i ← JsNumber.nat_digits (NilEmpty.string_of_uint hi);
                  f ← JsNumber.nat_digits (String c b);
                  Some (JsNumber.Qc_of_Z i
                        + JsNumber.Qc_of_Z f
                          / JsNumber.Qc_of_Z (10 ^ Z.of_nat (String.length (String c b))))%Qc)
                 = Some (JsNumber.Qc_of_Z (Z.of_N (N.of_uint hi * 100 + N.of_uint lo))
                         / JsNumber.Qc_of_Z 100)%Qc).
  { rewrite Hhi, Hl, Hlen. cbn [mbind option_bind]. rewrite Qc_of_Z_hundreds.
    do 3 f_equal. lia. }
  by destruct (NilEmpty.string_of_uint hi).
Qed.

(** The numeral of a number has no leading zero. *)
Lemma to_uint_no_leading_zero (m : N) (v : Decimal.uint) :
  N.to_uint m = Decimal.D0 v → v = Decimal.Nil.
Proof.
  intros E. pose proof (DecimalN.Unsigned.to_of (N.to_uint m)) as H.
  rewrite DecimalN.Unsigned.of_to, E in H. unfold Decimal.unorm in H.
  cbn [Decimal.nzhead] in H.
  pose proof (DecimalFacts.nzhead_nonzero v) as Hnz.
  destruct (Decimal.nzhead v) eqn:Ev; try discriminate H.
  - by injection H.
  - by destruct (Hnz u).
Qed.

(** The padded numeral has at least three digits, and begins with a zero
    only when it has exactly three. *)
Lemma pad3_digits (n : Z) :
  0 ≤ n →
  ∃ u, JsNumber.pad3 (JsNumber.digits n) = NilEmpty.string_of_uint u
       ∧ (3 ≤ Decimal.nb_digits u)%nat
       ∧ Z.of_N (N.of_uint u) = n
       ∧ (∀ v, u = Decimal.D0 v → Decimal.nb_digits u = 3%nat).
Proof.
  intros Hn. unfold JsNumber.digits.
  pose proof (DecimalN.Unsigned.of_to (Z.to_N n)) as Hval.
  pose proof (to_uint_no_leading_zero (Z.to_N n)) as Hlead.
  set (u := N.to_uint (Z.to_N n)) in *.
  assert (H0 : ∃ u0, NilZero.string_of_uint u = NilEmpty.string_of_uint u0
                     ∧ N.of_uint u0 = N.of_uint u
                     ∧ ∀ v, u0 = Decimal.D0 v → v = Decimal.Nil).
  { destruct u; [exists (Decimal.D0 Decimal.Nil); split_and!; [done..|congruence]
                | by eexists..]. }
  destruct H0 as (u0 & -> & Hu0 & Hu0lead). rewrite Hval in Hu0.
  unfold JsNumber.pad3. rewrite string_of_uint_length.
  destruct (Decimal.nb_digits u0) as [|[|[|k]]] eqn:Hk.
  - exists (Decimal.D0 (Decimal.D0 (Decimal.D0 u0))). simpl. rewrite Hk.
    split_and!; [done | lia | change (Z.of_N (N.of_uint u0) = n); lia | done].
  - exists (Decimal.D0 (Decimal.D0 u0)). simpl. rewrite Hk.
    split_and!; [done | lia | change (Z.of_N (N.of_uint u0) = n); lia | done].
  - exists (Decimal.D0 u0). simpl. rewrite Hk.
    split_and!; [done | lia | change (Z.of_N (N.of_uint u0) = n); lia | done].
  - exists u0. rewrite Hk. split_and!; [done | lia | lia |].
    intros v ->. rewrite (Hu0lead v eq_refl) in Hk. simpl in Hk. lia.
Qed.

Lemma magnitude_nonneg (x : Qc) : (0 <= JsNumber.magnitude x)%Qc.
Proof.
  unfold JsNumber.magnitude. case_decide as Hx.
  - unfold Qcle, Qclt, Qcopp, Q2Qc in *. cbn [this] in *. rewrite !Qred_correct.
    unfold Qle, Qlt, Qopp in *. simpl in *. lia.
  - by apply Qcnot_lt_le.
Qed.

Lemma hundredths_nonneg (x : Qc) : (0 <= x)%Qc → 0 ≤ JsNumber.hundredths x.
Proof.
  intros Hx. unfold JsNumber.hundredths. unfold Qcle, Qle in Hx. simpl in Hx.
  apply Z.div_pos; lia.
Qed.

Lemma parseFloat_unsigned (body : string) :
  (∀ r, body ≠ String "-" r) → (∀ r, body ≠ String "I" r) →
  JsNumber.parseFloat (Fixed body)
  = from_option JsNumber.Finite JsNumber.NotANumber (JsNumber.unsigned_value body).
Proof.
  intros Hminus Hinf. unfold JsNumber.parseFloat.
  destruct (String.eqb_spec body "Infinity") as [->|_]; [by destruct (Hinf "nfinity")|].
  destruct (String.eqb_spec body "-Infinity") as [->|_]; [by destruct (Hminus "Infinity")|].
  destruct body as [|c r]; [done|].
  destruct (decide (c = "-"%char)) as [->|Hc]; [by destruct (Hminus r)|].
  destruct c as [[] [] [] [] [] [] [] []]; done.
Qed.

Lemma parseFloat_negative (body : string) :
  (∀ r, body ≠ String "I" r) →
  JsNumber.parseFloat (Fixed (String "-" body))
  = from_option (λ x, JsNumber.Finite (- x)) JsNumber.NotANumber
      (JsNumber.unsigned_value body).
Proof.
  intros Hinf. unfold JsNumber.parseFloat.
  destruct (String.eqb_spec (String "-" body) "Infinity") as [[=]|_].
  destruct (String.eqb_spec (String "-" body) "-Infinity") as [[= ->]|_]; [|done].
  by destruct (Hinf "nfinity").
Qed.

(** Reading back what [toFixed(2)] wrote gives the rounded number. *)
Lemma parseFloat_toFixed2 (x : Qc) :
  JsNumber.parseFloat (JsNumber.toFixed2 x) = JsNumber.Finite (rounded x).
Proof.
  unfold JsNumber.toFixed2, rounded. cbv zeta.
  destruct (decide (JsNumber.Qc_of_Z (10 ^ 21) <= JsNumber.magnitude x)%Qc)
    as [|Hsmall]; [done|].
  set (n := JsNumber.hundredths (JsNumber.magnitude x)).
  assert (Hn : 0 ≤ n) by apply hundredths_nonneg, magnitude_nonneg.
  destruct (pad3_digits n Hn) as (u & -> & Hlen & Hval & _).
  destruct (uint_split_last2 u) as (hi & lo & -> & Hlo & Hhi & Hv); [lia|].
  rewrite point2_numeral by (by rewrite string_of_uint_length).
  pose proof (unsigned_value_numeral hi lo Hlo) as Hparse.
  rewrite <- Hv, Hval in Hparse.
  assert (Hdigit : ∀ c r, NilEmpty.string_of_uint hi +:+ "." +:+ NilEmpty.string_of_uint lo
                          = String c r → c ≠ "I"%char ∧ c ≠ "-"%char).
  { intros c r. destruct hi; [simpl in Hhi; lia|..]; by intros [= <- _]. }
  destruct (decide (x < 0)%Qc) as [Hneg|Hpos].
  - change ("-" +:+ ?s) with (String "-" s).
    rewrite parseFloat_negative, Hparse; [done|].
    intros r Hr. by destruct (Hdigit _ _ Hr).
  - change ("" +:+ ?s) with s.
    rewrite parseFloat_unsigned, Hparse; [done|..];
      intros r Hr; by destruct (Hdigit _ _ Hr).
Qed.

(** Below 10^21 [toFixed(2)] writes the decimal numeral of the hundredths
    nearest to the magnitude. *)
Lemma toFixed2_canonical (x : Qc) :
  (JsNumber.magnitude x < JsNumber.Qc_of_Z (10 ^ 21))%Qc →
  canonical_text (bool_decide (x < 0)%Qc) (JsNumber.hundredths (JsNumber.magnitude x))
    (JsNumber.toFixed2 x).
Proof.
  intros Hsmall. unfold JsNumber.toFixed2. cbv zeta.
  rewrite decide_False by (by apply Qclt_not_le).
  set (n := JsNumber.hundredths (JsNumber.magnitude x)).
  assert (Hn : 0 ≤ n) by apply hundredths_nonneg, magnitude_nonneg.
  destruct (pad3_digits n Hn) as (u & -> & Hlen & Hval & Hlead).
  destruct (uint_split_last2 u) as (hi & lo & Hs & Hlo & Hhi & Hv); [lia|].
  rewrite Hs, point2_numeral by (by rewrite string_of_uint_length).
  exists (NilEmpty.string_of_uint hi), (NilEmpty.string_of_uint lo), hi, lo.
  assert (Hhi1 : hi ≠ Decimal.Nil) by (intros ->; simpl in Hhi; lia).
  split_and!.
  - destruct (decide (x < 0)%Qc);
      [by rewrite bool_decide_eq_true_2 | by rewrite bool_decide_eq_false_2].
  - by rewrite string_of_uint_length.
  - assert (Hcase : (∃ v, u = Decimal.D0 v) ∨ ¬ ∃ v, u = Decimal.D0 v)
      by (destruct u; (by left; eexists) || (right; by intros [? ?])).
    destruct Hcase as [[v ->]|Hnot].
    + left. pose proof (Hlead v eq_refl) as H3. rewrite H3 in Hhi.
      destruct hi as [|h|h|h|h|h|h|h|h|h|h]; try done;
        simpl in Hs; try discriminate Hs.
      destruct h; [done | simpl in Hhi; lia..].
    + right. intros r Hr. apply Hnot. rewrite Hr in Hs.
      destruct u; try discriminate Hs. by eexists.
  - unfold NilZero.uint_of_string.
    destruct (NilEmpty.string_of_uint hi) eqn:E; [by destruct hi|].
    by rewrite <- E, NilEmpty.usu.
  - apply NilEmpty.usu.
  - lia.
Qed.



(** *** Objects used as maps *)

Section AssocFacts.

Context {V : Type}.
Implicit Types (m : list (string * V)) (k : string) (v : V).

Lemma assoc_assoc_set k k' v m :
  assoc k' (assoc_set k v m) = if decide (k' = k) then Some v else assoc k' m.
Proof.
  induction m as [|[k0 v0] m IH]; simpl.
  - by repeat case_decide.
  - repeat (case_decide; simpl; subst); try done.
Qed.

Lemma assoc_elem_of k v m : assoc k m = Some v → (k, v) ∈ m.
Proof.
  induction m as [|[k0 v0] m IH]; simpl; [done|].
  case_decide; [intros [= ->]; subst; by left | intros H'; right; by apply IH].
Qed.

Lemma elem_of_assoc k v m : NoDup m.*1 → (k, v) ∈ m → assoc k m = Some v.
Proof.
  induction m as [|[k0 v0] m IH]; simpl; intros Hnd Hin.
  - by apply elem_of_nil in Hin.
  - apply NoDup_cons in Hnd as [Hk0 Hnd].
    apply elem_of_cons in Hin as [[= -> ->]|Hin]; [by rewrite decide_True|].
    rewrite decide_False; [by apply IH|].
    intros ->. apply Hk0. apply list_elem_of_fmap. by exists (k0, v).
Qed.

Lemma elem_of_assoc_set k v m x : x ∈ assoc_set k v m → x = (k, v) ∨ x ∈ m.
Proof.
  induction m as [|[k0 v0] m IH]; simpl.
  - intros ->%list_elem_of_singleton. by left.
  - case_decide.
    + intros [->|Hx]%elem_of_cons; [by left | right; by right].
    + intros [->|Hx]%elem_of_cons; [right; by left|].
      destruct (IH Hx) as [->|?]; [by left | right; by right].
Qed.

Lemma assoc_set_keys k v m key :
  key ∈ (assoc_set k v m).*1 ↔ key = k ∨ key ∈ m.*1.
Proof.
  induction m as [|[k0 v0] m IH]; simpl.
  - rewrite list_elem_of_singleton, elem_of_nil. tauto.
  - case_decide; simpl; subst; rewrite !elem_of_cons; [|rewrite IH]; tauto.
Qed.

Lemma NoDup_assoc_set k v m : NoDup m.*1 → NoDup (assoc_set k v m).*1.
Proof.
  induction m as [|[k0 v0] m IH]; simpl; intros Hnd.
  - apply NoDup_singleton.
  - apply NoDup_cons in Hnd as [Hk0 Hnd]. case_decide; simpl; subst.
    + by apply NoDup_cons.
    + apply NoDup_cons. split; [|by apply IH].
      rewrite assoc_set_keys. intros [?|?]; [congruence|done].
Qed.

End AssocFacts.

(** *** The accumulators of [industryMetrics] *)

Section MetricsFacts.

Variable symbolToIndustries : gmap string (list string).

Lemma metrics_sound_mono (done done' : list Quote) metrics :
  done ⊆ done' → metrics_sound symbolToIndustries done metrics →
  metrics_sound symbolToIndustries done' metrics.
Proof.
  intros Hsub [Hnd Hm]. split; [done|]. intros name m Hin.
  destruct (Hm name m Hin) as (Hc & Ht & Hne & Hq). split_and!; [done..|].
  intros q Hqb. destruct (Hq q Hqb). split; [by apply Hsub | done].
Qed.

Lemma metrics_grow_refl metrics : metrics_grow metrics metrics.
Proof. intros name m Hm. by exists m. Qed.

Lemma metrics_grow_trans m1 m2 m3 :
  metrics_grow m1 m2 → metrics_grow m2 m3 → metrics_grow m1 m3.
Proof.
  intros H12 H23 name m Hm. destruct (H12 name m Hm) as (m' & Hm' & Hsub).
  destruct (H23 name m' Hm') as (m'' & Hm'' & Hsub'). exists m''.
  split; [done | by etrans].
Qed.

Lemma add_stock_lookup (stock : Quote) metrics (name : string) :
  ∃ m, assoc name (add_stock stock metrics name) = Some m
       ∧ stock ∈ bucket m
       ∧ bucket m = bucket (default no_metrics (assoc name metrics)) ++ [stock].
Proof.
  unfold add_stock. rewrite assoc_assoc_set, decide_True by done.
  eexists. split; [done|]. simpl. split; [|done].
  apply elem_of_app. right. apply list_elem_of_here.
Qed.

Lemma add_stock_grow (stock : Quote) metrics (name : string) :
  metrics_grow metrics (add_stock stock metrics name).
Proof.
  intros name' m Hm. destruct (decide (name' = name)) as [->|Hne].
  - destruct (add_stock_lookup stock metrics name) as (m' & Hm' & _ & Hb).
    exists m'. split; [done|]. rewrite Hb, Hm. simpl.
    intros q Hq. apply elem_of_app. by left.
  - exists m. split; [|done]. unfold add_stock.
    by rewrite assoc_assoc_set, decide_False.
Qed.

Lemma add_stock_sound (done : list Quote) (stock : Quote) metrics (name : string) :
  stock ∈ done → name ∈ industries_of symbolToIndustries stock →
  metrics_sound symbolToIndustries done metrics →
  metrics_sound symbolToIndustries done (add_stock stock metrics name).
Proof.
  intros Hstock Hname [Hnd Hm]. split; [by apply NoDup_assoc_set|].
  intros name' m' Hin. unfold add_stock in Hin.
  apply elem_of_assoc_set in Hin as [[= -> ->]|Hin]; [|by apply Hm].
  assert (Hold :
    let m := default no_metrics (assoc name metrics) in
    count m = length (bucket m) ∧ totalPChange m = double_total (bucket m)
    ∧ ∀ q, q ∈ bucket m →
           q ∈ done ∧ name ∈ industries_of symbolToIndustries q).
  { destruct (assoc name metrics) as [m|] eqn:E; simpl.
    - apply assoc_elem_of in E. destruct (Hm name m E) as (? & ? & ? & ?). done.
    - split_and!; [done..|]. intros q Hq. by apply elem_of_nil in Hq. }
  destruct Hold as (Hc & Ht & Hq). simpl. split_and!.
  - rewrite length_app. simpl. lia.
  - by rewrite double_total_snoc, Ht.
  - by destruct (bucket _).
  - intros q [Hin|Hin%list_elem_of_singleton]%elem_of_app;
      [by apply Hq | by subst q].
Qed.

Lemma add_stocks (done : list Quote) (stock : Quote) (names : list string) metrics :
  stock ∈ done →
  (∀ name, name ∈ names → name ∈ industries_of symbolToIndustries stock) →
  metrics_sound symbolToIndustries done metrics →
  let metrics' := foldl (add_stock stock) metrics names in
  metrics_sound symbolToIndustries done metrics'
  ∧ metrics_grow metrics metrics'
  ∧ metrics_cover stock names metrics'.
Proof.
  intros Hstock. revert metrics.
  induction names as [|name names IH]; intros metrics Hnames Hsound; simpl.
  - split_and!; [done | apply metrics_grow_refl|].
    intros name Hn. by apply elem_of_nil in Hn.
  - destruct (IH (add_stock stock metrics name)) as (Hs & Hg & Hc).
    + intros n Hn. apply Hnames. by right.
    + apply add_stock_sound; [done| |done]. apply Hnames. by left.
    + split_and!; [done| |].
      * eapply metrics_grow_trans; [apply add_stock_grow | done].
      * intros n [->|Hn]%elem_of_cons; [|by apply Hc].
        destruct (add_stock_lookup stock metrics name) as (m & Hm & Hin & _).
        destruct (Hg name m Hm) as (m' & Hm' & Hsub). exists m'.
        split; [done | by apply Hsub].
Qed.

Lemma collect_metrics_spec (quotes : list Quote) :
  let metrics := collect_metrics symbolToIndustries quotes in
  metrics_sound symbolToIndustries quotes metrics
  ∧ ∀ q name, q ∈ quotes → name ∈ industries_of symbolToIndustries q →
      ∃ m, assoc name metrics = Some m ∧ q ∈ bucket m.
Proof.
  induction quotes as [|stock quotes IH] using rev_ind.
  - split.
    + split; [apply NoDup_nil_2|]. intros name m Hin. by apply elem_of_nil in Hin.
    + intros q name Hq. by apply elem_of_nil in Hq.
  - destruct IH as [Hsound Hcomplete].
    unfold collect_metrics in *. rewrite foldl_snoc.
    set (metrics := foldl _ [] quotes) in *.
    destruct (add_stocks (quotes ++ [stock]) stock
                (industries_of symbolToIndustries stock) metrics)
      as (Hs & Hg & Hc).
    + apply elem_of_app. right. apply list_elem_of_here.
    + done.
    + eapply metrics_sound_mono; [|done]. intros q Hq. apply elem_of_app. by left.
    + split; [done|].
      intros q name [Hq|Hq%list_elem_of_singleton]%elem_of_app Hname.
      * destruct (Hcomplete q name Hq Hname) as (m & Hm & Hin).
        destruct (Hg name m Hm) as (m' & Hm' & Hsub). exists m'.
        split; [done | by apply Hsub].
      * subst q. by apply Hc.
Qed.

(** The bucket of an industry holds the quotes attributed to it, in the
    order of their arrival. *)
Lemma add_stocks_bucket (stock : Quote) (names : list string) metrics (name : string) :
  bucket (default no_metrics (assoc name (foldl (add_stock stock) metrics names)))
  = bucket (default no_metrics (assoc name metrics))
    ++ ((λ _, stock) <$> filter (λ n, n = name) names).
Proof.
  revert metrics. induction names as [|n names IH]; intros metrics; simpl.
  - by rewrite app_nil_r.
  - rewrite IH. unfold add_stock at 1. rewrite assoc_assoc_set.
    destruct (decide (name = n)) as [->|Hne].
    + rewrite filter_cons_True by done. simpl. by rewrite <- app_assoc.
    + rewrite filter_cons_False by done. done.
Qed.

Lemma collect_metrics_bucket (quotes : list Quote) (name : string) :
  bucket (default no_metrics (assoc name (collect_metrics symbolToIndustries quotes)))
  = attributed symbolToIndustries name quotes.
Proof.
  unfold collect_metrics.
  assert (Hgen : ∀ acc,
            bucket (default no_metrics
                      (assoc name
                         (foldl (λ metrics stock,
                                   foldl (add_stock stock) metrics
                                     (default ["N/A"]
                                        (symbolToIndustries !! symbol stock)))
                            acc quotes)))
            = bucket (default no_metrics (assoc name acc))
              ++ attributed symbolToIndustries name quotes).
  { induction quotes as [|q quotes IH]; intros acc; simpl.
    - by rewrite app_nil_r.
    - rewrite IH, add_stocks_bucket. by rewrite <- app_assoc. }
  by rewrite Hgen.
Qed.

End MetricsFacts.

Lemma double_toFixed2_finite (x : JsNumber.double) :
  JsNumber.finite x = true →
  JsNumber.double_toFixed2 x = JsNumber.toFixed2 (JsNumber.value x).
Proof. by destruct x as [| | |]. Qed.

(** C3. For every industry of the aggregation output: its stocks are the
    quotes attributed to it, ranked in descending order of their change, and
    [topStock] is the first of them; [avgPChange] is [toFixed(2)] of their
    mean, the mean being the one the doubles give: the changes added up in
    the order of arrival and the sum divided by their number, each step
    rounded to the nearest double.  When that mean is finite and below 10^21
    the text is the decimal numeral, with two fraction digits, of the
    hundredth nearest to it, and reads back as that hundredth.  For the
    quotes A at +2.00 and B at +4.00, both in "Tech", the output is the
    single industry "Tech" with [avgPChange] "3.00" and [topStock] B; for
    changes of 0.01 and 0.02 the sum of the doubles is just below 0.03 and
    [avgPChange] is "0.01". *)
Theorem industry_aggregate_correct (symbolToIndustries : gmap string (list string))
    (quotes : list Quote) (ind : IndustryAggregate) :
  ind ∈ aggregate symbolToIndustries quotes →
  let members := attributed symbolToIndustries (industry ind) quotes in
  let avg := double_mean members in
  stocks ind ≠ []
  ∧ stockCount ind = length (stocks ind)
  ∧ (∀ q, q ∈ stocks ind ↔
          q ∈ quotes ∧ industry ind ∈ industries_of symbolToIndustries q)
  ∧ stocks ind = js_sort descending members
  ∧ avgPChange ind = JsNumber.double_toFixed2 avg
  ∧ (JsNumber.finite avg = true →
     (JsNumber.magnitude (JsNumber.value avg) < JsNumber.Qc_of_Z (10 ^ 21))%Qc →
     ∃ n, nearest_hundredth (JsNumber.magnitude (JsNumber.value avg)) n
          ∧ avgPChange ind = two_decimals (JsNumber.value avg) n
          ∧ canonical_text (bool_decide (JsNumber.value avg < 0)%Qc) n (avgPChange ind)
          ∧ JsNumber.parseFloat (avgPChange ind)
            = JsNumber.Finite
                (if decide (JsNumber.value avg < 0)%Qc
                 then (- (JsNumber.Qc_of_Z n / JsNumber.Qc_of_Z 100))%Qc
                 else (JsNumber.Qc_of_Z n / JsNumber.Qc_of_Z 100)%Qc))
  ∧ StronglySorted not_below (stocks ind)
  ∧ topStock ind = head (stocks ind)
  ∧ (λ a, (industry a, avgPChange a, symbol <$> topStock a))
      <$> aggregate tech_index tech_quotes
    = [("Tech", Fixed "3.00", Some "B")]
  ∧ avgPChange <$> aggregate tech_index [sample_quote "A" 1; sample_quote "B" 2]
    = [Fixed "0.01"].
Proof.
  unfold aggregate. rewrite js_sort_elem_of, list_elem_of_filter.
  intros [Hpos Hin]. apply list_elem_of_fmap in Hin as ([name m] & -> & Hin).
  destruct (collect_metrics_spec symbolToIndustries quotes) as [[Hnd Hsound] Hcomplete].
  destruct (Hsound name m Hin) as (Hcount & Htotal & Hne & Hmem).
  pose proof (collect_metrics_bucket symbolToIndustries quotes name) as Hbucket.
  rewrite (elem_of_assoc name m _ Hnd Hin) in Hbucket. simpl in Hbucket.
  cbn [summarize stocks stockCount industry avgPChange topStock] in *.
  rewrite <- Hbucket.
  assert (Havg : (if (0 <? count m)%nat
                  then JsNumber.double_toFixed2
                         (JsNumber.div (totalPChange m)
                            (JsNumber.of_Z (Z.of_nat (count m))))
                  else Number 0%Qc)
                 = JsNumber.double_toFixed2 (double_mean (bucket m))).
  { apply Nat.ltb_lt in Hpos. rewrite Hpos. unfold double_mean.
    by rewrite Hcount, Htotal. }
  split_and!.
  - intros Hnil. apply Hne. apply Permutation_nil_r.
    rewrite <- Hnil. by rewrite js_sort_Permutation.
  - by rewrite js_sort_length.
  - intros q. rewrite js_sort_elem_of. split; [by apply Hmem|].
    intros [Hq Hname]. destruct (Hcomplete q name Hq Hname) as (m' & Hm' & Hqm').
    apply (elem_of_assoc name m) in Hin; [|done]. congruence.
  - done.
  - done.
  - intros Hfinite Hsmall. rewrite Havg.
    set (v := JsNumber.value (double_mean (bucket m))) in *.
    exists (JsNumber.hundredths (JsNumber.magnitude v)).
    assert (Hnotbig : ¬ (JsNumber.Qc_of_Z (10 ^ 21) <= JsNumber.magnitude v)%Qc)
      by (by apply Qclt_not_le).
    rewrite (double_toFixed2_finite _ Hfinite). fold v. split_and!.
    + apply hundredths_nearest.
    + unfold JsNumber.toFixed2, two_decimals. by rewrite decide_False.
    + by apply toFixed2_canonical.
    + rewrite parseFloat_toFixed2. unfold rounded. cbv zeta. by rewrite decide_False.
  - apply js_sort_descending.
  - done.
  - by vm_compute.
  - by vm_compute.
Qed.

(** * Worked instances *)

(** With the cache of [warm_world], [TCS] is served from the cache; its
    symbol is registered. *)
Lemma fetched_quotes_are_registered_instance :
  symbol (quote_of_entry "TCS" (sample_entry 200 900000)) ∈ allSymbolsSet fallback_registry
  ∧ symbol (quote_of_entry "TCS" (sample_entry 200 900000)) ∈ ["TCS"; "UNLISTED"; "PFC"].
Proof.
  apply (fetched_quotes_are_registered false healthy_provider fallback_registry
           ["TCS"; "UNLISTED"; "PFC"] BATCH_SIZE false warm_world).
  vm_compute. apply list_elem_of_here.
Defined.

(** The call for [PEL] throws each time: the batch of [TCS] and [PEL] is
    given up after four waits, and the next batch is fetched.  With the
    provider whose first two calls throw, the third attempt fetches the
    batch: four calls in all. *)
Lemma failing_batch_retried_then_abandoned_instance :
  (retry_batch flaky_provider 0 ["TCS"; "PEL"] MAX_RETRIES empty_world).1 = []
  ∧ now (retry_batch flaky_provider 0 ["TCS"; "PEL"] MAX_RETRIES empty_world).2
    = now empty_world + 4 * 1000
  ∧ fetch_batches flaky_provider 0 [["TCS"; "PEL"]; ["RELIANCE"]] empty_world
    = fetch_batches flaky_provider 1 [["RELIANCE"]]
        (between_batches [["RELIANCE"]]
           (retry_batch flaky_provider 0 ["TCS"; "PEL"] MAX_RETRIES empty_world).2)
  ∧ (retry_batch recovering_provider 0 ["TCS"; "PEL"] MAX_RETRIES empty_world).1
    = [sample_fetched "TCS"; sample_fetched "PEL"]
  ∧ trace (retry_batch recovering_provider 0 ["TCS"; "PEL"] MAX_RETRIES empty_world).2
    = [ EvRequest "TCS"; EvBatchError 1 1; EvSleep 1000;
        EvRequest "TCS"; EvBatchError 1 2; EvSleep 1000;
        EvRequest "TCS"; EvRequest "PEL" ].
Proof.
  destruct (failing_batch_retried_then_abandoned flaky_provider 0 ["TCS"; "PEL"]
              [["RELIANCE"]] "PEL" empty_world) as (H1 & _ & H3 & _ & H5 & _ & _ & H8).
  - apply list_elem_of_further, list_elem_of_here.
  - intros n. reflexivity.
  - destruct (H8 recovering_provider 2%nat "TCS") as (Hq & Ht & _).
    + unfold MAX_RETRIES. lia.
    + reflexivity.
    + intros n s Hn. simpl in *. destruct (Nat.ltb_spec n 2); [done | lia].
    + intros n s Hn. simpl in *. destruct (Nat.ltb_spec n 2); [lia | done].
    + split_and!; [exact H1 | exact H3 | exact H5 | exact Hq | exact Ht].
Defined.

(** The whole call with batches of two: the batch of [TCS] and [PEL] is
    lost, the batch after it is returned, and the call ends after the four
    retry waits, the wait between the batches and one round trip. *)
Example fetch_survives_failing_batch :
  let r := fetchEquityDetailsInBatches false flaky_provider fallback_registry
             ["TCS"; "PEL"; "RELIANCE"; "PAYTM"] 2 true empty_world in
  r.1 = ([sample_fetched "RELIANCE"; sample_fetched "PAYTM"], false)
  ∧ now r.2 = now empty_world + 4 * 1000 + BATCH_DELAY_MS + 20.
Proof. by vm_compute. Qed.

Lemma industry_aggregate_correct_instance :
  stocks tech_aggregate ≠ []
  ∧ StronglySorted not_below (stocks tech_aggregate)
  ∧ topStock tech_aggregate = head (stocks tech_aggregate).
Proof.
  destruct (industry_aggregate_correct tech_index tech_quotes tech_aggregate)
    as (H1 & _ & _ & _ & _ & _ & H6 & H7 & _).
  - vm_compute. apply list_elem_of_here.
  - split_and!; [exact H1 | exact H6 | exact H7].
Defined.

(** In [warm_world] the entry of [PFC] is 400 s old: [PFC] goes to the fetch
    path, and the quote served for [TCS] is 100 s old. *)
Lemma cache_served_quotes_are_fresh_instance :
  "PFC" ∈ concat (make_batches BATCH_SIZE
            (cache_phase (filter (λ sym, valid_symbol fallback_registry sym = true)
                            ["TCS"; "PFC"]) warm_world).1.2)
  ∧ ∃ e t, cache warm_world !! "TCS" = Some (e, t)
           ∧ now warm_world - timestamp e < 300 * 1000.
Proof.
  destruct (cache_served_quotes_are_fresh healthy_provider fallback_registry
              ["TCS"; "PFC"] BATCH_SIZE warm_world) as (_ & Hfresh & Hstale).
  split.
  - apply (Hstale "PFC" (sample_entry (-300) 600000) 1500000).
    + vm_compute. apply list_elem_of_further, list_elem_of_here.
    + reflexivity.
    + vm_compute. discriminate.
  - destruct (Hfresh (quote_of_entry "TCS" (sample_entry 200 900000)))
      as (e & t & Hl & _ & Hage).
    + vm_compute. apply list_elem_of_here.
    + by exists e, t.
Defined.

(** [TCS] rejects and [PFC] answers with a text for the change; [RELIANCE],
    in the same batch, still yields its quote. *)
Lemma batch_partial_failure_isolated_instance :
  ∃ quotes,
    (try_batch flaky_provider ["TCS"; "PFC"; "RELIANCE"] empty_world).1 = Some quotes
    ∧ ∃ q, q ∈ quotes ∧ symbol q = "RELIANCE" ∧ pChange (priceInfo q) = cents 125.
Proof.
  destruct (batch_partial_failure_isolated flaky_provider 0
              ["TCS"; "PFC"; "RELIANCE"] empty_world)
    as (quotes & Htry & _ & Hyield & _).
  - intros i s Hi. destruct i as [|[|[|i]]]; simpl in Hi; try discriminate Hi;
      injection Hi as <-; vm_compute; discriminate.
  - exists quotes. split; [exact Htry|].
    destruct (Hyield 2%nat "RELIANCE" (cents 125) (cents 10000) eq_refl)
      as (q & Hq & Hs & Hp & _).
    + eexists _, _. split_and!; reflexivity.
    + by exists q.
Defined.

(** No promise resolves: the market-wide endpoint answers 500, the industry
    endpoint 200 with the warning. *)
Lemma empty_results_500_versus_200_instance :
  status (market_data false dead_provider sample_registry false empty_world).1 = 500%nat
  ∧ status (industry_data false dead_provider sample_registry false empty_world).1 = 200%nat
  ∧ is_empty_with_warning
      (industry_data false dead_provider sample_registry false empty_world).1.
Proof.
  destruct (empty_results_500_versus_200 false dead_provider sample_registry false
              empty_world) as [Hmarket Hindustry].
  destruct Hmarket as [Hm _]; [by vm_compute|].
  destruct Hindustry as [Hi Hw]; [by vm_compute|].
  split_and!; [exact Hm | exact Hi | exact Hw].
Defined.

Lemma registry_falls_back_to_default_instance :
  industryData (preloadExcelData (ReadRows []) initial_registry) = DEFAULT_INDUSTRY_DATA
  ∧ allSymbolsSet (preloadExcelData (ReadRows []) initial_registry) ≠ ∅.
Proof.
  destruct (registry_falls_back_to_default (ReadRows []) initial_registry)
    as (H1 & _ & _ & H4); [by right|].
  split; [exact H1 | exact H4].
Defined.



(** * Further properties *)

(** ** The registry after loading *)

Lemma default_index_wf : index_wf DEFAULT_INDUSTRY_DATA.
Proof.
  split.
  - apply (bool_decide_unpack _). by vm_compute.
  - assert (Hall : Forall (λ e, e.2 ≠ [] ∧ NoDup e.2) DEFAULT_INDUSTRY_DATA).
    { unfold DEFAULT_INDUSTRY_DATA.
      repeat (apply Forall_cons; split;
              [split; [done | apply (bool_decide_unpack _); by vm_compute]|]).
      apply Forall_nil_2. }
    intros name members Hin. rewrite list.Forall_forall in Hall.
    apply (Hall (name, members) Hin).
Qed.

Lemma default_index_clean :
  ∀ name, name ∈ DEFAULT_INDUSTRY_DATA.*1 → name ∉ object_prototype_keys.
Proof.
  assert (Hall : Forall (λ name, name ∉ object_prototype_keys) DEFAULT_INDUSTRY_DATA.*1).
  { unfold DEFAULT_INDUSTRY_DATA. simpl.
    repeat (apply Forall_cons; split; [apply (bool_decide_unpack _); by vm_compute|]).
    apply Forall_nil_2. }
  intros name Hin. rewrite list.Forall_forall in Hall. by apply Hall.
Qed.

Lemma elem_of_concat {A : Type} (x : A) (ls : list (list A)) :
  x ∈ concat ls ↔ ∃ l, x ∈ l ∧ l ∈ ls.
Proof.
  induction ls as [|l ls IH]; simpl.
  - split; [intros H; by apply elem_of_nil in H|].
    intros (l & _ & H). by apply elem_of_nil in H.
  - rewrite elem_of_app, IH. split.
    + intros [?|(l' & ? & ?)]; [exists l; split; [done | by left]|].
      exists l'. split; [done | by right].
    + intros (l' & Hx & [->|?]%elem_of_cons); [by left|]. right. by exists l'.
Qed.

Lemma default_symbols_listed (s : string) :
  (∃ name, listed DEFAULT_INDUSTRY_DATA name s) ↔ s ∈ default_symbols.
Proof.
  unfold default_symbols, listed. rewrite elem_of_concat. split.
  - intros (name & members & Hin & Hs). exists members. split; [done|].
    apply list_elem_of_fmap. by exists (name, members).
  - intros (members & Hs & Hin). apply list_elem_of_fmap in Hin as ([name m] & -> & Hin).
    by exists name, m.
Qed.

(** What one row does to the index, when it does not throw. *)
Lemma load_rows_cons (row : Row) (rest : list Row) ind syms :
  load_rows (row :: rest) ind syms =
    if JsString.truthy (row_symbol row) then
      match assoc (normalize_industry row) ind with
      | Some members =>
          if decide (row_symbol row ∈ members)
          then load_rows rest ind ({[ row_symbol row ]} ∪ syms)
          else load_rows rest
                 (assoc_set (normalize_industry row) (members ++ [row_symbol row]) ind)
                 ({[ row_symbol row ]} ∪ syms)
      | None =>
          if decide (normalize_industry row ∈ object_prototype_keys)
          then (None, {[ row_symbol row ]} ∪ syms)
          else load_rows rest (assoc_set (normalize_industry row) [row_symbol row] ind)
                 ({[ row_symbol row ]} ∪ syms)
      end
    else load_rows rest ind syms.
Proof. done. Qed.

Lemma elem_of_assoc_set_iff {V : Type} (k : string) (v : V) (m : list (string * V))
    (k' : string) (v' : V) :
  NoDup m.*1 →
  (k', v') ∈ assoc_set k v m ↔ (k' = k ∧ v' = v) ∨ (k' ≠ k ∧ (k', v') ∈ m).
Proof.
  intros Hnd. pose proof (NoDup_assoc_set k v m Hnd) as Hnd'. split.
  - intros Hin. destruct (decide (k' = k)) as [->|Hne].
    + left. split; [done|]. apply (elem_of_assoc k v') in Hin; [|done].
      rewrite assoc_assoc_set, decide_True in Hin by done. congruence.
    + right. split; [done|].
      apply elem_of_assoc_set in Hin as [[= -> ->]|Hin]; done.
  - intros [[-> ->]|[Hne Hin]].
    + apply assoc_elem_of. by rewrite assoc_assoc_set, decide_True.
    + apply assoc_elem_of. rewrite assoc_assoc_set, decide_False by done.
      by apply elem_of_assoc.
Qed.

Lemma load_rows_spec (rows : list Row) ind syms ind' syms' :
  index_wf ind →
  (∀ name, name ∈ ind.*1 → name ∉ object_prototype_keys) →
  load_rows rows ind syms = (Some ind', syms') →
  index_wf ind'
  ∧ (∀ name, name ∈ ind'.*1 → name ∉ object_prototype_keys)
  ∧ (∀ name s, listed ind' name s ↔
       listed ind name s
       ∨ ∃ row, row ∈ rows ∧ usable row ∧ row_symbol row = s
                ∧ normalize_industry row = name)
  ∧ (∀ s, s ∈ syms' ↔ s ∈ syms ∨ ∃ row, row ∈ rows ∧ usable row ∧ row_symbol row = s)
  ∧ (∀ row, row ∈ rows → ¬ poisoned row).
Proof.
  revert ind syms. induction rows as [|row rest IH]; intros ind syms Hwf Hclean.
  - intros [= <- <-]. split_and!; [done..| | |].
    + intros name s. split; [by left|]. intros [?|(row & Hr & _)]; [done|].
      by apply elem_of_nil in Hr.
    + intros s. split; [by left|]. intros [?|(row & Hr & _)]; [done|].
      by apply elem_of_nil in Hr.
    + intros row Hr. by apply elem_of_nil in Hr.
  - rewrite load_rows_cons.
    destruct (JsString.truthy (row_symbol row)) eqn:Husable.
    2:{ intros Hload. destruct (IH _ _ Hwf Hclean Hload) as (H1 & H2 & H3 & H4 & H5).
        split_and!; [done..| | |].
        - intros name s. rewrite H3. split.
          + intros [?|(r & Hr & ?)]; [by left|]. right. exists r. split; [by right|done].
          + intros [?|(r & Hr & Hu & ?)]; [by left|].
            apply elem_of_cons in Hr as [->|Hr]; [unfold usable in Hu; congruence|].
            right. by exists r.
        - intros s. rewrite H4. split.
          + intros [?|(r & Hr & ?)]; [by left|]. right. exists r. split; [by right|done].
          + intros [?|(r & Hr & Hu & ?)]; [by left|].
            apply elem_of_cons in Hr as [->|Hr]; [unfold usable in Hu; congruence|].
            right. by exists r.
        - intros r [->|Hr]%elem_of_cons; [|by apply H5].
          intros [Hu _]. unfold usable in Hu. congruence. }
    set (name0 := normalize_industry row) in *. set (s0 := row_symbol row) in *.
    destruct Hwf as [Hnd Hmem].
    assert (Hstep : ∀ members0 ind1,
      ind1 = assoc_set name0 members0 ind →
      members0 ≠ [] → NoDup members0 → name0 ∉ object_prototype_keys →
      (∀ s, s ∈ members0 ↔ s = s0 ∨ listed ind name0 s) →
      load_rows rest ind1 ({[ s0 ]} ∪ syms) = (Some ind', syms') →
      index_wf ind'
      ∧ (∀ name, name ∈ ind'.*1 → name ∉ object_prototype_keys)
      ∧ (∀ name s, listed ind' name s ↔
           listed ind name s
           ∨ ∃ r, r ∈ row :: rest ∧ usable r ∧ row_symbol r = s
                  ∧ normalize_industry r = name)
      ∧ (∀ s, s ∈ syms' ↔
           s ∈ syms ∨ ∃ r, r ∈ row :: rest ∧ usable r ∧ row_symbol r = s)
      ∧ (∀ r, r ∈ row :: rest → ¬ poisoned r)).
    { intros members0 ind1 -> Hne0 Hnd0 Hclean0 Hm0 Hload.
      assert (Hwf1 : index_wf (assoc_set name0 members0 ind)).
      { split; [by apply NoDup_assoc_set|]. intros name members Hin.
        apply elem_of_assoc_set in Hin as [[= -> ->]|Hin]; [done | by apply (Hmem name)]. }
      assert (Hclean1 : ∀ name, name ∈ (assoc_set name0 members0 ind).*1 →
                name ∉ object_prototype_keys).
      { intros name [->|Hin]%assoc_set_keys; [done | by apply Hclean]. }
      assert (Hlisted1 : ∀ name s, listed (assoc_set name0 members0 ind) name s ↔
                listed ind name s ∨ (name = name0 ∧ s = s0)).
      { intros name s. unfold listed. split.
        - intros (members & Hin & Hs).
          apply (elem_of_assoc_set_iff _ _ _ _ _ Hnd) in Hin as [[-> ->]|[Hne Hin]].
          + apply Hm0 in Hs as [->|Hs]; [by right | by left].
          + left. by exists members.
        - intros [(members & Hin & Hs)|[-> ->]].
          + destruct (decide (name = name0)) as [->|Hne].
            * exists members0. split.
              -- apply (elem_of_assoc_set_iff _ _ _ _ _ Hnd). by left.
              -- apply Hm0. right. by exists members.
            * exists members. split; [|done].
              apply (elem_of_assoc_set_iff _ _ _ _ _ Hnd). by right.
          + exists members0. split.
            * apply (elem_of_assoc_set_iff _ _ _ _ _ Hnd). by left.
            * apply Hm0. by left. }
      destruct (IH _ _ Hwf1 Hclean1 Hload) as (H1 & H2 & H3 & H4 & H5).
      split_and!; [done..| | |].
      - intros name s. rewrite H3, Hlisted1. split.
        + intros [[?|[-> ->]]|(r & Hr & ?)].
          * by left.
          * right. exists row. split; [by left|done].
          * right. exists r. split; [by right|done].
        + intros [?|(r & Hr & Hu & Hs & Hn)]; [by left; left|].
          apply elem_of_cons in Hr as [->|Hr]; [left; right; by subst|].
          right. by exists r.
      - intros s. rewrite H4. rewrite elem_of_union, elem_of_singleton. split.
        + intros [[->|?]|(r & Hr & ?)].
          * right. exists row. split; [by left|done].
          * by left.
          * right. exists r. split; [by right|done].
        + intros [?|(r & Hr & Hu & Hs)]; [by left; right|].
          apply elem_of_cons in Hr as [->|Hr]; [left; left; by subst|].
          right. by exists r.
      - intros r [->|Hr]%elem_of_cons; [|by apply H5].
        by intros [_ Hp]. }
    destruct (assoc name0 ind) as [members|] eqn:Hassoc.
    + pose proof (assoc_elem_of _ _ _ Hassoc) as Hin.
      destruct (Hmem _ _ Hin) as [Hne Hndm].
      assert (Hclean0 : name0 ∉ object_prototype_keys).
      { apply Hclean. apply list_elem_of_fmap. by exists (name0, members). }
      assert (Hmembers : ∀ s, s ∈ members ↔ listed ind name0 s).
      { intros s. split; [intros Hs; by exists members|].
        intros (m & Hm & Hs). apply (elem_of_assoc name0 m) in Hm; [|done]. congruence. }
      destruct (decide (s0 ∈ members)) as [Hs0|Hs0].
      * intros Hload. apply (Hstep members (assoc_set name0 members ind)); try done.
        -- intros s. rewrite Hmembers. split; [by right|].
           intros [->|?]; [by apply Hmembers | done].
        -- replace (assoc_set name0 members ind) with ind; [done|].
           clear -Hassoc. induction ind as [|[k v] ind IHi]; [done|]. simpl in *.
           case_decide; [by injection Hassoc as -> ; subst | by rewrite <- IHi].
      * intros Hload. apply (Hstep (members ++ [s0]) _ eq_refl); try done.
        -- by destruct members.
        -- apply NoDup_app. split_and!; [done| |apply NoDup_singleton].
           intros x Hx ->%list_elem_of_singleton. done.
        -- intros s. rewrite elem_of_app, list_elem_of_singleton, Hmembers. tauto.
    + destruct (decide (name0 ∈ object_prototype_keys)) as [Hp|Hp]; [done|].
      intros Hload. apply (Hstep [s0] _ eq_refl); try done.
      * apply NoDup_singleton.
      * intros s. rewrite list_elem_of_singleton. split; [by left|].
        intros [->|(m & Hm & _)]; [done|].
        apply (elem_of_assoc name0 m) in Hm; [congruence | done].
Qed.

Lemma load_rows_succeeds (rows : list Row) ind syms :
  (∀ name, name ∈ ind.*1 → name ∉ object_prototype_keys) →
  (∀ row, row ∈ rows → ¬ poisoned row) →
  ∃ ind' syms', load_rows rows ind syms = (Some ind', syms').
Proof.
  revert ind syms. induction rows as [|row rest IH]; intros ind syms Hclean Hrows.
  - by eexists _, _.
  - rewrite load_rows_cons.
    assert (Hrest : ∀ r, r ∈ rest → ¬ poisoned r) by (intros r Hr; apply Hrows; by right).
    destruct (JsString.truthy (row_symbol row)) eqn:Hu; [|by apply IH].
    assert (Hname : normalize_industry row ∉ object_prototype_keys).
    { intros Hp. apply (Hrows row); [by left | by split]. }
    assert (Hclean' : ∀ members name,
              name ∈ (assoc_set (normalize_industry row) members ind).*1 →
              name ∉ object_prototype_keys).
    { intros members name [->|Hin]%assoc_set_keys; [done | by apply Hclean]. }
    destruct (assoc (normalize_industry row) ind) as [members|].
    + case_decide; [by apply IH|]. apply IH; [apply Hclean' | done].
    + rewrite decide_False by done. apply IH; [apply Hclean' | done].
Qed.

Lemma load_rows_grows (rows : list Row) ind (syms : gset string) (s : string) :
  s ∈ syms → s ∈ (load_rows rows ind syms).2.
Proof.
  revert ind syms. induction rows as [|row rest IH]; intros ind syms Hs; [done|].
  rewrite load_rows_cons.
  destruct (JsString.truthy (row_symbol row)); [|by apply IH].
  destruct (assoc (normalize_industry row) ind).
  - case_decide; apply IH; by apply elem_of_union_r.
  - case_decide; [simpl; by apply elem_of_union_r | apply IH; by apply elem_of_union_r].
Qed.

Lemma market_symbols_usable (reg : Registry) (s : string) :
  s ∈ market_symbols reg ↔
  ∃ row, row ∈ nifty500Data reg ∧ usable row ∧ row_symbol row = s.
Proof.
  unfold market_symbols. rewrite list_elem_of_filter, list_elem_of_omap. split.
  - intros (Ht & row & Hrow & Hs). exists row. unfold usable, row_symbol.
    rewrite Hs. done.
  - intros (row & Hrow & Hu & Hs). unfold usable, row_symbol in *.
    destruct (normalize_symbol row) as [s'|] eqn:E; simpl in *; [|done].
    subst s'. split; [done|]. by exists row.
Qed.

(** X1. Whatever the spreadsheet reader returned and whatever the registry
    held before, after [preloadExcelData] the industry index is not empty,
    its labels are distinct and none names an inherited member, each label
    lists at least one symbol and lists none twice, and every symbol of the
    index as well as every symbol the market-wide endpoint derives from the
    rows is in [allSymbolsSet], which has only grown. *)
Theorem preload_registry_invariants (src : ReadOutcome) (r : Registry) :
  let reg := preloadExcelData src r in
  industryData reg ≠ []
  ∧ index_wf (industryData reg)
  ∧ (∀ name, name ∈ (industryData reg).*1 → name ∉ object_prototype_keys)
  ∧ (∀ name s, listed (industryData reg) name s → s ∈ allSymbolsSet reg)
  ∧ (∀ s, s ∈ market_symbols reg → s ∈ allSymbolsSet reg)
  ∧ allSymbolsSet r ⊆ allSymbolsSet reg.
Proof.
  intros reg.
  assert (Hfallback : ∀ rows syms,
    allSymbolsSet r ⊆ syms →
    (∀ row, row ∈ rows → usable row → row_symbol row ∈ syms) →
    let reg' := {| nifty500Data := rows; industryData := DEFAULT_INDUSTRY_DATA;
                   allSymbolsSet := list_to_set default_symbols ∪ syms |} in
    industryData reg' ≠ []
    ∧ index_wf (industryData reg')
    ∧ (∀ name, name ∈ (industryData reg').*1 → name ∉ object_prototype_keys)
    ∧ (∀ name s, listed (industryData reg') name s → s ∈ allSymbolsSet reg')
    ∧ (∀ s, s ∈ market_symbols reg' → s ∈ allSymbolsSet reg')
    ∧ allSymbolsSet r ⊆ allSymbolsSet reg').
  { intros rows syms Hsub Hrows reg'. subst reg'. cbn [industryData allSymbolsSet].
    split_and!; [done | apply default_index_wf | apply default_index_clean | | |].
    - intros name s Hl. apply elem_of_union_l, elem_of_list_to_set.
      apply default_symbols_listed. by exists name.
    - intros s (row & Hrow & Hu & <-)%market_symbols_usable.
      apply elem_of_union_r. by apply Hrows.
    - intros s Hs. by apply elem_of_union_r, Hsub. }
  subst reg. destruct src as [rows|]; cbn [preloadExcelData].
  2:{ apply (Hfallback [] (allSymbolsSet r)); [done|].
      intros row Hrow. by apply elem_of_nil in Hrow. }
  destruct (load_rows rows [] (allSymbolsSet r)) as [[ind|] syms] eqn:Hload.
  - destruct (load_rows_spec rows [] (allSymbolsSet r) ind syms) as (H1 & H2 & H3 & H4 & H5).
    { split; [apply NoDup_nil_2|]. intros ? ? Hin. by apply elem_of_nil in Hin. }
    { intros name Hin. by apply elem_of_nil in Hin. }
    { done. }
    destruct ind as [|entry ind]; cbn [length Nat.eqb].
    + apply Hfallback.
      * intros s Hs. apply H4. by left.
      * intros row Hrow Hu. apply H4. right. by exists row.
    + cbn [industryData allSymbolsSet]. split_and!; [done..| | |].
      * intros name s Hl. apply H3 in Hl as [(m & Hm & _)|(row & Hrow & Hu & Hs & _)].
        -- by apply elem_of_nil in Hm.
        -- apply H4. right. by exists row.
      * intros s (row & Hrow & Hu & <-)%market_symbols_usable.
        apply H4. right. by exists row.
      * intros s Hs. apply H4. by left.
  - assert (Hgrow : allSymbolsSet r ⊆ syms).
    { intros s Hs. pose proof (load_rows_grows rows [] (allSymbolsSet r) s Hs) as Hg.
      by rewrite Hload in Hg. }
    apply (Hfallback [] syms Hgrow). intros row Hrow. by apply elem_of_nil in Hrow.
Qed.

(** X2. When no row of the sheet is poisoned and some row is usable, the
    registry is loaded from the sheet: the rows are kept for the market-wide
    endpoint, a symbol is listed under a label exactly when a usable row
    carries that normalised symbol and that normalised label, and
    [allSymbolsSet] gains exactly the symbols of the usable rows. *)
Theorem preload_from_rows (rows : list Row) (r : Registry) :
  (∀ row, row ∈ rows → ¬ poisoned row) →
  (∃ row, row ∈ rows ∧ usable row) →
  let reg := preloadExcelData (ReadRows rows) r in
  nifty500Data reg = rows
  ∧ (∀ name s, listed (industryData reg) name s ↔
       ∃ row, row ∈ rows ∧ usable row ∧ row_symbol row = s
              ∧ normalize_industry row = name)
  ∧ (∀ s, s ∈ allSymbolsSet reg ↔
       s ∈ allSymbolsSet r ∨ ∃ row, row ∈ rows ∧ usable row ∧ row_symbol row = s).
Proof.
  intros Hclean (row0 & Hrow0 & Hu0) reg. subst reg. cbn [preloadExcelData].
  destruct (load_rows_succeeds rows [] (allSymbolsSet r)) as (ind & syms & Hload).
  { intros name Hin. by apply elem_of_nil in Hin. }
  { done. }
  rewrite Hload.
  destruct (load_rows_spec rows [] (allSymbolsSet r) ind syms) as (H1 & H2 & H3 & H4 & H5).
  { split; [apply NoDup_nil_2|]. intros ? ? Hin. by apply elem_of_nil in Hin. }
  { intros name Hin. by apply elem_of_nil in Hin. }
  { done. }
  assert (Hlisted : ∀ name s, listed ind name s ↔
            ∃ row, row ∈ rows ∧ usable row ∧ row_symbol row = s
                   ∧ normalize_industry row = name).
  { intros name s. rewrite H3. split; [|by right].
    intros [(m & Hm & _)|?]; [by apply elem_of_nil in Hm | done]. }
  destruct ind as [|entry ind]; cbn [length Nat.eqb].
  - assert (Hl : listed [] (normalize_industry row0) (row_symbol row0)).
    { apply Hlisted. by exists row0. }
    destruct Hl as (m & Hm & _). by apply elem_of_nil in Hm.
  - cbn [nifty500Data industryData allSymbolsSet]. by split_and!.
Qed.

(** X3. When a row of the sheet is poisoned, or no row is usable, the sheet
    is given up as a whole: the industry index is the built-in default
    mapping and the market-wide endpoint is left without a symbol, although
    [allSymbolsSet] holds the default symbols. *)
Theorem preload_gives_up_sheet (rows : list Row) (r : Registry) :
  (∃ row, row ∈ rows ∧ poisoned row) ∨ (∀ row, row ∈ rows → ¬ usable row) →
  let reg := preloadExcelData (ReadRows rows) r in
  industryData reg = DEFAULT_INDUSTRY_DATA
  ∧ market_symbols reg = []
  ∧ (∀ s, s ∈ default_symbols → s ∈ allSymbolsSet reg).
Proof.
  intros Hrows reg. subst reg. cbn [preloadExcelData].
  destruct (load_rows rows [] (allSymbolsSet r)) as [[ind|] syms] eqn:Hload.
  - destruct (load_rows_spec rows [] (allSymbolsSet r) ind syms) as (H1 & H2 & H3 & H4 & H5).
    { split; [apply NoDup_nil_2|]. intros ? ? Hin. by apply elem_of_nil in Hin. }
    { intros name Hin. by apply elem_of_nil in Hin. }
    { done. }
    destruct Hrows as [(row & Hrow & Hp)|Hnone]; [by destruct (H5 row Hrow)|].
    assert (Hempty : ind = []).
    { destruct ind as [|[name members] ind]; [done|].
      destruct H1 as [_ Hm]. destruct (Hm name members) as [Hne _]; [by left|].
      destruct members as [|s members]; [done|].
      assert (Hl : listed ((name, s :: members) :: ind) name s).
      { exists (s :: members). split; by left. }
      apply H3 in Hl as [(m & Hm' & _)|(row & Hrow & Hu & _)].
      - by apply elem_of_nil in Hm'.
      - by destruct (Hnone row Hrow). }
    subst ind. cbn [length Nat.eqb industryData allSymbolsSet]. split_and!; [done| |].
    + apply elem_of_nil_inv. intros s (row & Hrow & Hu & _)%market_symbols_usable.
      by apply (Hnone row).
    + intros s Hs. apply elem_of_union_l. by apply elem_of_list_to_set.
  - cbn [industryData allSymbolsSet]. split_and!; [done..|].
    intros s Hs. apply elem_of_union_l. by apply elem_of_list_to_set.
Qed.


(** ** The symbol index of the industry endpoint *)

Lemma indexed_ext (S S' : string → string → Prop) acc :
  (∀ name s, S' name s ↔ S name s) → indexed S acc → indexed S' acc.
Proof.
  intros Hext (H1 & H2 & H3 & H4). split_and!; [done| |done|].
  - intros s. rewrite H2. by setoid_rewrite Hext.
  - intros s inds Hl. destruct (H4 s inds Hl) as [Hne Hin]. split; [done|].
    intros name. by rewrite Hin, Hext.
Qed.

Lemma index_symbol_indexed (S : string → string → Prop) (industry symbol : string) acc :
  indexed S acc →
  indexed (λ name s, S name s ∨ (name = industry ∧ s = symbol))
    (index_symbol industry acc symbol).
Proof.
  destruct acc as [allSymbols s2i]. intros (H1 & H2 & H3 & H4). simpl in *.
  split_and!; simpl.
  - case_decide; [done|]. apply NoDup_app. split_and!; [done| |apply NoDup_singleton].
    intros x Hx ->%list_elem_of_singleton. done.
  - intros s. case_decide as Hin.
    + rewrite H2. split; [intros [name ?]; exists name; by left|].
      intros (name & [?|[-> ->]]); [by exists name | by apply H2].
    + rewrite elem_of_app, list_elem_of_singleton, H2. split.
      * intros [[name ?]| ->]; [exists name; by left | exists industry; by right].
      * intros (name & [?|[-> ->]]); [left; by exists name | by right].
  - intros s. destruct (decide (s = symbol)) as [->|Hne].
    + rewrite lookup_insert_eq. split; [done|]. intros Hnot. exfalso. apply Hnot.
      case_decide; [done|]. apply elem_of_app. right. by apply list_elem_of_singleton.
    + rewrite lookup_insert_ne by done. rewrite H3.
      case_decide; [done|]. rewrite elem_of_app, list_elem_of_singleton. tauto.
  - intros s inds. destruct (decide (s = symbol)) as [->|Hne].
    + rewrite lookup_insert_eq. intros [= <-]. split.
      * by destruct (default [] (s2i !! symbol)).
      * intros name. rewrite elem_of_app, list_elem_of_singleton.
        destruct (s2i !! symbol) as [old|] eqn:Hold; simpl.
        -- destruct (H4 symbol old Hold) as [_ Hin]. rewrite Hin. tauto.
        -- rewrite elem_of_nil. apply H3 in Hold. rewrite H2 in Hold. split.
           ++ intros [[]| ->]. by right.
           ++ intros [?|[-> _]]; [|by right]. exfalso. apply Hold. by exists name.
    + rewrite lookup_insert_ne by done. intros Hl.
      destruct (H4 s inds Hl) as [Hnil Hin]. split; [done|].
      intros name. rewrite Hin. split; [by left|]. intros [?|[_ ?]]; done.
Qed.

Lemma index_members_indexed (S : string → string → Prop) (industry : string)
    (members : list string) acc :
  indexed S acc →
  indexed (λ name s, S name s ∨ (name = industry ∧ s ∈ members))
    (foldl (index_symbol industry) acc members).
Proof.
  revert S acc. induction members as [|m members IH]; intros S acc Hacc; simpl.
  - eapply indexed_ext; [|done]. intros name s. split; [|by left].
    intros [?|[_ Hs]]; [done | by apply elem_of_nil in Hs].
  - eapply indexed_ext; [|apply IH, index_symbol_indexed, Hacc].
    intros name s. simpl. rewrite elem_of_cons. tauto.
Qed.

Lemma index_industries_indexed (data : list (string * list string)) :
  indexed (listed data) (index_industries data).
Proof.
  unfold index_industries.
  assert (Hgen : ∀ (S : string → string → Prop) acc, indexed S acc →
            indexed (λ name s, S name s ∨ listed data name s)
              (foldl (λ acc entry, foldl (index_symbol entry.1) acc (limited entry.2))
                 acc data)).
  { induction data as [|[industry members] data IH]; intros S acc Hacc; simpl.
    - eapply indexed_ext; [|done]. intros name s. split; [|by left].
      intros [?|(m & Hm & _)]; [done | by apply elem_of_nil in Hm].
    - eapply indexed_ext; [|apply IH, index_members_indexed, Hacc].
      intros name s. simpl. unfold listed, limited. simpl. split.
      + intros [?|(m & [[= -> ->]|Hm]%elem_of_cons & Hs)].
        * by left; left.
        * left. right. done.
        * right. by exists m.
      + intros [[?|[-> Hs]]|(m & Hm & Hs)].
        * by left.
        * right. exists members. split; [by left | done].
        * right. exists m. split; [by right | done]. }
  eapply indexed_ext; [|apply (Hgen (λ _ _, False))].
  - intros name s. simpl. tauto.
  - split_and!; simpl.
    + apply NoDup_nil_2.
    + intros s. rewrite elem_of_nil. split; [done | by intros [? []]].
    + intros s. rewrite lookup_empty, elem_of_nil. tauto.
    + intros s inds. by rewrite lookup_empty.
Qed.

(** X4. The industry endpoint asks the fetcher for each symbol of the index
    once: its symbol list has no duplicate and holds exactly the listed
    symbols; its symbol-to-industries index is defined exactly on them, and
    for each of them it names exactly the labels that list the symbol, at
    least one. *)
Theorem index_industries_correct (data : list (string * list string)) :
  let allSymbols := (index_industries data).1 in
  let symbolToIndustries := (index_industries data).2 in
  NoDup allSymbols
  ∧ (∀ s, s ∈ allSymbols ↔ ∃ name, listed data name s)
  ∧ (∀ s, symbolToIndustries !! s = None ↔ ¬ ∃ name, listed data name s)
  ∧ (∀ s inds, symbolToIndustries !! s = Some inds →
       inds ≠ [] ∧ ∀ name, name ∈ inds ↔ listed data name s).
Proof.
  destruct (index_industries_indexed data) as (H1 & H2 & H3 & H4).
  split_and!; [done..| |done]. intros s. by rewrite H3, H2.
Qed.

(** ** The industries of a response *)

Lemma preload_nonempty (src : ReadOutcome) (r : Registry) :
  industryData (preloadExcelData src r) ≠ [].
Proof.
  destruct src as [rows|]; cbn [preloadExcelData]; [|done].
  destruct (load_rows rows [] (allSymbolsSet r)) as [[ind|] syms]; [|done].
  by destruct ind.
Qed.

Lemma fetch_symbols_asked (FORCE_CACHE_BYPASS : bool) (nseIndia : Provider)
    (reg : Registry) (symbols : list string) (batchSize : positive)
    (forceRefresh : bool) (w : World) (q : Quote) :
  q ∈ (fetchEquityDetailsInBatches FORCE_CACHE_BYPASS nseIndia reg symbols batchSize
         forceRefresh w).1.1 →
  symbol q ∈ symbols.
Proof.
  unfold fetchEquityDetailsInBatches.
  set (valid := filter (λ sym, valid_symbol reg sym = true) symbols).
  assert (Hvalid : valid ⊆ symbols).
  { intros s Hs. by apply list_elem_of_filter in Hs as [_ ?]. }
  pose proof (cache_phase_symbols valid w) as [Hhits Hun].
  destruct (negb forceRefresh && negb FORCE_CACHE_BYPASS).
  - destruct (cache_phase valid w) as [[hits un] w1]. cbn [fst snd] in *.
    pose proof (fetch_batches_symbols nseIndia 0 (make_batches batchSize un) w1 q) as Hf.
    destruct (fetch_batches nseIndia 0 (make_batches batchSize un) w1) as [fetched w2].
    cbn [fst snd] in *. intros [Hq|Hq]%elem_of_app; apply Hvalid.
    + by apply Hhits.
    + apply Hun. unfold make_batches in Hf. by eapply slices_subseteq, Hf.
  - pose proof (fetch_batches_symbols nseIndia 0 (make_batches batchSize valid) w q) as Hf.
    destruct (fetch_batches nseIndia 0 (make_batches batchSize valid) w) as [fetched w2].
    cbn [fst snd app] in *. intros Hq. apply Hvalid.
    unfold make_batches in Hf. by eapply slices_subseteq, Hf.
Qed.

Lemma industry_quotes_symbols (FORCE_CACHE_BYPASS : bool) (nseIndia : Provider)
    (reg : Registry) (forceRefresh : bool) (w : World) (q : Quote) :
  q ∈ (industry_quotes FORCE_CACHE_BYPASS nseIndia reg forceRefresh w).1.1 →
  symbol q ∈ (index_industries (industryData reg)).1.
Proof.
  unfold industry_quotes.
  destruct (index_industries (industryData reg)) as [allSymbols s2i]. cbn [fst].
  pose proof (fetch_symbols_asked FORCE_CACHE_BYPASS nseIndia reg allSymbols BATCH_SIZE
                forceRefresh w q) as Hf.
  destruct (fetchEquityDetailsInBatches _ _ _ _ _ _ _) as [[validResults cached] w1].
  cbn [fst snd] in *. case_bool_decide; [|done].
  rewrite cached_pass_cache_phase. cbn [fst].
  apply (proj1 (cache_phase_symbols allSymbols w1)).
Qed.

Lemma aggregate_elem (symbolToIndustries : gmap string (list string))
    (quotes : list Quote) (ind : IndustryAggregate) :
  ind ∈ aggregate symbolToIndustries quotes ↔
  ∃ name m, (name, m) ∈ collect_metrics symbolToIndustries quotes
            ∧ ind = summarize (name, m).
Proof.
  unfold aggregate. rewrite js_sort_elem_of, list_elem_of_filter, list_elem_of_fmap.
  destruct (collect_metrics_spec symbolToIndustries quotes) as [[_ Hsound] _]. split.
  - intros [_ ([name m] & -> & Hin)]. by exists name, m.
  - intros (name & m & Hin & ->). split; [|by exists (name, m)].
    destruct (Hsound name m Hin) as (Hc & _ & Hne & _). simpl. rewrite Hc.
    destruct (bucket m); [done | simpl; lia].
Qed.

Lemma aggregate_labels_NoDup (symbolToIndustries : gmap string (list string))
    (quotes : list Quote) :
  NoDup (industry <$> aggregate symbolToIndustries quotes).
Proof.
  unfold aggregate. rewrite js_sort_Permutation.
  destruct (collect_metrics_spec symbolToIndustries quotes) as [[Hnd _] _].
  revert Hnd. generalize (collect_metrics symbolToIndustries quotes).
  induction l as [|[name m] l IH]; intros Hnd; [apply NoDup_nil_2|].
  apply NoDup_cons in Hnd as [Hname Hnd]. rewrite fmap_cons.
  assert (Htail : ∀ x, x ∈ industry <$> filter (λ ind, (0 < stockCount ind)%nat)
                               (summarize <$> l) → x ∈ l.*1).
  { intros x ([] & -> & [_ ([n' m'] & [= -> -> -> -> ->] & Hin)%list_elem_of_fmap]
                %list_elem_of_filter)%list_elem_of_fmap.
    simpl. apply list_elem_of_fmap. by exists (n', m'). }
  destruct (decide (0 < stockCount (summarize (name, m)))%nat).
  - rewrite filter_cons_True by done. rewrite fmap_cons. apply NoDup_cons.
    split; [|by apply IH]. intros Hin. by apply Hname, Htail.
  - rewrite filter_cons_False by done. by apply IH.
Qed.

Lemma aggregate_nonempty (symbolToIndustries : gmap string (list string))
    (quotes : list Quote) (q : Quote) :
  q ∈ quotes → industries_of symbolToIndustries q ≠ [] →
  aggregate symbolToIndustries quotes ≠ [].
Proof.
  intros Hq Hinds.
  destruct (industries_of symbolToIndustries q) as [|name names] eqn:E; [done|].
  destruct (collect_metrics_spec symbolToIndustries quotes) as [_ Hcomplete].
  destruct (Hcomplete q name Hq) as (m & Hm & _); [rewrite E; by left|].
  apply assoc_elem_of in Hm.
  assert (Hin : summarize (name, m) ∈ aggregate symbolToIndustries quotes).
  { apply aggregate_elem. by exists name, m. }
  intros Hnil. rewrite Hnil in Hin. by apply elem_of_nil in Hin.
Qed.

(** X5. In every answer of the industry endpoint the industries carry
    distinct labels, each a label of the industry index (the stand-in label
    for unmapped symbols never shows up); each industry holds at least one
    stock, and each of its stocks is a symbol the index lists under that
    label. *)
Theorem industry_data_industries (FORCE_CACHE_BYPASS : bool) (nseIndia : Provider)
    (reg : Registry) (forceRefresh : bool) (w : World) :
  let industries :=
    response_industries
      (industry_data FORCE_CACHE_BYPASS nseIndia reg forceRefresh w).1 in
  NoDup (industry <$> industries)
  ∧ ∀ ind, ind ∈ industries →
      industry ind ∈ (industryData reg).*1
      ∧ stocks ind ≠ []
      ∧ ∀ q, q ∈ stocks ind → listed (industryData reg) (industry ind) (symbol q).
Proof.
  intros industries. subst industries. unfold industry_data.
  case_bool_decide.
  { cbn [fst response_industries body]. split; [apply NoDup_nil_2|].
    intros ind Hin. by apply elem_of_nil in Hin. }
  pose proof (industry_quotes_symbols FORCE_CACHE_BYPASS nseIndia reg forceRefresh w)
    as Hsym.
  destruct (industry_quotes _ _ _ _ _) as [[validResults cached] w1]. cbn [fst] in Hsym.
  case_bool_decide.
  { cbn [fst response_industries body]. split; [apply NoDup_nil_2|].
    intros ind Hin. by apply elem_of_nil in Hin. }
  cbn [fst response_industries body].
  split; [apply aggregate_labels_NoDup|].
  destruct (index_industries_indexed (industryData reg)) as (_ & H2 & H3 & H4).
  intros ind (name & m & Hin & ->)%aggregate_elem.
  destruct (collect_metrics_spec (index_industries (industryData reg)).2 validResults)
    as [[_ Hsound] _].
  destruct (Hsound name m Hin) as (_ & _ & Hne & Hmem).
  assert (Hlisted : ∀ q, q ∈ bucket m → listed (industryData reg) name (symbol q)).
  { intros q Hq. destruct (Hmem q Hq) as [Hqv Hname].
    unfold industries_of in Hname.
    destruct ((index_industries (industryData reg)).2 !! symbol q) as [inds|] eqn:E.
    - simpl in Hname. by apply (H4 _ _ E).
    - apply H3 in E. by destruct E; apply Hsym. }
  cbn [summarize industry stocks]. split_and!.
  - destruct (bucket m) as [|q0 rest] eqn:Eb; [done|].
    destruct (Hlisted q0) as (members & Hm & _); [by left|].
    apply list_elem_of_fmap. by exists (name, members).
  - intros Hnil. apply Hne. apply Permutation_nil_r.
    rewrite <- Hnil. by rewrite js_sort_Permutation.
  - intros q Hq. apply Hlisted. by rewrite js_sort_elem_of in Hq.
Qed.

(** X6. Once [preloadExcelData] has run, the industry endpoint never answers
    with the warning for a missing industry index: it answers 200, either
    with an empty list and the warning that no valid data was retrieved, or
    with at least one industry and no warning. *)
Theorem industry_data_after_preload (FORCE_CACHE_BYPASS : bool) (nseIndia : Provider)
    (src : ReadOutcome) (r : Registry) (forceRefresh : bool) (w : World) :
  let reg := preloadExcelData src r in
  let response := (industry_data FORCE_CACHE_BYPASS nseIndia reg forceRefresh w).1 in
  status response = 200%nat
  ∧ ((∃ cached t, body response
                  = IndustryBody [] cached t (Some "No valid industry data retrieved"))
     ∨ (∃ industries cached t,
          industries ≠ [] ∧ body response = IndustryBody industries cached t None)).
Proof.
  intros reg response. subst response. unfold industry_data.
  rewrite bool_decide_eq_false_2.
  2:{ pose proof (preload_nonempty src r) as Hne. fold reg in Hne.
      by destruct (industryData reg). }
  pose proof (industry_quotes_symbols FORCE_CACHE_BYPASS nseIndia reg forceRefresh w)
    as Hsym.
  destruct (industry_quotes _ _ _ _ _) as [[validResults cached] w1]. cbn [fst] in Hsym.
  case_bool_decide as Hlen; cbn [fst status body].
  - split; [done|]. left. by eexists _, _.
  - split; [done|]. right. eexists _, _, _. split; [|done].
    destruct validResults as [|q rest]; [done|].
    apply (aggregate_nonempty _ _ q); [by left|].
    destruct (index_industries_indexed (industryData reg)) as (_ & _ & H3 & H4).
    unfold industries_of.
    destruct ((index_industries (industryData reg)).2 !! symbol q) as [inds|] eqn:E.
    + simpl. by apply (H4 _ _ E).
    + apply H3 in E. destruct E. apply Hsym. by left.
Qed.

(** ** The batches *)

Lemma slices_shape {A : Type} (fuel n : nat) (l : list A) :
  (0 < n)%nat → (length l ≤ fuel)%nat →
  Forall (λ b, (0 < length b ≤ n)%nat) (slices fuel n l)
  ∧ (∀ i b, slices fuel n l !! i = Some b → (S i < length (slices fuel n l))%nat →
       length b = n)
  ∧ (length l ≤ length (slices fuel n l) * n)%nat
  ∧ (length (slices fuel n l) * n < length l + n)%nat.
Proof.
  intros Hn. revert l. induction fuel as [|fuel IH]; intros l Hl.
  - destruct l; [|simpl in Hl; lia]. simpl. split_and!; [done| |lia..].
    intros i b Hi. done.
  - destruct l as [|x l]; [simpl; split_and!; [done| |lia..]; by intros i b Hi|].
    cbn [slices].
    assert (Hdrop : (length (drop n (x :: l)) ≤ fuel)%nat).
    { rewrite length_drop. simpl in *. lia. }
    destruct (IH _ Hdrop) as (H1 & H2 & H3 & H4).
    assert (Htake : length (take n (x :: l)) = Nat.min n (length (x :: l)))
      by apply length_take.
    rewrite length_drop in H3, H4. cbn [length] in *.
    split_and!.
    + constructor; [lia | done].
    + intros [|i] b Hi Hlast; simpl in Hi.
      * injection Hi as <-.
        destruct (slices fuel n (drop n (x :: l))) eqn:E; [simpl in Hlast; lia|].
        simpl in H4. lia.
      * apply (H2 i b Hi). lia.
    + lia.
    + destruct (slices fuel n (drop n (x :: l))) eqn:E; simpl in *; lia.
Qed.

(** X7. The batches cut from a list of symbols are its consecutive pieces:
    put end to end they give the list back; none is empty or longer than the
    batch size, every batch but the last has exactly that size, and their
    number is the length of the list divided by the batch size, rounded
    up. *)
Theorem make_batches_shape {A : Type} (batchSize : positive) (l : list A) :
  let batches := make_batches batchSize l in
  let n := Pos.to_nat batchSize in
  concat batches = l
  ∧ Forall (λ b, (0 < length b ≤ n)%nat) batches
  ∧ (∀ i b, batches !! i = Some b → (S i < length batches)%nat → length b = n)
  ∧ (length l ≤ length batches * n)%nat
  ∧ (length batches * n < length l + n)%nat.
Proof.
  intros batches n. subst batches n. split; [apply make_batches_concat|].
  apply slices_shape; lia.
Qed.

(** ** Provider traffic *)

Lemma issue_requests_Some (nseIndia : Provider) (batch : list string) (w : World) r :
  (issue_requests nseIndia batch w).1 = Some r →
  (issue_requests nseIndia batch w).2 = after_requests batch w.
Proof.
  revert w r. induction batch as [|s batch IH]; intros w r; [done|].
  cbn [issue_requests after_requests foldl].
  destruct (getEquityDetails nseIndia (requests w) s); [done|..];
    specialize (IH (count_request s w));
    destruct (issue_requests nseIndia batch (count_request s w)) as [[r'|] w2];
    simpl in *; try done; intros _; by apply (IH r').
Qed.

Lemma try_batch_Some (nseIndia : Provider) (batch : list string) (w : World) quotes :
  (try_batch nseIndia batch w).1 = Some quotes →
  (try_batch nseIndia batch w).2
  = foldl cache_quote
      (elapse (Z.of_N (latency nseIndia (requests w + length batch))) (after_requests batch w))
      quotes.
Proof.
  unfold try_batch. pose proof (issue_requests_Some nseIndia batch w) as Hw.
  destruct (issue_requests nseIndia batch w) as [[r|] w1]; [|done].
  simpl in *. intros [= <-]. rewrite (Hw r eq_refl).
  by destruct (after_requests_cache batch w) as (_ & _ & -> & _).
Qed.

Lemma try_batch_Some_world (nseIndia : Provider) (batch : list string) (w : World) quotes :
  (try_batch nseIndia batch w).1 = Some quotes →
  let w' := (try_batch nseIndia batch w).2 in
  trace w' = trace w ++ (EvRequest <$> batch)
  ∧ requests w' = (requests w + length batch)%nat
  ∧ now w' = now w + Z.of_N (latency nseIndia (requests w + length batch)).
Proof.
  intros Hq. cbn zeta. rewrite (try_batch_Some _ _ _ _ Hq).
  destruct (foldl_cache_quote_quiet quotes
              (elapse (Z.of_N (latency nseIndia (requests w + length batch)))
                 (after_requests batch w))) as (-> & -> & ->).
  simpl. by destruct (after_requests_cache batch w) as (_ & -> & -> & ->).
Qed.

Lemma retry_batch_first_try (nseIndia : Provider) (index : nat) (batch : list string)
    (attempts : nat) (w : World) quotes :
  (try_batch nseIndia batch w).1 = Some quotes →
  retry_batch nseIndia index batch (S attempts) w
  = (quotes, (try_batch nseIndia batch w).2).
Proof.
  cbn [retry_batch]. destruct (try_batch nseIndia batch w) as [[q|] w1]; [|done].
  by intros [= ->].
Qed.

Lemma try_batch_no_throw (nseIndia : Provider) (batch : list string) (w : World) :
  (∀ n s, getEquityDetails nseIndia n s ≠ Throws) →
  ∃ quotes, (try_batch nseIndia batch w).1 = Some quotes.
Proof.
  intros Hok. unfold try_batch.
  rewrite (issue_requests_settle nseIndia batch w) by (intros; apply Hok).
  by eexists.
Qed.

Lemma cache_phase_quiet (l : list string) (w : World) :
  requests (cache_phase l w).2 = requests w ∧ trace (cache_phase l w).2 = trace w.
Proof.
  revert w. induction l as [|s l IH]; intros w; [done|]. simpl.
  assert (Hget : requests (cache_get s w).2 = requests w
                 ∧ trace (cache_get s w).2 = trace w).
  { unfold cache_get. destruct (cache w !! s) as [[v t]|]; [case_match|]; done. }
  destruct (cache_get s w) as [cached w1]. specialize (IH w1).
  destruct (cache_phase l w1) as [[hits un] w2]. simpl in *.
  destruct IH as [IH1 IH2], Hget as [Hg1 Hg2].
  destruct cached as [e|]; [destruct (fresh e w1)|]; simpl; split; congruence.
Qed.

Lemma fetch_batches_traffic (nseIndia : Provider) (index : nat)
    (batches : list (list string)) (w : World) :
  (∀ n s, getEquityDetails nseIndia n s ≠ Throws) →
  trace (fetch_batches nseIndia index batches w).2 = trace w ++ batches_trace batches
  ∧ requests (fetch_batches nseIndia index batches w).2
    = (requests w + length (concat batches))%nat.
Proof.
  intros Hok. revert index w.
  induction batches as [|b rest IH]; intros index w.
  - simpl. by rewrite app_nil_r, Nat.add_0_r.
  - rewrite fetch_batches_cons. cbn [fst snd].
    destruct (try_batch_no_throw nseIndia b w Hok) as [quotes Hq].
    unfold MAX_RETRIES. rewrite (retry_batch_first_try _ _ _ _ _ _ Hq). cbn [snd].
    destruct (try_batch_Some_world _ _ _ _ Hq) as (Ht & Hr & _).
    destruct (IH (S index) (between_batches rest (try_batch nseIndia b w).2))
      as [-> ->].
    cbn [batches_trace concat]. rewrite length_app.
    destruct rest as [|b' rest]; cbn [between_batches].
    + rewrite Ht, Hr. simpl. split; [by rewrite !app_nil_r | lia].
    + unfold sleep. simpl trace. simpl requests. rewrite Ht, Hr.
      split; [by rewrite <- !app_assoc | lia].
Qed.

(** X8. When no call of the provider throws, a call of the fetcher asks the
    provider once for each symbol it must fetch, batch after batch in the
    order of the input, waits [BATCH_DELAY_MS] between two batches and at no
    other time, and reports no failed attempt.  With a forced refresh or the
    bypass switch the symbols to fetch are all the valid symbols and the
    [cached] flag is off. *)
Theorem fetch_traffic (FORCE_CACHE_BYPASS : bool) (nseIndia : Provider) (reg : Registry)
    (symbols : list string) (batchSize : positive) (forceRefresh : bool) (w : World) :
  (∀ n s, getEquityDetails nseIndia n s ≠ Throws) →
  let r := fetchEquityDetailsInBatches FORCE_CACHE_BYPASS nseIndia reg symbols batchSize
             forceRefresh w in
  let to_fetch := symbols_to_fetch FORCE_CACHE_BYPASS reg symbols forceRefresh w in
  trace r.2 = trace w ++ batches_trace (make_batches batchSize to_fetch)
  ∧ requests r.2 = (requests w + length to_fetch)%nat
  ∧ (forceRefresh || FORCE_CACHE_BYPASS = true →
     to_fetch = valid_symbols reg symbols ∧ r.1.2 = false).
Proof.
  intros Hok r to_fetch. subst r to_fetch.
  unfold fetchEquityDetailsInBatches, symbols_to_fetch. fold (valid_symbols reg symbols).
  destruct (negb forceRefresh && negb FORCE_CACHE_BYPASS) eqn:Hmode.
  - destruct (cache_phase_quiet (valid_symbols reg symbols) w) as [Hr Ht].
    destruct (cache_phase (valid_symbols reg symbols) w) as [[hits un] w1].
    cbn [fst snd] in *.
    destruct (fetch_batches_traffic nseIndia 0 (make_batches batchSize un) w1 Hok)
      as [Htr Hrq].
    destruct (fetch_batches nseIndia 0 (make_batches batchSize un) w1) as [fetched w2].
    cbn [fst snd] in *. rewrite Htr, Hrq, Ht, Hr, make_batches_concat.
    split_and!; [done..|]. destruct forceRefresh, FORCE_CACHE_BYPASS; done.
  - destruct (fetch_batches_traffic nseIndia 0
                (make_batches batchSize (valid_symbols reg symbols)) w Hok) as [Htr Hrq].
    destruct (fetch_batches nseIndia 0 _ w) as [fetched w2].
    cbn [fst snd] in *. rewrite Htr, Hrq, make_batches_concat.
    split_and!; [done..|]. intros _. split; [done|].
    destruct forceRefresh, FORCE_CACHE_BYPASS; simpl in *; try done;
      by rewrite ?andb_false_r.
Qed.

(** ** Calls served by the cache *)

Lemma cache_phase_all_hit (l : list string) (w : World) :
  (∀ s, s ∈ l → ∃ e t, cache w !! s = Some (e, t) ∧ now w ≤ t ∧ age e w < TTL_ms) →
  cache_phase l w
  = (omap (λ s, (λ et, quote_of_entry s et.1) <$> cache w !! s) l, [], w).
Proof.
  induction l as [|s l IH]; intros Hall; [done|].
  destruct (Hall s) as (e & t & Hl & Ht & Hage); [by left|].
  cbn [cache_phase omap]. unfold cache_get. rewrite Hl.
  destruct (t <? now w) eqn:Hlt; [apply Z.ltb_lt in Hlt; lia|].
  rewrite IH by (intros s' Hs'; apply Hall; by right).
  apply fresh_age in Hage. rewrite Hage. simpl. by rewrite Hl.
Qed.

(** X9. When every valid symbol of a call that consults the cache has a
    stored entry younger than 300 seconds which the store has not let
    expire, the call is served from the cache alone: it returns one quote
    per valid symbol, in order, built from the entries; it sets [cached]
    unless there is no valid symbol; and it leaves the world as it found it,
    without a call to the provider, a wait or a write to the cache. *)
Theorem fetch_served_from_cache (nseIndia : Provider) (reg : Registry)
    (symbols : list string) (batchSize : positive) (w : World) :
  (∀ s, s ∈ valid_symbols reg symbols →
     ∃ e t, cache w !! s = Some (e, t) ∧ now w ≤ t ∧ now w - timestamp e < 300 * 1000) →
  let r := fetchEquityDetailsInBatches false nseIndia reg symbols batchSize false w in
  r.2 = w
  ∧ symbol <$> r.1.1 = valid_symbols reg symbols
  ∧ (∀ q, q ∈ r.1.1 → ∃ e t, cache w !! symbol q = Some (e, t)
                             ∧ q = quote_of_entry (symbol q) e)
  ∧ r.1.2 = bool_decide (valid_symbols reg symbols ≠ []).
Proof.
  intros Hall r. subst r. unfold fetchEquityDetailsInBatches.
  fold (valid_symbols reg symbols). cbn [negb andb].
  rewrite (cache_phase_all_hit _ w Hall). cbn [make_batches length slices fetch_batches].
  cbn [fst snd]. rewrite app_nil_r.
  set (valid := valid_symbols reg symbols) in *.
  assert (Hquotes : ∀ l : list string,
            (∀ s, s ∈ l → ∃ e t, cache w !! s = Some (e, t)) →
            symbol <$> omap (λ s, (λ et, quote_of_entry s et.1) <$> cache w !! s) l = l).
  { induction l as [|s l IH]; intros Hl; [done|]. simpl.
    destruct (Hl s) as (e & t & He); [by left|]. rewrite He. simpl. f_equal.
    apply IH. intros s' Hs'. apply Hl. by right. }
  assert (Hsome : ∀ s, s ∈ valid → ∃ e t, cache w !! s = Some (e, t)).
  { intros s Hs. destruct (Hall s Hs) as (e & t & ? & _). by exists e, t. }
  split_and!.
  - done.
  - by apply Hquotes.
  - intros q (s & Hs & Hq)%list_elem_of_omap.
    destruct (cache w !! s) as [[e t]|] eqn:E; [|done]. simpl in Hq.
    injection Hq as <-. simpl. by exists e, t.
  - rewrite andb_true_r.
    pose proof (f_equal length (Hquotes valid Hsome)) as Hlen.
    rewrite length_fmap in Hlen. rewrite Hlen.
    destruct valid; [done|]. cbn [length].
    rewrite bool_decide_eq_true_2 by lia. by rewrite bool_decide_eq_true_2.
Qed.

(** ** What a fetch writes to the cache *)

Lemma stamped_since_frame (since : Z) (key : string) (w w' : World) :
  cache w' = cache w → now w ≤ now w' →
  stamped_since since key w → stamped_since since key w'.
Proof.
  intros Hc Hn (e & Hl & Ht). exists e. rewrite Hc. split; [done | lia].
Qed.

Lemma cache_quote_stamped (since : Z) (key : string) (w : World) (q : Quote) :
  since ≤ now w →
  (symbol q = key ∨ stamped_since since key w) →
  stamped_since since key (cache_quote w q).
Proof.
  intros Hsince Hcase. unfold stamped_since, cache_quote, cache_set. simpl.
  destruct (decide (symbol q = key)) as [->|Hne].
  - rewrite lookup_insert_eq. exists (entry_of q (now w)). split; [reflexivity|]. simpl. lia.
  - rewrite lookup_insert_ne by done. by destruct Hcase.
Qed.

Lemma foldl_cache_quote_effect (quotes : list Quote) (w : World) :
  (∀ since key, since ≤ now w →
     (key ∈ symbol <$> quotes ∨ stamped_since since key w) →
     stamped_since since key (foldl cache_quote w quotes))
  ∧ (∀ key, key ∉ symbol <$> quotes →
       cache (foldl cache_quote w quotes) !! key = cache w !! key).
Proof.
  revert w. induction quotes as [|q quotes IH]; intros w.
  - split; [|done]. intros since key _ [Hin|?]; [|done]. by apply elem_of_nil in Hin.
  - destruct (IH (cache_quote w q)) as [IH1 IH2]. cbn [foldl]. split.
    + intros since key Hsince Hcase. apply IH1; [done|].
      rewrite fmap_cons, elem_of_cons in Hcase.
      destruct (decide (key ∈ symbol <$> quotes)); [by left|]. right.
      apply cache_quote_stamped; [done|]. destruct Hcase as [[->|?]|?]; auto. done.
    + intros key Hkey. rewrite fmap_cons, not_elem_of_cons in Hkey.
      destruct Hkey as [Hne Hkey]. rewrite IH2 by done.
      unfold cache_quote, cache_set. simpl. by rewrite lookup_insert_ne.
Qed.

Lemma issue_requests_frame (nseIndia : Provider) (batch : list string) (w : World) :
  cache (issue_requests nseIndia batch w).2 = cache w
  ∧ now (issue_requests nseIndia batch w).2 = now w.
Proof.
  split; [apply issue_requests_cache|].
  revert w. induction batch as [|s batch IH]; intros w; [done|]. cbn [issue_requests].
  destruct (getEquityDetails nseIndia (requests w) s); [done|..];
    specialize (IH (count_request s w));
    by destruct (issue_requests nseIndia batch (count_request s w)).
Qed.

Lemma try_batch_effect (nseIndia : Provider) (batch : list string) (w : World) :
  let r := try_batch nseIndia batch w in
  let quotes := default [] r.1 in
  now w ≤ now r.2
  ∧ (∀ since key, since ≤ now w →
       (key ∈ symbol <$> quotes ∨ stamped_since since key w) →
       stamped_since since key r.2)
  ∧ (∀ key, key ∉ symbol <$> quotes → cache r.2 !! key = cache w !! key).
Proof.
  unfold try_batch. destruct (issue_requests_frame nseIndia batch w) as [Hc Hn].
  destruct (issue_requests nseIndia batch w) as [[answers|] w1]; cbn [fst snd] in *.
  - set (quotes := omap (λ sr, quote_of_result sr.1 sr.2) answers).
    set (w2 := elapse (Z.of_N (latency nseIndia (requests w1))) w1).
    assert (Hn2 : now w ≤ now w2) by (subst w2; simpl; lia).
    destruct (foldl_cache_quote_effect quotes w2) as [H1 H2].
    destruct (foldl_cache_quote_quiet quotes w2) as (Hnow & _ & _).
    cbn [default]. split_and!.
    + lia.
    + intros since key Hsince Hcase. apply H1; [lia|].
      destruct Hcase as [?|Hs]; [by left|]. right.
      by apply (stamped_since_frame since key w).
    + intros key Hkey. by rewrite H2, <- Hc.
  - cbn [default]. split_and!; [lia| |by intros; rewrite Hc].
    intros since key _ [Hin|Hs]; [by apply elem_of_nil in Hin|].
    apply (stamped_since_frame since key w); [done | lia | done].
Qed.

Lemma retry_batch_effect (nseIndia : Provider) (index : nat) (batch : list string)
    (attempts : nat) (w : World) :
  let r := retry_batch nseIndia index batch attempts w in
  now w ≤ now r.2
  ∧ (∀ since key, since ≤ now w →
       (key ∈ symbol <$> r.1 ∨ stamped_since since key w) →
       stamped_since since key r.2)
  ∧ (∀ key, key ∉ symbol <$> r.1 → cache r.2 !! key = cache w !! key).
Proof.
  revert w. induction attempts as [|n IH]; intros w.
  - simpl. split_and!; [lia| |done].
    intros since key _ [Hin|?]; [by apply elem_of_nil in Hin | done].
  - cbn [retry_batch]. destruct (try_batch_effect nseIndia batch w) as (T1 & T2 & T3).
    destruct (try_batch nseIndia batch w) as [[quotes|] w1]; cbn [fst snd default] in *.
    { by split_and!. }
    set (w2 := emit (EvBatchError (index + 1) (MAX_RETRIES + 1 - S n)) w1).
    assert (Hnext : ∀ w3, cache w3 = cache w1 → now w1 ≤ now w3 →
      let r := retry_batch nseIndia index batch n w3 in
      now w ≤ now r.2
      ∧ (∀ since key, since ≤ now w →
           (key ∈ symbol <$> r.1 ∨ stamped_since since key w) →
           stamped_since since key r.2)
      ∧ (∀ key, key ∉ symbol <$> r.1 → cache r.2 !! key = cache w !! key)).
    { intros w3 Hc3 Hn3. destruct (IH w3) as (I1 & I2 & I3). cbn zeta. split_and!.
      - lia.
      - intros since key Hsince Hcase. apply I2; [lia|].
        destruct Hcase as [?|Hs]; [by left|]. right.
        apply (stamped_since_frame since key w1); [done..|].
        apply T2; [done | by right].
      - intros key Hkey. rewrite I3, Hc3 by done. apply T3.
        intros Hin. by apply elem_of_nil in Hin. }
    case_match; apply Hnext; simpl; (done || lia).
Qed.

(** X10. Whatever the provider does, after the loop over the batches the
    store holds, for the symbol of each returned quote, an entry stamped
    during the call and kept for 300 seconds from its stamp, and it holds
    for every other key what it held before: a symbol that failed, was
    malformed or was given up neither gains nor loses its entry; and the
    clock has not gone back. *)
Theorem fetch_batches_cache_effect (nseIndia : Provider) (index : nat)
    (batches : list (list string)) (w : World) :
  let r := fetch_batches nseIndia index batches w in
  now w ≤ now r.2
  ∧ (∀ q, q ∈ r.1 → stamped_since (now w) (symbol q) r.2)
  ∧ (∀ key, key ∉ symbol <$> r.1 → cache r.2 !! key = cache w !! key).
Proof.
  assert (Hgen : ∀ batches index w,
    let r := fetch_batches nseIndia index batches w in
    now w ≤ now r.2
    ∧ (∀ since key, since ≤ now w →
         (key ∈ symbol <$> r.1 ∨ stamped_since since key w) →
         stamped_since since key r.2)
    ∧ (∀ key, key ∉ symbol <$> r.1 → cache r.2 !! key = cache w !! key)).
  { clear. induction batches as [|b rest IH]; intros index w.
    - simpl. split_and!; [lia| |done].
      intros since key _ [Hin|?]; [by apply elem_of_nil in Hin | done].
    - rewrite fetch_batches_cons. cbn [fst snd].
      destruct (retry_batch_effect nseIndia index b MAX_RETRIES w) as (R1 & R2 & R3).
      set (r1 := retry_batch nseIndia index b MAX_RETRIES w) in *.
      assert (Hb : cache (between_batches rest r1.2) = cache r1.2
                   ∧ now r1.2 ≤ now (between_batches rest r1.2)).
      { unfold between_batches, BATCH_DELAY_MS. destruct rest; simpl; split; (done || lia). }
      destruct Hb as [Hbc Hbn].
      destruct (IH (S index) (between_batches rest r1.2)) as (I1 & I2 & I3).
      set (r2 := fetch_batches nseIndia (S index) rest (between_batches rest r1.2)) in *.
      split_and!.
      + lia.
      + intros since key Hsince Hcase. apply I2; [lia|].
        rewrite fmap_app, elem_of_app in Hcase.
        destruct (decide (key ∈ symbol <$> r2.1)); [by left|]. right.
        apply (stamped_since_frame since key r1.2); [done..|].
        apply R2; [done|]. destruct Hcase as [[?|?]|?]; auto. done.
      + intros key Hkey. rewrite fmap_app, elem_of_app in Hkey.
        rewrite I3, Hbc by tauto. apply R3. tauto. }
  intros r. destruct (Hgen batches index w) as (H1 & H2 & H3). split_and!; [done| |done].
  intros q Hq. apply H2; [done|]. left. apply list_elem_of_fmap. by exists q.
Qed.

Lemma quote_of_entry_of (q : Quote) (t : Z) : quote_of_entry (symbol q) (entry_of q t) = q.
Proof. by destruct q as [s [p l] [c]]. Qed.

(** X11. A quote written to the cache is served again for the next 300
    seconds and not after: read back less than 300000 ms later it is a cache
    hit that returns the very quote and leaves the store alone; read back at
    300000 ms or later it is a miss, and its symbol goes to the fetch path. *)
Theorem cached_quote_served_for_ttl (w : World) (q : Quote) (d : Z) :
  0 ≤ d →
  let w' := elapse d (cache_quote w q) in
  (d < 300 * 1000 → cache_phase [symbol q] w' = ([q], [], w'))
  ∧ (300 * 1000 ≤ d → (cache_phase [symbol q] w').1 = ([], [symbol q])).
Proof.
  intros Hd w'.
  assert (Hl : cache w' !! symbol q
               = Some (entry_of q (now w), now w + stdTTL * 1000)).
  { subst w'. unfold cache_quote, cache_set. simpl. by rewrite lookup_insert_eq. }
  assert (Hnow : now w' = now w + d) by done.
  cbn [cache_phase]. unfold cache_get. rewrite Hl. unfold stdTTL. split; intros Hcase.
  - destruct (now w + 300 * 1000 <? now w') eqn:Hlt; [apply Z.ltb_lt in Hlt; lia|].
    assert (Hf : fresh (entry_of q (now w)) w' = true).
    { apply fresh_age. unfold age, TTL_ms. simpl. lia. }
    rewrite Hf. by rewrite quote_of_entry_of.
  - destruct (now w + 300 * 1000 <? now w') eqn:Hlt; [done|].
    assert (Hf : fresh (entry_of q (now w)) w' = false).
    { apply not_true_is_false. intros Hf%fresh_age. unfold age, TTL_ms in Hf.
      simpl in Hf. lia. }
    by rewrite Hf.
Qed.

(** ** Which quotes a call returns *)

Lemma omap_quotes_sublist (answers : list (string * option EquityDetails)) :
  sublist (symbol <$> omap (λ sr, quote_of_result sr.1 sr.2) answers) answers.*1.
Proof.
  induction answers as [|[s r] answers IH]; [done|]. simpl.
  destruct (quote_of_result s r) as [q|] eqn:E; simpl.
  - apply quote_of_result_symbol in E as ->. by apply sublist_skip.
  - by apply sublist_cons.
Qed.

Lemma try_batch_sublist (nseIndia : Provider) (batch : list string) (w : World) :
  sublist (symbol <$> default [] (try_batch nseIndia batch w).1) batch.
Proof.
  unfold try_batch. pose proof (issue_requests_symbols nseIndia batch w) as Hs.
  destruct (issue_requests nseIndia batch w) as [[answers|] w1]; simpl in *.
  - rewrite <- (Hs answers eq_refl). apply omap_quotes_sublist.
  - apply sublist_nil_l.
Qed.

Lemma retry_batch_sublist (nseIndia : Provider) (index : nat) (batch : list string)
    (attempts : nat) (w : World) :
  sublist (symbol <$> (retry_batch nseIndia index batch attempts w).1) batch.
Proof.
  revert w. induction attempts as [|n IH]; intros w; [apply sublist_nil_l|].
  cbn [retry_batch]. pose proof (try_batch_sublist nseIndia batch w) as Ht.
  destruct (try_batch nseIndia batch w) as [[quotes|] w1]; [done|].
  case_match; apply IH.
Qed.

Lemma fetch_batches_sublist (nseIndia : Provider) (index : nat)
    (batches : list (list string)) (w : World) :
  sublist (symbol <$> (fetch_batches nseIndia index batches w).1) (concat batches).
Proof.
  revert index w. induction batches as [|b rest IH]; intros index w; [done|].
  rewrite fetch_batches_cons. cbn [fst concat]. rewrite fmap_app.
  apply sublist_app; [apply retry_batch_sublist | apply IH].
Qed.

Lemma numeric_answers_complete (g : nat → string → ProviderOutcome) (batch : list string)
    (k : nat) :
  (∀ n s, ∃ p l, numeric_payload (g n s) p l) →
  symbol <$> omap (λ sr, quote_of_result sr.1 sr.2)
               (imap (λ i s, (s, settled (g (k + i)%nat s))) batch)
  = batch.
Proof.
  intros Hnum. revert k. induction batch as [|s batch IH]; intros k; [done|].
  cbn [imap]. simpl.
  destruct (Hnum (k + 0)%nat s) as (p & l & Hpl).
  destruct (numeric_payload_quote s _ p l Hpl) as (q & -> & Hs & _). simpl.
  f_equal; [done|].
  rewrite <- (IH (S k)) at 2. do 2 f_equal.
  apply imap_ext. intros i s' _. simpl. by rewrite Nat.add_succ_r.
Qed.

Lemma numeric_not_throws (o : ProviderOutcome) p l : numeric_payload o p l → o ≠ Throws.
Proof. by intros (d & pi & -> & _). Qed.

Lemma fetch_batches_complete (nseIndia : Provider) (index : nat)
    (batches : list (list string)) (w : World) :
  (∀ n s, ∃ p l, numeric_payload (getEquityDetails nseIndia n s) p l) →
  symbol <$> (fetch_batches nseIndia index batches w).1 = concat batches.
Proof.
  intros Hnum. revert index w. induction batches as [|b rest IH]; intros index w; [done|].
  rewrite fetch_batches_cons. cbn [fst concat]. rewrite fmap_app, IH. f_equal.
  assert (Hok : ∀ i s, b !! i = Some s →
            getEquityDetails nseIndia (requests w + i) s ≠ Throws).
  { intros i s _. destruct (Hnum (requests w + i)%nat s) as (p & l & Hpl).
    by eapply numeric_not_throws. }
  assert (Htry : (try_batch nseIndia b w).1
                 = Some (omap (λ sr, quote_of_result sr.1 sr.2)
                           (imap (λ i s, (s, settled (getEquityDetails nseIndia
                                                        (requests w + i) s))) b))).
  { unfold try_batch. by rewrite (issue_requests_settle nseIndia b w Hok). }
  unfold MAX_RETRIES. rewrite (retry_batch_first_try _ _ _ _ _ _ Htry). cbn [fst].
  by apply (numeric_answers_complete (getEquityDetails nseIndia)).
Qed.

Lemma cache_phase_partition (l : list string) (w : World) :
  (symbol <$> (cache_phase l w).1.1) ++ (cache_phase l w).1.2 ≡ₚ l.
Proof.
  revert w. induction l as [|s l IH]; intros w; [done|]. simpl.
  destruct (cache_get s w) as [cached w1]. specialize (IH w1).
  destruct (cache_phase l w1) as [[hits un] w2]. simpl in *.
  destruct cached as [e|]; [destruct (fresh e w1)|]; simpl.
  - by rewrite IH.
  - by rewrite <- Permutation_middle, IH.
  - by rewrite <- Permutation_middle, IH.
Qed.

(** X12. The quotes of a call follow its valid symbols: whatever the
    provider does, their symbols form a sub-multiset of the valid symbols,
    so no symbol gets more quotes than it has occurrences in the input, and
    with a forced refresh or the bypass switch they come in the order of the
    input.  When every call of the provider resolves with numeric [pChange]
    and [lastPrice], each valid symbol gets its quote. *)
Theorem fetch_quotes_follow_symbols (FORCE_CACHE_BYPASS : bool) (nseIndia : Provider)
    (reg : Registry) (symbols : list string) (batchSize : positive)
    (forceRefresh : bool) (w : World) :
  let quotes := (fetchEquityDetailsInBatches FORCE_CACHE_BYPASS nseIndia reg symbols
                   batchSize forceRefresh w).1.1 in
  symbol <$> quotes ⊆+ valid_symbols reg symbols
  ∧ (forceRefresh || FORCE_CACHE_BYPASS = true →
     sublist (symbol <$> quotes) (valid_symbols reg symbols))
  ∧ ((∀ n s, ∃ p l, numeric_payload (getEquityDetails nseIndia n s) p l) →
     symbol <$> quotes ≡ₚ valid_symbols reg symbols
     ∧ (forceRefresh || FORCE_CACHE_BYPASS = true →
        symbol <$> quotes = valid_symbols reg symbols)).
Proof.
  intros quotes. subst quotes. unfold fetchEquityDetailsInBatches.
  fold (valid_symbols reg symbols). set (valid := valid_symbols reg symbols).
  destruct (negb forceRefresh && negb FORCE_CACHE_BYPASS) eqn:Hmode.
  - assert (Hoff : forceRefresh || FORCE_CACHE_BYPASS = false)
      by (by destruct forceRefresh, FORCE_CACHE_BYPASS).
    rewrite Hoff. pose proof (cache_phase_partition valid w) as Hperm.
    destruct (cache_phase valid w) as [[hits un] w1]. cbn [fst snd] in *.
    pose proof (fetch_batches_sublist nseIndia 0 (make_batches batchSize un) w1) as Hsub.
    pose proof (fetch_batches_complete nseIndia 0 (make_batches batchSize un) w1) as Hall.
    rewrite make_batches_concat in Hsub, Hall.
    destruct (fetch_batches nseIndia 0 (make_batches batchSize un) w1) as [fetched w2].
    cbn [fst snd] in *. rewrite fmap_app. split_and!; [|done|].
    + rewrite <- Hperm. apply submseteq_app; [done|]. by apply sublist_submseteq.
    + intros Hnum. split; [|done]. by rewrite (Hall Hnum).
  - pose proof (fetch_batches_sublist nseIndia 0 (make_batches batchSize valid) w) as Hsub.
    pose proof (fetch_batches_complete nseIndia 0 (make_batches batchSize valid) w) as Hall.
    rewrite make_batches_concat in Hsub, Hall.
    destruct (fetch_batches nseIndia 0 (make_batches batchSize valid) w) as [fetched w2].
    cbn [fst snd app] in *. split_and!.
    + by apply sublist_submseteq.
    + done.
    + intros Hnum. by rewrite (Hall Hnum).
Qed.

(** ** The cost of a call *)

Lemma issue_requests_budget (nseIndia : Provider) (batch : list string) (w : World) :
  (requests w ≤ requests (issue_requests nseIndia batch w).2 ≤ requests w + length batch)%nat.
Proof.
  revert w. induction batch as [|s b IH]; intros w; [simpl; lia|].
  cbn [issue_requests length].
  destruct (getEquityDetails nseIndia (requests w) s); [simpl; lia|..];
    specialize (IH (count_request s w));
    destruct (issue_requests nseIndia b (count_request s w)); simpl in *; lia.
Qed.

Lemma try_batch_budget (nseIndia : Provider) (batch : list string) (w : World) :
  (requests w ≤ requests (try_batch nseIndia batch w).2 ≤ requests w + length batch)%nat.
Proof.
  unfold try_batch. pose proof (issue_requests_budget nseIndia batch w) as Hissue.
  destruct (issue_requests nseIndia batch w) as [[r|] w1]; simpl in *; [|done].
  by destruct (foldl_cache_quote_quiet
                 (omap (λ sr, quote_of_result sr.1 sr.2) r)
                 (elapse (Z.of_N (latency nseIndia (requests w1))) w1)) as (_ & -> & _).
Qed.

Lemma retry_batch_budget (nseIndia : Provider) (index : nat) (batch : list string)
    (attempts : nat) (w : World) :
  (requests w ≤ requests (retry_batch nseIndia index batch attempts w).2
   ≤ requests w + attempts * length batch)%nat.
Proof.
  revert w. induction attempts as [|n IH]; intros w; [simpl; lia|].
  cbn [retry_batch]. pose proof (try_batch_budget nseIndia batch w) as Htry.
  destruct (try_batch nseIndia batch w) as [[quotes|] w1]; simpl in *; [lia|].
  case_match.
  - specialize (IH (emit (EvBatchSkipped (index + 1))
                      (emit (EvBatchError (index + 1) (MAX_RETRIES + 1 - S n)) w1))).
    simpl in *. lia.
  - specialize (IH (sleep 1000
                      (emit (EvBatchError (index + 1) (MAX_RETRIES + 1 - S n)) w1))).
    simpl in *. lia.
Qed.

Lemma between_batches_quiet (rest : list (list string)) (w : World) :
  requests (between_batches rest w) = requests w
  ∧ failed_attempts (trace (between_batches rest w)) = failed_attempts (trace w).
Proof.
  destruct rest; [done|]. simpl. rewrite failed_attempts_snoc. simpl. split; lia.
Qed.

Lemma fetch_batches_budget (nseIndia : Provider) (index : nat)
    (batches : list (list string)) (w : World) :
  (requests w ≤ requests (fetch_batches nseIndia index batches w).2
   ≤ requests w + MAX_RETRIES * length (concat batches))%nat
  ∧ (failed_attempts (trace (fetch_batches nseIndia index batches w).2)
     ≤ failed_attempts (trace w) + MAX_RETRIES * length batches)%nat.
Proof.
  revert index w. induction batches as [|b rest IH]; intros index w; [simpl; lia|].
  rewrite fetch_batches_cons. cbn [snd concat length]. rewrite length_app.
  pose proof (retry_batch_budget nseIndia index b MAX_RETRIES w) as Hr.
  pose proof (retry_batch_attempts_bounded nseIndia index b MAX_RETRIES w) as Hf.
  set (w1 := (retry_batch nseIndia index b MAX_RETRIES w).2) in *.
  destruct (between_batches_quiet rest w1) as [Hb1 Hb2].
  destruct (IH (S index) (between_batches rest w1)) as [IH1 IH2].
  rewrite Hb1 in IH1. rewrite Hb2 in IH2. unfold MAX_RETRIES in *. lia.
Qed.

(** X13. The cost of a call is bounded whatever the provider does: it sends
    at most [MAX_RETRIES] = 5 requests for each symbol it has to fetch, of
    which there are no more than the symbols it was given, and it logs at
    most 5 failed attempts for each batch; the request counter never goes
    back. *)
Theorem fetch_request_budget (FORCE_CACHE_BYPASS : bool) (nseIndia : Provider)
    (reg : Registry) (symbols : list string) (batchSize : positive)
    (forceRefresh : bool) (w : World) :
  let r := fetchEquityDetailsInBatches FORCE_CACHE_BYPASS nseIndia reg symbols
             batchSize forceRefresh w in
  let to_fetch := symbols_to_fetch FORCE_CACHE_BYPASS reg symbols forceRefresh w in
  (requests w ≤ requests r.2 ≤ requests w + MAX_RETRIES * length to_fetch)%nat
  ∧ (length to_fetch ≤ length symbols)%nat
  ∧ (failed_attempts (trace r.2)
     ≤ failed_attempts (trace w)
       + MAX_RETRIES * length (make_batches batchSize to_fetch))%nat.
Proof.
  intros r to_fetch. subst r to_fetch.
  unfold fetchEquityDetailsInBatches, symbols_to_fetch.
  fold (valid_symbols reg symbols). set (valid := valid_symbols reg symbols).
  assert (Hvalid : (length valid ≤ length symbols)%nat) by apply length_filter.
  destruct (negb forceRefresh && negb FORCE_CACHE_BYPASS) eqn:Hmode.
  - pose proof (cache_phase_partition valid w) as Hperm.
    apply Permutation_length in Hperm. rewrite length_app in Hperm.
    destruct (cache_phase_quiet valid w) as [Hr Ht].
    destruct (cache_phase valid w) as [[hits un] w1]. cbn [fst snd] in *.
    destruct (fetch_batches_budget nseIndia 0 (make_batches batchSize un) w1) as [H1 H2].
    rewrite make_batches_concat in H1.
    destruct (fetch_batches nseIndia 0 (make_batches batchSize un) w1) as [fetched w2].
    cbn [fst snd] in *. rewrite Hr in H1. rewrite Ht in H2. split_and!; [lia..|done].
  - destruct (fetch_batches_budget nseIndia 0 (make_batches batchSize valid) w) as [H1 H2].
    rewrite make_batches_concat in H1.
    destruct (fetch_batches nseIndia 0 (make_batches batchSize valid) w) as [fetched w2].
    cbn [fst snd] in *. split_and!; [lia..|done].
Qed.

(** ** What the provider is asked *)

Lemma issue_requests_added (nseIndia : Provider) (batch : list string) (w : World) :
  ∃ added, trace (issue_requests nseIndia batch w).2 = trace w ++ added
           ∧ ∀ s, EvRequest s ∈ added → s ∈ batch.
Proof.
  revert w. induction batch as [|s0 b IH]; intros w.
  - exists []. simpl. split; [by rewrite app_nil_r|]. by intros s ?%elem_of_nil.
  - cbn [issue_requests].
    destruct (IH (count_request s0 w)) as (added & Htr & Hreq).
    assert (Hgoal : ∃ added', trace (issue_requests nseIndia b (count_request s0 w)).2
                              = trace w ++ added'
                              ∧ ∀ s, EvRequest s ∈ added' → s ∈ s0 :: b).
    { exists (EvRequest s0 :: added). split.
      - rewrite Htr. simpl. by rewrite <- app_assoc.
      - intros s [[= ->]|Hin]%elem_of_cons; [by left|]. right. by apply Hreq. }
    destruct (getEquityDetails nseIndia (requests w) s0).
    + exists [EvRequest s0]. split; [done|].
      intros s [= ->]%list_elem_of_singleton. by left.
    + by destruct (issue_requests nseIndia b (count_request s0 w)).
    + by destruct (issue_requests nseIndia b (count_request s0 w)).
Qed.

Lemma try_batch_added (nseIndia : Provider) (batch : list string) (w : World) :
  ∃ added, trace (try_batch nseIndia batch w).2 = trace w ++ added
           ∧ ∀ s, EvRequest s ∈ added → s ∈ batch.
Proof.
  unfold try_batch. destruct (issue_requests_added nseIndia batch w) as (added & Htr & Hreq).
  exists added. split; [|done].
  destruct (issue_requests nseIndia batch w) as [[r|] w1]; simpl in *; [|done].
  by destruct (foldl_cache_quote_quiet
                 (omap (λ sr, quote_of_result sr.1 sr.2) r)
                 (elapse (Z.of_N (latency nseIndia (requests w1))) w1)) as (_ & _ & ->).
Qed.

Lemma retry_batch_added (nseIndia : Provider) (index : nat) (batch : list string)
    (attempts : nat) (w : World) :
  ∃ added, trace (retry_batch nseIndia index batch attempts w).2 = trace w ++ added
           ∧ ∀ s, EvRequest s ∈ added → s ∈ batch.
Proof.
  revert w. induction attempts as [|n IH]; intros w.
  - exists []. simpl. split; [by rewrite app_nil_r|]. by intros s ?%elem_of_nil.
  - cbn [retry_batch]. destruct (try_batch_added nseIndia batch w) as (added & Htr & Hreq).
    destruct (try_batch nseIndia batch w) as [[quotes|] w1]; cbn [snd] in *.
    { by exists added. }
    assert (Hnext : ∀ w2 log, trace w2 = trace w1 ++ log →
              (∀ s, EvRequest s ∉ log) →
              ∃ added', trace (retry_batch nseIndia index batch n w2).2 = trace w ++ added'
                        ∧ ∀ s, EvRequest s ∈ added' → s ∈ batch).
    { intros w2 log Hw2 Hlog. destruct (IH w2) as (more & Hm & Hmreq).
      exists (added ++ log ++ more). split.
      - by rewrite Hm, Hw2, Htr, <- !app_assoc.
      - intros s [Hin|[Hin|Hin]%elem_of_app]%elem_of_app;
          [by apply Hreq | by destruct (Hlog s) | by apply Hmreq]. }
    case_match.
    + apply (Hnext _ [EvBatchError (index + 1) (MAX_RETRIES + 1 - S n);
                      EvBatchSkipped (index + 1)]).
      * simpl. by rewrite <- app_assoc.
      * intros s Hin. repeat (apply elem_of_cons in Hin as [Hin|Hin]; [done|]).
        by apply elem_of_nil in Hin.
    + apply (Hnext _ [EvBatchError (index + 1) (MAX_RETRIES + 1 - S n); EvSleep 1000]).
      * simpl. by rewrite <- app_assoc.
      * intros s Hin. repeat (apply elem_of_cons in Hin as [Hin|Hin]; [done|]).
        by apply elem_of_nil in Hin.
Qed.

Lemma fetch_batches_added (nseIndia : Provider) (index : nat)
    (batches : list (list string)) (w : World) :
  ∃ added, trace (fetch_batches nseIndia index batches w).2 = trace w ++ added
           ∧ ∀ s, EvRequest s ∈ added → s ∈ concat batches.
Proof.
  revert index w. induction batches as [|b rest IH]; intros index w.
  - exists []. simpl. split; [by rewrite app_nil_r|]. by intros s ?%elem_of_nil.
  - rewrite fetch_batches_cons. cbn [snd concat].
    destruct (retry_batch_added nseIndia index b MAX_RETRIES w) as (added & Htr & Hreq).
    set (w1 := (retry_batch nseIndia index b MAX_RETRIES w).2) in *.
    assert (Hwait : ∃ log, trace (between_batches rest w1) = trace w1 ++ log
                           ∧ ∀ s, EvRequest s ∉ log).
    { destruct rest as [|b' rest'].
      - exists []. simpl. split; [by rewrite app_nil_r|]. by intros s ?%elem_of_nil.
      - exists [EvSleep BATCH_DELAY_MS]. split; [done|].
        by intros s ?%list_elem_of_singleton. }
    destruct Hwait as (log & Hw & Hlog).
    destruct (IH (S index) (between_batches rest w1)) as (more & Hm & Hmreq).
    exists (added ++ log ++ more). split.
    + by rewrite Hm, Hw, Htr, <- !app_assoc.
    + intros s [Hin|[Hin|Hin]%elem_of_app]%elem_of_app.
      * apply elem_of_app. left. by apply Hreq.
      * by destruct (Hlog s).
      * apply elem_of_app. right. by apply Hmreq.
Qed.

(** X14. A call never asks the provider for a symbol it was not given, for
    a symbol outside [allSymbolsSet] or for a blank one, and when it
    consults the cache it asks for no symbol the cache served: whatever the
    provider does, the call only appends to the trace, and every request it
    appends is for one of the symbols to fetch, which are valid symbols of
    the input. *)
Theorem fetch_requests_only_valid (FORCE_CACHE_BYPASS : bool) (nseIndia : Provider)
    (reg : Registry) (symbols : list string) (batchSize : positive)
    (forceRefresh : bool) (w : World) :
  let r := fetchEquityDetailsInBatches FORCE_CACHE_BYPASS nseIndia reg symbols
             batchSize forceRefresh w in
  let to_fetch := symbols_to_fetch FORCE_CACHE_BYPASS reg symbols forceRefresh w in
  (∃ added, trace r.2 = trace w ++ added ∧ ∀ s, EvRequest s ∈ added → s ∈ to_fetch)
  ∧ ∀ s, s ∈ to_fetch →
      s ∈ symbols ∧ s ∈ allSymbolsSet reg ∧ JsString.trim s ≠ "".
Proof.
  intros r to_fetch. subst r to_fetch.
  unfold fetchEquityDetailsInBatches, symbols_to_fetch.
  fold (valid_symbols reg symbols). set (valid := valid_symbols reg symbols).
  assert (Hvalid : ∀ s, s ∈ valid →
            s ∈ symbols ∧ s ∈ allSymbolsSet reg ∧ JsString.trim s ≠ "").
  { intros s [Hv Hs]%list_elem_of_filter. unfold valid_symbol in Hv.
    apply andb_true_iff in Hv as [Hset Htrim]. apply bool_decide_eq_true in Hset.
    split_and!; [done..|]. intros Hblank. by rewrite Hblank in Htrim. }
  destruct (negb forceRefresh && negb FORCE_CACHE_BYPASS) eqn:Hmode.
  - pose proof (cache_phase_symbols valid w) as [_ Hun].
    destruct (cache_phase_quiet valid w) as [_ Ht].
    destruct (cache_phase valid w) as [[hits un] w1]. cbn [fst snd] in *.
    destruct (fetch_batches_added nseIndia 0 (make_batches batchSize un) w1)
      as (added & Htr & Hreq).
    rewrite make_batches_concat in Hreq.
    destruct (fetch_batches nseIndia 0 (make_batches batchSize un) w1) as [fetched w2].
    cbn [fst snd] in *. split.
    + exists added. by rewrite Htr, Ht.
    + intros s Hs. by apply Hvalid, Hun.
  - destruct (fetch_batches_added nseIndia 0 (make_batches batchSize valid) w)
      as (added & Htr & Hreq).
    rewrite make_batches_concat in Hreq.
    destruct (fetch_batches nseIndia 0 (make_batches batchSize valid) w) as [fetched w2].
    cbn [fst snd] in *. split; [by exists added | done].
Qed.

(** ** The answer of [GET /api/market-data] *)

(** X15. The market-wide endpoint answers 200 exactly when the sheet gave
    symbols and the fetch returned a quote, and 500 otherwise.  Without
    symbols it answers without calling the fetcher, so that the store, the
    clock and the provider are left alone.  A 200 answer carries the
    fetcher's [cached] flag and the time of the answer; its gainers are not
    empty, they are the 10 best quotes of the fetch, or all of them when
    there are fewer, no quote left out is above one of them, and every
    listed quote is a quote of the fetch for a symbol of the sheet. *)
Theorem market_data_response (FORCE_CACHE_BYPASS : bool) (nseIndia : Provider)
    (reg : Registry) (forceRefresh : bool) (w : World) :
  let fetched := fetchEquityDetailsInBatches FORCE_CACHE_BYPASS nseIndia reg
                   (market_symbols reg) BATCH_SIZE forceRefresh w in
  let r := market_data FORCE_CACHE_BYPASS nseIndia reg forceRefresh w in
  (market_symbols reg = [] → r = (registry_empty_error, w))
  ∧ (market_symbols reg ≠ [] → r.2 = fetched.2)
  ∧ (status r.1 = 200%nat ∨ status r.1 = 500%nat ∧ is_error r.1)
  ∧ (status r.1 = 200%nat ↔ market_symbols reg ≠ [] ∧ fetched.1.1 ≠ [])
  ∧ (status r.1 = 200%nat →
     ∃ gainers losers,
       body r.1 = MarketBody gainers losers fetched.1.2 (now r.2)
       ∧ gainers ≠ []
       ∧ length gainers = (10 `min` length fetched.1.1)%nat
       ∧ (∀ q, q ∈ gainers ∨ q ∈ losers →
            q ∈ fetched.1.1 ∧ symbol q ∈ market_symbols reg)
       ∧ (∀ g q, g ∈ gainers → q ∈ fetched.1.1 → q ∉ gainers → not_below g q)).
Proof.
  intros fetched r.
  pose proof (fetch_symbols_asked FORCE_CACHE_BYPASS nseIndia reg (market_symbols reg)
                BATCH_SIZE forceRefresh w) as Hasked.
  fold fetched in Hasked. subst r. unfold market_data.
  destruct (decide (market_symbols reg = [])) as [He|Hne].
  { rewrite He. rewrite bool_decide_eq_true_2 by done. simpl.
    split_and!; [done | done | right; split; [done|by eexists] | | done].
    split; [done|]. by intros [? _]. }
  rewrite bool_decide_eq_false_2 by (by destruct (market_symbols reg)).
  cbn [andb]. fold fetched.
  destruct fetched as [[validResults cached] w1]. cbn [fst snd] in *.
  destruct (decide (validResults = [])) as [Hv|Hv].
  { subst validResults. rewrite bool_decide_eq_true_2 by done. simpl.
    split_and!; [done | done | right; split; [done|by eexists] | | done].
    split; [done|]. by intros [_ ?]. }
  rewrite bool_decide_eq_false_2 by (by destruct validResults).
  unfold market_summary. cbv zeta. cbn [fst snd status body].
  set (sorted := js_sort descending validResults).
  assert (Hlen : length sorted = length validResults) by apply js_sort_length.
  split_and!; [done | done | by left | done |]. intros _.
  eexists _, _. split; [reflexivity|]. split_and!.
  - destruct validResults; [done|]. destruct sorted; [done|]. done.
  - rewrite length_take. lia.
  - intros q [Hq|Hq].
    + apply elem_of_take in Hq as (i & Hq & _). apply list_elem_of_lookup_2 in Hq.
      apply js_sort_elem_of in Hq. split; [done|by apply Hasked].
    + apply elem_of_take in Hq as (i & Hq & _). apply list_elem_of_lookup_2 in Hq.
      apply js_sort_elem_of, list_elem_of_filter in Hq as [_ Hq].
      apply js_sort_elem_of in Hq. split; [done|by apply Hasked].
  - intros g q Hg Hq Hout.
    pose proof (js_sort_descending validResults) as Hsorted. fold sorted in Hsorted.
    rewrite <- (take_drop 10 sorted) in Hsorted.
    apply (StronglySorted_app_1_elem_of _ _ _ _ _ Hsorted); [done|].
    apply (js_sort_elem_of descending) in Hq. fold sorted in Hq.
    rewrite <- (take_drop 10 sorted) in Hq. apply elem_of_app in Hq as [?|?]; done.
Qed.

(** ** Market hours *)

Lemma clock_of_local (x : Z) :
  (x / 3600000) mod 24 = (x mod 86400000) / 3600000
  ∧ (x / 60000) mod 60 = ((x mod 86400000) / 60000) mod 60.
Proof. split; Z.div_mod_to_equations; lia. Qed.

(** X16. [isMarketOpen] answers by the host's local clock read 5 h 30 min
    ahead of the current time.  With [local] the milliseconds since the
    epoch on that clock, it says open exactly when the day is Monday to
    Friday and the time of day lies from 09:15:00.000 up to, and not
    including, 15:31:00.000: the whole minute 15:30 counts as open.  The
    answer repeats every week, and it depends on the time and on the zone of
    the host only through their sum, so that the window is the one of Indian
    time only on a host that keeps UTC. *)
Theorem isMarketOpen_window (tz t : Z) :
  let local := t + istOffset + tz in
  (isMarketOpen tz t = true ↔
     1 ≤ (local / 86400000 + 4) mod 7 ≤ 5
     ∧ 33300000 ≤ local mod 86400000 < 55860000)
  ∧ isMarketOpen tz (t + 7 * 86400000) = isMarketOpen tz t
  ∧ isMarketOpen tz (t - tz) = isMarketOpen 0 t.
Proof.
  intros local.
  assert (Hopen : ∀ tz' t', isMarketOpen tz' t' = true ↔
            1 ≤ ((t' + istOffset + tz') / 86400000 + 4) mod 7 ≤ 5
            ∧ 33300000 ≤ (t' + istOffset + tz') mod 86400000 < 55860000).
  { intros tz' t'. unfold isMarketOpen, getHours, getMinutes, getDay. cbv zeta.
    destruct (clock_of_local (t' + istOffset + tz')) as [-> ->].
    set (d := ((t' + istOffset + tz') / 86400000 + 4) mod 7).
    set (s := (t' + istOffset + tz') mod 86400000).
    assert (Hs : 0 ≤ s < 86400000) by (apply Z.mod_pos_bound; lia).
    clearbody d s.
    rewrite !andb_true_iff, !orb_true_iff, !andb_true_iff.
    rewrite !Z.leb_le, !Z.ltb_lt, !Z.eqb_eq.
    Z.div_mod_to_equations; lia. }
  split_and!.
  - apply Hopen.
  - apply eq_true_iff_eq. rewrite !Hopen.
    replace (t + 7 * 86400000 + istOffset + tz) with (local + 7 * 86400000)
      by (unfold local; lia).
    fold local.
    replace ((local + 7 * 86400000) / 86400000) with (local / 86400000 + 7)
      by (Z.div_mod_to_equations; lia).
    replace ((local + 7 * 86400000) mod 86400000) with (local mod 86400000)
      by (Z.div_mod_to_equations; lia).
    replace ((local / 86400000 + 7 + 4) mod 7) with ((local / 86400000 + 4) mod 7)
      by (Z.div_mod_to_equations; lia).
    done.
  - apply eq_true_iff_eq. rewrite !Hopen.
    by replace (t - tz + istOffset + tz) with (t + istOffset + 0) by lia.
Qed.

(** ** What the aggregation keeps *)

Lemma sum_count_assoc_set (k : string) (v : Metrics) (metrics : list (string * Metrics)) :
  (sum_list_with (λ e, count e.2) (assoc_set k v metrics)
   + count (default no_metrics (assoc k metrics))
   = sum_list_with (λ e, count e.2) metrics + count v)%nat.
Proof.
  induction metrics as [|[k' v'] metrics IH]; simpl; [lia|].
  case_decide; simpl; lia.
Qed.

Lemma sum_count_add_stocks (stock : Quote) (names : list string)
    (metrics : list (string * Metrics)) :
  sum_list_with (λ e, count e.2) (foldl (add_stock stock) metrics names)
  = (sum_list_with (λ e, count e.2) metrics + length names)%nat.
Proof.
  revert metrics. induction names as [|name names IH]; intros metrics; simpl; [lia|].
  rewrite IH. unfold add_stock.
  pose proof (sum_count_assoc_set name
    {| totalPChange :=
         JsNumber.add (totalPChange (default no_metrics (assoc name metrics)))
           (JsNumber.of_Qc (change stock));
       count := count (default no_metrics (assoc name metrics)) + 1;
       bucket := bucket (default no_metrics (assoc name metrics)) ++ [stock] |}
    metrics) as H.
  simpl in H. lia.
Qed.

Lemma sum_count_collect (symbolToIndustries : gmap string (list string))
    (quotes : list Quote) :
  sum_list_with (λ e, count e.2) (collect_metrics symbolToIndustries quotes)
  = sum_list_with (λ q, length (industries_of symbolToIndustries q)) quotes.
Proof.
  unfold collect_metrics.
  assert (Hgen : ∀ acc,
            sum_list_with (λ e, count e.2)
              (foldl (λ metrics stock,
                        foldl (add_stock stock) metrics
                          (default ["N/A"] (symbolToIndustries !! symbol stock)))
                 acc quotes)
            = (sum_list_with (λ e, count e.2) acc
               + sum_list_with (λ q, length (industries_of symbolToIndustries q)) quotes)%nat).
  { induction quotes as [|q quotes IH]; intros acc; simpl; [lia|].
    rewrite IH, sum_count_add_stocks. unfold industries_of. lia. }
  by rewrite Hgen.
Qed.

Lemma sum_stockCount_aggregate (symbolToIndustries : gmap string (list string))
    (quotes : list Quote) :
  sum_list_with stockCount (aggregate symbolToIndustries quotes)
  = sum_list_with (λ q, length (industries_of symbolToIndustries q)) quotes.
Proof.
  unfold aggregate. rewrite js_sort_Permutation, <- sum_count_collect.
  generalize (collect_metrics symbolToIndustries quotes).
  induction l as [|[name m] l IH]; [done|]. rewrite fmap_cons.
  destruct (decide (0 < stockCount (summarize (name, m)))%nat) as [Hpos|Hzero].
  - rewrite filter_cons_True by done. simpl. by rewrite IH.
  - rewrite filter_cons_False by done. simpl in *. rewrite IH. lia.
Qed.

Lemma industry_quotes_without_index (FORCE_CACHE_BYPASS : bool) (nseIndia : Provider)
    (reg : Registry) (forceRefresh : bool) (w : World) :
  industryData reg = [] →
  (industry_quotes FORCE_CACHE_BYPASS nseIndia reg forceRefresh w).1.1 = [].
Proof.
  intros Hnil. unfold industry_quotes. rewrite Hnil.
  by destruct forceRefresh, FORCE_CACHE_BYPASS.
Qed.

(** X17. The industry endpoint drops no quote and counts none twice under a
    label: every quote it works with, fetched or taken from the cache, has a
    symbol of the index and is among the stocks of the industry of each
    label that lists its symbol; and the [stockCount]s of the answer add up
    to the number of pairs of a quote and a label the symbol index gives for
    it. *)
Theorem industry_data_shows_every_quote (FORCE_CACHE_BYPASS : bool)
    (nseIndia : Provider) (reg : Registry) (forceRefresh : bool) (w : World) :
  let quotes := (industry_quotes FORCE_CACHE_BYPASS nseIndia reg forceRefresh w).1.1 in
  let industries :=
    response_industries
      (industry_data FORCE_CACHE_BYPASS nseIndia reg forceRefresh w).1 in
  let symbolToIndustries := (index_industries (industryData reg)).2 in
  (∀ q, q ∈ quotes → ∃ name, listed (industryData reg) name (symbol q))
  ∧ (∀ q name, q ∈ quotes → listed (industryData reg) name (symbol q) →
       ∃ ind, ind ∈ industries ∧ industry ind = name ∧ q ∈ stocks ind)
  ∧ sum_list_with stockCount industries
    = sum_list_with (λ q, length (industries_of symbolToIndustries q)) quotes.
Proof.
  intros quotes industries symbolToIndustries.
  pose proof (industry_quotes_symbols FORCE_CACHE_BYPASS nseIndia reg forceRefresh w)
    as Hsym.
  pose proof (industry_quotes_without_index FORCE_CACHE_BYPASS nseIndia reg forceRefresh w)
    as Hnone.
  fold quotes in Hsym, Hnone.
  destruct (index_industries_indexed (industryData reg)) as (_ & H2 & H3 & H4).
  assert (Hbody : industryData reg ≠ [] →
                  industries = match quotes with
                               | [] => []
                               | _ => aggregate symbolToIndustries quotes
                               end).
  { intros Hne. subst industries quotes. unfold industry_data.
    rewrite bool_decide_eq_false_2 by (by destruct (industryData reg)).
    destruct (industry_quotes _ _ _ _ _) as [[validResults cached] w1]. cbn [fst].
    by destruct validResults. }
  split_and!.
  - intros q Hq. apply H2. by apply Hsym.
  - intros q name Hq Hl.
    destruct (decide (industryData reg = [])) as [He|Hne];
      [rewrite (Hnone He) in Hq; by apply elem_of_nil in Hq|].
    rewrite (Hbody Hne). destruct quotes as [|q0 rest] eqn:Eq; [by apply elem_of_nil in Hq|].
    rewrite <- Eq in *.
    destruct (collect_metrics_spec symbolToIndustries quotes) as [_ Hcomplete].
    destruct (Hcomplete q name) as (m & Hm & Hb).
    { done. }
    { unfold industries_of. fold symbolToIndustries.
      destruct (symbolToIndustries !! symbol q) as [inds|] eqn:E.
      - simpl. by apply (H4 _ _ E).
      - apply H3 in E. destruct E. by apply Hsym. }
    exists (summarize (name, m)). split_and!.
    + apply aggregate_elem. exists name, m. split; [|done]. by apply assoc_elem_of.
    + done.
    + cbn [summarize stocks]. by apply js_sort_elem_of.
  - destruct (decide (industryData reg = [])) as [He|Hne].
    + rewrite (Hnone He). subst industries. unfold industry_data. rewrite He.
      by rewrite bool_decide_eq_true_2.
    + rewrite (Hbody Hne). destruct quotes as [|q0 rest] eqn:Eq; [done|].
      apply sum_stockCount_aggregate.
Qed.

(** ** The ranking of the industries *)







(** * Further worked instances *)

(** The three rows of [sample_rows] are usable and none is poisoned: the
    registry keeps them, and [TCS] is listed under [IT]. *)
Lemma preload_from_rows_instance :
  nifty500Data sample_registry = sample_rows
  ∧ listed (industryData sample_registry) "IT" "TCS".
Proof.
  destruct (preload_from_rows sample_rows initial_registry) as (H1 & H2 & _).
  - intros row Hin. unfold poisoned, usable. revert row Hin.
    apply list.Forall_forall. apply (bool_decide_unpack _). by vm_compute.
  - exists {| row_Symbol := Some "tcs.ns"; row_Industry := Some " IT " |}.
    split; [apply list_elem_of_here | by vm_compute].
  - split; [exact H1|]. apply H2.
    exists {| row_Symbol := Some "tcs.ns"; row_Industry := Some " IT " |}.
    split_and!; [apply list_elem_of_here | by vm_compute..].
Defined.

(** The row of [INFY] under the label [constructor] makes the loader give up
    the whole sheet of [poisoned_rows]. *)
Lemma preload_gives_up_sheet_instance :
  industryData (preloadExcelData (ReadRows poisoned_rows) initial_registry)
  = DEFAULT_INDUSTRY_DATA
  ∧ market_symbols (preloadExcelData (ReadRows poisoned_rows) initial_registry) = [].
Proof.
  destruct (preload_gives_up_sheet poisoned_rows initial_registry) as (H1 & H2 & _).
  - left. exists {| row_Symbol := Some "INFY"; row_Industry := Some " constructor " |}.
    split; [apply list_elem_of_further, list_elem_of_here|].
    split; [by vm_compute|]. apply (bool_decide_unpack _). by vm_compute.
  - split; [exact H1 | exact H2].
Defined.

(** A forced refresh of three symbols in batches of two against
    [healthy_provider]: three requests, and one wait after the first
    batch. *)
Lemma fetch_traffic_instance :
  trace (fetchEquityDetailsInBatches false healthy_provider fallback_registry
           ["TCS"; "PFC"; "PEL"] 2 true empty_world).2
  = [EvRequest "TCS"; EvRequest "PFC"; EvSleep BATCH_DELAY_MS; EvRequest "PEL"]
  ∧ requests (fetchEquityDetailsInBatches false healthy_provider fallback_registry
                ["TCS"; "PFC"; "PEL"] 2 true empty_world).2 = 3%nat.
Proof.
  destruct (fetch_traffic false healthy_provider fallback_registry ["TCS"; "PFC"; "PEL"]
              2 true empty_world) as (H1 & H2 & _).
  - intros n s. discriminate.
  - split; [exact H1 | exact H2].
Defined.

(** In [warm_world] the only valid symbol of the call, [TCS], has an entry
    100 s old: the call returns its quote and leaves the world alone. *)
Lemma fetch_served_from_cache_instance :
  (fetchEquityDetailsInBatches false healthy_provider fallback_registry
     ["TCS"; "UNLISTED"] BATCH_SIZE false warm_world).2 = warm_world
  ∧ symbol <$> (fetchEquityDetailsInBatches false healthy_provider fallback_registry
                  ["TCS"; "UNLISTED"] BATCH_SIZE false warm_world).1.1
    = ["TCS"].
Proof.
  destruct (fetch_served_from_cache healthy_provider fallback_registry
              ["TCS"; "UNLISTED"] BATCH_SIZE warm_world) as (H1 & H2 & _).
  - intros s Hs.
    assert (Hv : valid_symbols fallback_registry ["TCS"; "UNLISTED"] = ["TCS"])
      by (by vm_compute).
    rewrite Hv in Hs. apply list_elem_of_singleton in Hs as ->.
    exists (sample_entry 200 900000), 1200000.
    split_and!; [reflexivity | vm_compute; discriminate | reflexivity].
  - split; [exact H1 | exact H2].
Defined.

(** A quote cached at time 1000000 is served one second later. *)
Lemma cached_quote_served_for_ttl_instance :
  cache_phase ["TCS"] (elapse 1000 (cache_quote empty_world (sample_fetched "TCS")))
  = ([sample_fetched "TCS"], [],
     elapse 1000 (cache_quote empty_world (sample_fetched "TCS"))).
Proof.
  destruct (cached_quote_served_for_ttl empty_world (sample_fetched "TCS") 1000)
    as [Hhit _]; [lia|].
  apply Hhit. lia.
Defined.

